(** * pica-pic3: duplicate cleanup of a GitHub folder and the scene runner

    A shallow embedding of
    - [services/githubService]: [isImageFile], [getRepoFiles],
      [deleteFileFromGitHub];
    - [components/RepoCleanupModal]: [parseRepo], [handleScan],
      [executeDelete], [toggleSelection];
    - [components/Visualizer/BabylonScene]: [runUserCode];
    - the rest of [services/githubService]: [isGitHubUrl],
      [getImagesFromGitHub], the addresses of the delete and upload
      requests, [uploadImageToGitHub];
    - [components/ExportModal]: [handleExport];
    - [components/AddUrlModal]: [handleSubmit];
    followed by the properties of the duplicate detector, the deletion
    executor and the scene repair policy, and then of the import, the
    request addresses, the scene swap, the export batch and the form that
    adds images by address.

    Conventions.  A JavaScript string is a Rocq [string]; its characters
    stand for the UTF-16 code units of the JavaScript string (the model is
    exact on the code units below 256), so [String.length] is [.length].
    A JavaScript number that is an integer is a [nat] or a [Z].  A property
    that may be absent ([undefined]) is an [option].  React state is passed
    explicitly as a record; the effects of an [async] function are the
    final state together with a trace of the calls it made. *)

From Stdlib Require Import List String Ascii ZArith Lia Bool Arith.
From Stdlib Require Import Permutation Sorted DecimalString DecimalNat.
Import ListNotations.
Local Open Scope string_scope.
Local Open Scope list_scope.

(* ===================================================================== *)
(** ** The host language: strings, arrays, [Set], [Map], exceptions       *)
(* ===================================================================== *)

Module Js.

(** An [Error] object; only its [message] property is ever read. *)
Record JsError := { message : option string }.

(** The completion of a call: it returns a value or throws. *)
Inductive completion (A : Type) : Type :=
| Normal (a : A)
| Throw (e : JsError).
Arguments Normal {A} a.
Arguments Throw {A} e.

(** [new Error(msg)] *)
Definition newError (msg : string) : JsError := {| message := Some msg |}.

(** Truthiness of a value that is a string or [undefined]. *)
Definition truthy (v : option string) : bool :=
  match v with
  | Some (String _ _) => true
  | _ => false
  end.

(** [v || d] for such a value. *)
Definition orElse (v : option string) (d : string) : string :=
  match v with
  | Some (String c r) => String c r
  | _ => d
  end.

(** A template literal prints [undefined] for an absent value. *)
Definition show (v : option string) : string :=
  match v with
  | Some s => s
  | None => "undefined"
  end.

(** A number in a template literal. *)
Definition showNat (n : nat) : string :=
  NilEmpty.string_of_uint (Nat.to_uint n).

(** [s.split(sep)] for a one-character separator: never empty. *)
Fixpoint split (sep : ascii) (s : string) : list string :=
  match s with
  | EmptyString => [EmptyString]
  | String c r =>
      if Ascii.eqb c sep then EmptyString :: split sep r
      else match split sep r with
           | [] => [String c EmptyString]
           | seg :: segs => String c seg :: segs
           end
  end.

(** [arr.pop()]: the last element, [undefined] on an empty array. *)
Fixpoint pop {A : Type} (l : list A) : option A :=
  match l with
  | [] => None
  | [x] => Some x
  | _ :: r => pop r
  end.

(** The lower-case form of a code unit below 256: the letters A-Z and the
    capital letters of Latin-1 (192-222 but the multiplication sign). *)
Definition lowerChar (c : ascii) : ascii :=
  let n := nat_of_ascii c in
  if (((65 <=? n)%nat && (n <=? 90)%nat)
      || ((192 <=? n)%nat && (n <=? 222)%nat && negb (n =? 215)%nat))%bool
  then ascii_of_nat (n + 32)
  else c.

(** [s.toLowerCase()] *)
Fixpoint toLowerCase (s : string) : string :=
  match s with
  | EmptyString => EmptyString
  | String c r => String (lowerChar c) (toLowerCase r)
  end.

(** [hay.includes(needle)] *)
Fixpoint includes (hay needle : string) : bool :=
  if String.prefix needle hay then true
  else match hay with
       | EmptyString => false
       | String _ r => includes r needle
       end.

(** White space and line terminators among the code units below 256. *)
Definition isSpace (c : ascii) : bool :=
  let n := nat_of_ascii c in
  (((9 <=? n)%nat && (n <=? 13)%nat) || (n =? 32)%nat || (n =? 160)%nat)%bool.

Fixpoint trimStart (s : string) : string :=
  match s with
  | EmptyString => EmptyString
  | String c r => if isSpace c then trimStart r else s
  end.

Fixpoint trimEnd (s : string) : string :=
  match s with
  | EmptyString => EmptyString
  | String c r =>
      match trimEnd r with
      | EmptyString => if isSpace c then EmptyString else String c EmptyString
      | r' => String c r'
      end
  end.

(** [s.trim()] *)
Definition trim (s : string) : string := trimEnd (trimStart s).

(** [Set<string>]: membership by value, iteration in insertion order. *)
Definition StringSet := list string.

Definition set_has (x : string) (s : StringSet) : bool :=
  existsb (String.eqb x) s.

Definition set_add (x : string) (s : StringSet) : StringSet :=
  if set_has x s then s else s ++ [x].

Definition set_delete (x : string) (s : StringSet) : StringSet :=
  filter (fun y => negb (String.eqb x y)) s.

(** [Map<K,V>]: keys compared by value, iteration in the order in which
    the keys were first set; setting an existing key keeps its place. *)
Section JsMap.
Context {K V : Type} (keq : K -> K -> bool).

Fixpoint map_get (k : K) (m : list (K * V)) : option V :=
  match m with
  | [] => None
  | (k', v) :: r => if keq k k' then Some v else map_get k r
  end.

Fixpoint map_set (k : K) (v : V) (m : list (K * V)) : list (K * V) :=
  match m with
  | [] => [(k, v)]
  | (k', v') :: r =>
      if keq k k' then (k, v) :: r else (k', v') :: map_set k v r
  end.
End JsMap.

(** [Array.prototype.sort(cmp)].  The language requires a stable sort and
    leaves the algorithm open; for a consistent comparator the result is
    the unique stable sorted permutation.  The model is the stable
    insertion sort: an element goes before the first element it does not
    follow. *)
Section Sort.
Context {A : Type} (cmp : A -> A -> Z).

Fixpoint insert (x : A) (l : list A) : list A :=
  match l with
  | [] => [x]
  | y :: r => if (cmp x y <=? 0)%Z then x :: y :: r else y :: insert x r
  end.

Fixpoint sort (l : list A) : list A :=
  match l with
  | [] => []
  | x :: r => insert x (sort r)
  end.
End Sort.

End Js.

(* ===================================================================== *)
(** ** services/githubService                                             *)
(* ===================================================================== *)

Module GitHub.
Import Js.

(** An entry of a directory listing.  The listing is untyped JSON: [sha]
    is [None] when the property is absent. *)
Record GitHubFile := {
  name : string;
  type : string;
  download_url : string;
  sha : option string;
  path : string
}.

(** What [response.json()] yields: an array of entries, or an object of
    which at most [message] is read. *)
Inductive Json :=
| JArray (items : list GitHubFile)
| JObject (msg : option string).

Record Response := {
  ok : bool;
  statusText : string;
  json : completion Json
}.

Definition imageExtensions : list string :=
  ["jpg"; "jpeg"; "png"; "gif"; "webp"; "bmp"; "svg"].

(** [filename.split('.').pop()?.toLowerCase()] *)
Definition extension (filename : string) : option string :=
  option_map toLowerCase (pop (split "." filename)).

Definition isImageFile (filename : string) : bool :=
  let ext := extension filename in
  existsb (String.eqb (orElse ext "")) imageExtensions.

(** [getRepoFiles], given what [fetch] answered. *)
Definition getRepoFiles (fetched : completion Response)
  : completion (list GitHubFile) :=
  match fetched with
  | Throw e => Throw e
  | Normal response =>
      if negb (ok response) then
        Throw (newError
                 ("Failed to fetch repo contents: " ++ statusText response)%string)
      else
        match json response with
        | Throw e => Throw e
        | Normal (JObject _) => Normal []
        | Normal (JArray data) =>
            Normal (filter (fun file =>
                              (String.eqb (type file) "file"
                               && isImageFile (name file))%bool) data)
        end
  end.

(** [deleteFileFromGitHub], given what [fetch] answered. *)
Definition deleteFileFromGitHub (fetched : completion Response)
  : completion unit :=
  match fetched with
  | Throw e => Throw e
  | Normal response =>
      if negb (ok response) then
        match json response with
        | Throw e => Throw e
        | Normal (JObject msg) =>
            Throw (newError (orElse msg "Failed to delete file"))
        | Normal (JArray _) => Throw (newError "Failed to delete file")
        end
      else Normal tt
  end.

End GitHub.


(* ===================================================================== *)
(** ** components/RepoCleanupModal                                        *)
(* ===================================================================== *)

Module Cleanup.
Import Js GitHub.

Record DuplicateGroup := {
  sha : option string;
  files : list GitHubFile
}.

(** The component state ([useState] cells). *)
Record State := {
  token : string;
  repoStr : string;
  folderPath : string;
  isScanning : bool;
  duplicates : list DuplicateGroup;
  selectedToDelete : StringSet;
  status : option string;
  isDeleting : bool;
  showConfirm : bool
}.

Definition setIsScanning (b : bool) (st : State) : State :=
  {| token := token st; repoStr := repoStr st; folderPath := folderPath st;
     isScanning := b; duplicates := duplicates st;
     selectedToDelete := selectedToDelete st; status := status st;
     isDeleting := isDeleting st; showConfirm := showConfirm st |}.

Definition setDuplicates (d : list DuplicateGroup) (st : State) : State :=
  {| token := token st; repoStr := repoStr st; folderPath := folderPath st;
     isScanning := isScanning st; duplicates := d;
     selectedToDelete := selectedToDelete st; status := status st;
     isDeleting := isDeleting st; showConfirm := showConfirm st |}.

Definition setSelectedToDelete (s : StringSet) (st : State) : State :=
  {| token := token st; repoStr := repoStr st; folderPath := folderPath st;
     isScanning := isScanning st; duplicates := duplicates st;
     selectedToDelete := s; status := status st;
     isDeleting := isDeleting st; showConfirm := showConfirm st |}.

Definition setStatus (s : string) (st : State) : State :=
  {| token := token st; repoStr := repoStr st; folderPath := folderPath st;
     isScanning := isScanning st; duplicates := duplicates st;
     selectedToDelete := selectedToDelete st; status := Some s;
     isDeleting := isDeleting st; showConfirm := showConfirm st |}.

Definition setIsDeleting (b : bool) (st : State) : State :=
  {| token := token st; repoStr := repoStr st; folderPath := folderPath st;
     isScanning := isScanning st; duplicates := duplicates st;
     selectedToDelete := selectedToDelete st; status := status st;
     isDeleting := b; showConfirm := showConfirm st |}.

Definition setShowConfirm (b : bool) (st : State) : State :=
  {| token := token st; repoStr := repoStr st; folderPath := folderPath st;
     isScanning := isScanning st; duplicates := duplicates st;
     selectedToDelete := selectedToDelete st; status := status st;
     isDeleting := isDeleting st; showConfirm := b |}.

(** Helper to safely parse repo string *)
Definition parseRepo (str : string) : option (string * string) :=
  match split "/" str with
  | [p0; p1] =>
      let owner := trim p0 in
      let repo := trim p1 in
      if (negb (truthy (Some owner)) || negb (truthy (Some repo)))%bool
      then None
      else Some (owner, repo)
  | _ => None
  end.

(** Key equality of [Map]: strings by value, [undefined] equal to itself. *)
Definition sameValueZero (a b : option string) : bool :=
  match a, b with
  | Some x, Some y => String.eqb x y
  | None, None => true
  | _, _ => false
  end.

(** Group by SHA: [shaMap] after [files.forEach]. *)
Definition groupBySha (files : list GitHubFile)
  : list (option string * list GitHubFile) :=
  fold_left
    (fun shaMap file =>
       let list := match map_get sameValueZero (GitHub.sha file) shaMap with
                   | Some l => l
                   | None => []
                   end in
       map_set sameValueZero (GitHub.sha file) (list ++ [file]) shaMap)
    files [].

Section Collation.

(** [String.prototype.localeCompare] belongs to the host and depends on
    its locale: negative, zero or positive. *)
Variable localeCompare : string -> string -> Z.

(** The comparator handed to [sort]: name length, then [localeCompare]. *)
Definition compareFiles (a b : GitHubFile) : Z :=
  if negb (String.length (name a) =? String.length (name b))%nat
  then (Z.of_nat (String.length (name a)) - Z.of_nat (String.length (name b)))%Z
  else localeCompare (name a) (name b).

(** Mark all except the first for deletion: the loop from index 1. *)
Definition markRedundant (sorted : list GitHubFile) (toDelete : StringSet)
  : StringSet :=
  fold_left (fun s f => set_add (path f) s) (skipn 1 sorted) toDelete.

(** The body of [shaMap.forEach]. *)
Definition collect (acc : list DuplicateGroup * StringSet)
  (entry : option string * list GitHubFile) : list DuplicateGroup * StringSet :=
  let '(dupes, toDelete) := acc in
  let '(k, groupFiles) := entry in
  if (1 <? List.length groupFiles)%nat then
    let sorted := sort compareFiles groupFiles in
    (dupes ++ [{| sha := k; files := sorted |}], markRedundant sorted toDelete)
  else acc.

(** Lines 62-93 of the component: [dupes] and [toDelete]. *)
Definition findDuplicates (files : list GitHubFile)
  : list DuplicateGroup * StringSet :=
  fold_left collect (groupBySha files) ([], []).

(** [handleScan], given what the listing request answered: the state once
    the handler has run to its end. *)
Definition handleScan (st : State) (fetched : completion Response) : State :=
  let cleanToken := trim (token st) in
  match truthy (Some cleanToken), parseRepo (repoStr st) with
  | true, Some (owner, repo) =>
      let st1 :=
        setShowConfirm false
          (setSelectedToDelete []
             (setDuplicates []
                (setStatus "Scanning repository for files..."
                   (setIsScanning true st)))) in
      let st2 :=
        match getRepoFiles fetched with
        | Normal files =>
            let st3 :=
              setStatus ("Found " ++ showNat (List.length files)
                         ++ " images. Analyzing content...")%string st1 in
            let '(dupes, toDelete) := findDuplicates files in
            let st4 := setSelectedToDelete toDelete (setDuplicates dupes st3) in
            if (List.length dupes =? 0)%nat
            then setStatus "No duplicates found! Your repo is clean." st4
            else setStatus ("Found " ++ showNat (List.length dupes)
                            ++ " groups of duplicate images.")%string st4
        | Throw err =>
            setStatus ("Error: " ++ show (message err))%string st1
        end in
      setIsScanning false st2
  | _, _ =>
      setStatus "Please enter a valid Token and Repo (user/repo)." st
  end.

End Collation.

(** What [executeDelete] does to the outside, in order. *)
Inductive Event :=
| StatusShown (s : string)
| DeleteRequest (path sha : string)
| ConsoleWarn (s : string)
| ConsoleError (s : string) (e : JsError).

(** The local variables of the batch, with the trace of its effects. *)
Record Batch := {
  deletedCount : nat;
  errorCount : nat;
  lastError : string;
  trace : list Event
}.

Definition emit (ev : Event) (b : Batch) : Batch :=
  {| deletedCount := deletedCount b; errorCount := errorCount b;
     lastError := lastError b; trace := trace b ++ [ev] |}.

(** Number of delete requests issued so far. *)
Definition requestCount (b : Batch) : nat :=
  List.length (filter (fun ev => match ev with
                                 | DeleteRequest _ _ => true
                                 | _ => false
                                 end) (trace b)).

(** Find the file object to get the SHA: the value of the local [sha] when
    the inner loop is left. *)
Fixpoint lookupSha (groups : list DuplicateGroup) (p : string) : option string :=
  match groups with
  | [] => Some ""
  | group :: rest =>
      match find (fun f => String.eqb (path f) p) (files group) with
      | Some f => GitHub.sha f
      | None => lookupSha rest p
      end
  end.

Definition scopeHint : string :=
  "404 Not Found (Check if Token has 'repo' or 'public_repo' write scope)".

(** The [catch] clause: what becomes of [lastError]. *)
Definition classify (e : JsError) : string :=
  match message e with
  | Some (String c r) =>
      if includes (String c r) "Not Found" then scopeHint else String c r
  | _ => "Unknown error"
  end.

(** One turn of the loop over [pathsToDelete].  [deleteFile n path sha] is
    the completion of the [n]-th call (from 0) of [deleteFileFromGitHub]. *)
Definition deleteStep
  (deleteFile : nat -> string -> string -> completion unit)
  (groups : list DuplicateGroup) (total : nat) (b : Batch) (p : string) : Batch :=
  match lookupSha groups p with
  | Some (String c r) =>
      let s := String c r in
      let fileName := pop (split "/" p) in
      let b1 :=
        emit (StatusShown ("Deleting " ++ showNat (deletedCount b + 1) ++ "/"
                           ++ showNat total ++ ": " ++ show fileName ++ "...")%string)
             b in
      let n := requestCount b1 in
      let b2 := emit (DeleteRequest p s) b1 in
      match deleteFile n p s with
      | Normal _ =>
          {| deletedCount := deletedCount b2 + 1; errorCount := errorCount b2;
             lastError := lastError b2; trace := trace b2 |}
      | Throw error =>
          let b3 := emit (ConsoleError ("Failed to delete " ++ p)%string error) b2 in
          {| deletedCount := deletedCount b3; errorCount := errorCount b3 + 1;
             lastError := classify error; trace := trace b3 |}
      end
  | _ => emit (ConsoleWarn ("Could not find SHA for " ++ p)%string) b
  end.

Definition emptyBatch : Batch :=
  {| deletedCount := 0; errorCount := 0; lastError := ""; trace := [] |}.

(** The whole loop, lines 128-169. *)
Definition deleteLoop
  (deleteFile : nat -> string -> string -> completion unit)
  (groups : list DuplicateGroup) (pathsToDelete : list string) : Batch :=
  fold_left (deleteStep deleteFile groups (List.length pathsToDelete))
            pathsToDelete emptyBatch.

(** The final status line, lines 171-175. *)
Definition report (b : Batch) : string :=
  if (0 <? errorCount b)%nat
  then ("Completed with errors. Deleted: " ++ showNat (deletedCount b)
        ++ ". Failed: " ++ showNat (errorCount b)
        ++ ". Last Error: " ++ lastError b)%string
  else ("Cleanup complete! Successfully deleted " ++ showNat (deletedCount b)
        ++ " files.")%string.

(** What [executeDelete] leaves behind: the state, the batch when one was
    run, and whether the refresh scan was scheduled ([setTimeout]). *)
Record Outcome := {
  state : State;
  batch : option Batch;
  rescanScheduled : bool
}.

Definition executeDelete
  (deleteFile : nat -> string -> string -> completion unit) (st : State)
  : Outcome :=
  if (List.length (selectedToDelete st) =? 0)%nat then
    {| state := st; batch := None; rescanScheduled := false |}
  else
    let st1 := setIsDeleting true st in
    match parseRepo (repoStr st) with
    | None =>
        {| state := setIsDeleting false (setStatus "Invalid repository format." st1);
           batch := None; rescanScheduled := false |}
    | Some (owner, repo) =>
        let b := deleteLoop deleteFile (duplicates st) (selectedToDelete st) in
        let st2 := setShowConfirm false (setIsDeleting false (setStatus (report b) st1)) in
        {| state := st2; batch := Some b;
           rescanScheduled := (errorCount b =? 0)%nat |}
    end.

(** The timer set by [executeDelete] fires: the scheduled scan runs against
    what the listing request answers then; without it nothing happens. *)
Definition afterTimeout (localeCompare : string -> string -> Z)
  (o : Outcome) (fetched : completion Response) : State :=
  if rescanScheduled o then handleScan localeCompare (state o) fetched
  else state o.

Definition toggleSelection (p : string) (st : State) : State :=
  setSelectedToDelete
    (if set_has p (selectedToDelete st)
     then set_delete p (selectedToDelete st)
     else set_add p (selectedToDelete st))
    st.

(** The label of a group in the list on screen, line 274:
    [group.sha.substring(0, 10)].  Of an absent hash no property can be
    read: the expression throws the host's type error. *)
Definition shaLabel (group : DuplicateGroup) : completion string :=
  match sha group with
  | Some h => Normal (substring 0 10 h)
  | None =>
      Throw (newError "Cannot read properties of undefined (reading 'substring')")
  end.

End Cleanup.


(* ===================================================================== *)
(** ** components/Visualizer/BabylonScene                                 *)
(* ===================================================================== *)

Module Babylon.
Import Js.

Record Vector3 := { vx : Z; vy : Z; vz : Z }.

Definition Zero : Vector3 := {| vx := 0; vy := 0; vz := 0 |}.

Record Camera := {
  cameraName : string;
  position : Vector3;
  target : Vector3;
  controlsAttached : bool
}.

Record Light := { lightName : string; direction : Vector3 }.

Record Material := {
  materialName : string;
  diffuseColor : option (Z * Z * Z)
}.

Record Mesh := { meshName : string; material : option Material }.

(** Modelled from the spec: the rendering library is loaded globally at run
    time and is not among the sources.  Of a scene the component reads
    [activeCamera], [lights] and [meshes]; objects are attached to a scene
    by their constructors. *)
Record Scene := {
  activeCamera : option Camera;
  cameras : list Camera;
  lights : list Light;
  meshes : list Mesh;
  materials : list Material
}.

(** Modelled from the spec: [new BABYLON.Scene(engine)], a scene with
    nothing in it (the clear colour is not modelled). *)
Definition newScene : Scene :=
  {| activeCamera := None; cameras := []; lights := []; meshes := [];
     materials := [] |}.

(** Modelled from the spec: [new BABYLON.UniversalCamera(name, position,
    scene)] followed by [camera.setTarget(target)].  The library's
    constructor registers the camera and makes it the active one when the
    scene has none; no control is attached unless [attachControl] is
    called. *)
Definition addUniversalCamera (n : string) (pos tgt : Vector3) (s : Scene)
  : Scene :=
  let camera := {| cameraName := n; position := pos; target := tgt;
                   controlsAttached := false |} in
  {| activeCamera := match activeCamera s with
                     | Some c => Some c
                     | None => Some camera
                     end;
     cameras := cameras s ++ [camera];
     lights := lights s; meshes := meshes s; materials := materials s |}.

(** Modelled from the spec: [new BABYLON.HemisphericLight(name, direction,
    scene)]; the constructor registers the light. *)
Definition addHemisphericLight (n : string) (dir : Vector3) (s : Scene)
  : Scene :=
  {| activeCamera := activeCamera s; cameras := cameras s;
     lights := lights s ++ [{| lightName := n; direction := dir |}];
     meshes := meshes s; materials := materials s |}.

(** Modelled from the spec: [BABYLON.MeshBuilder.CreateBox(name, {}, scene)],
    [new BABYLON.StandardMaterial(matName, scene)], the assignment of its
    [diffuseColor] and [box.material = mat]. *)
Definition addBoxWithMaterial (n matName : string) (colour : Z * Z * Z)
  (s : Scene) : Scene :=
  let mat := {| materialName := matName; diffuseColor := Some colour |} in
  {| activeCamera := activeCamera s; cameras := cameras s; lights := lights s;
     meshes := meshes s ++ [{| meshName := n; material := Some mat |}];
     materials := materials s ++ [mat] |}.

End Babylon.

Module BabylonScene.
Import Js Babylon.

(** The refs of the component: the engine, the scene the render loop
    draws, and the scenes disposed so far. *)
Record Refs := {
  engineRef : bool;
  sceneRef : option Scene;
  disposed : list Scene
}.

(** What a program may throw, as the [catch] clause sees it: [null] or
    [undefined], of which no property can be read, or any other value, of
    which [message] is read (absent for a thrown string or number). *)
Inductive Thrown :=
| ThrownNullish
| ThrownValue (e : JsError).

(** How the awaited program ends: it returns, it throws, or its promise
    never settles. *)
Inductive Settled :=
| Returns
| Throws (v : Thrown)
| Pending.

Inductive Log :=
| OnLog (msg : string)
| OnError (msg : string)
| ConsoleError (v : Thrown).

(** A generated program, as far as the component can tell: what it did to
    the scene it was given, and how it ended.  Code that does not parse is
    a program that throws before it touches the scene. *)
Definition Program := Scene -> Scene * Settled.

Definition fallbackPosition : Vector3 := {| vx := 0; vy := 0; vz := -10 |}.
Definition up : Vector3 := {| vx := 0; vy := 1; vz := 0 |}.

(** Step 4 of [runUserCode], after the program returned. *)
Definition robustFallbacks (s : Scene) : Scene :=
  let s1 := match activeCamera s with
            | None => addUniversalCamera "FallbackCamera" fallbackPosition Zero s
            | Some _ => s
            end in
  if (List.length (lights s1) =? 0)%nat
  then addHemisphericLight "fallbackLight" up s1
  else s1.

(** The [catch] clause of [runUserCode]. *)
Definition errorFallback (s : Scene) : Scene :=
  if (List.length (meshes s) =? 0)%nat then
    let s1 := addBoxWithMaterial "ErrorBox" "errMat" (1, 0, 0)%Z s in
    match activeCamera s1 with
    | None => addUniversalCamera "ErrorCam" fallbackPosition Zero s1
    | Some _ => s1
    end
  else s.

(** The scene [runUserCode] ends with, from what the program made of the
    fresh scene.  While the program is pending nothing after the [await]
    runs.  When [null] or [undefined] was thrown, the [catch] clause logs
    it to the console and then fails itself at [e.message], before
    [onError] and before the error fallback. *)
Definition settle (ran : Scene * Settled) : Scene * list Log :=
  match ran with
  | (s, Returns) => (robustFallbacks s, [OnLog "Scene updated successfully."])
  | (s, Throws (ThrownValue e)) =>
      (errorFallback s,
       [ConsoleError (ThrownValue e);
        OnError ("Runtime Error: " ++ show (message e))%string])
  | (s, Throws ThrownNullish) => (s, [ConsoleError ThrownNullish])
  | (s, Pending) => (s, [])
  end.

Definition runUserCode (program : Program) (r : Refs) : Refs * list Log :=
  let fresh := newScene in
  let old := match sceneRef r with
             | Some s => [s]
             | None => []
             end in
  let '(final, logs) := settle (program fresh) in
  ({| engineRef := engineRef r; sceneRef := Some final;
      disposed := disposed r ++ old |}, logs).

(** The effect on [code]: nothing without an engine or with empty code. *)
Definition executeDynamicCode (code : string) (program : Program) (r : Refs)
  : Refs * list Log :=
  if (negb (engineRef r) || negb (truthy (Some code)))%bool then (r, [])
  else runUserCode program r.

End BabylonScene.


(* ===================================================================== *)
(** ** The vocabulary of the specification                                *)
(* ===================================================================== *)

Module Spec.
Import Js GitHub Cleanup.

(** The records carrying content hash [k], in encounter order. *)
Definition membersOf (k : option string) (files : list GitHubFile)
  : list GitHubFile :=
  filter (fun f => sameValueZero (GitHub.sha f) k) files.

(** The content hashes of a listing, each once, in the order in which they
    are first met. *)
Definition firstSeen (keys : list (option string)) : list (option string) :=
  fold_left (fun seen k => if existsb (sameValueZero k) seen then seen
                           else seen ++ [k])
            keys [].

(** The designated members of a group. *)
Definition keep (g : DuplicateGroup) : option GitHubFile := hd_error (files g).
Definition deleteCandidates (g : DuplicateGroup) : list GitHubFile :=
  skipn 1 (files g).

(** All redundant members across all groups. *)
Definition redundant (groups : list DuplicateGroup) : list GitHubFile :=
  flat_map deleteCandidates groups.

(** Whether the name has a dot. *)
Fixpoint hasDot (s : string) : bool :=
  match s with
  | EmptyString => false
  | String c r => (Ascii.eqb c "." || hasDot r)%bool
  end.

(** The text after the last dot of a name (all of it when it has none). *)
Fixpoint afterLastDot (s : string) : string :=
  match s with
  | EmptyString => EmptyString
  | String c r =>
      if hasDot r then afterLastDot r
      else if Ascii.eqb c "." then r else String c r
  end.

(** The delete requests of a trace, in order. *)
Definition requests (t : list Event) : list (string * string) :=
  flat_map (fun ev => match ev with
                      | DeleteRequest p s => [(p, s)]
                      | _ => []
                      end) t.

(** The warnings of a trace, in order. *)
Definition warnings (t : list Event) : list string :=
  flat_map (fun ev => match ev with
                      | ConsoleWarn s => [s]
                      | _ => []
                      end) t.

(** The selected paths whose content identifier is found in the groups,
    each with it. *)
Definition resolvable (groups : list DuplicateGroup) (paths : list string)
  : list (string * string) :=
  flat_map (fun p => match lookupSha groups p with
                     | Some (String c r) => [(p, String c r)]
                     | _ => []
                     end) paths.

(** An entry of the [Map] with more than one record. *)
Definition populous (entry : option string * list GitHubFile) : bool :=
  (1 <? List.length (snd entry))%nat.

Section Order.
Variable localeCompare : string -> string -> Z.

(** The group made of an entry of the [Map]. *)
Definition groupOf (entry : option string * list GitHubFile) : DuplicateGroup :=
  {| sha := fst entry; files := sort (compareFiles localeCompare) (snd entry) |}.

(** Ascending name length, then ascending in the collation of the host. *)
Definition nameOrder (a b : GitHubFile) : Prop :=
  String.length (name a) < String.length (name b)
  \/ (String.length (name a) = String.length (name b)
      /\ (localeCompare (name a) (name b) <= 0)%Z).

(** Grouping as the specification words it: hash to members in encounter
    order, groups of more than one member, each sorted. *)
Definition duplicateGroups (files : list GitHubFile) : list DuplicateGroup :=
  map (fun k => {| sha := k;
                   files := sort (compareFiles localeCompare) (membersOf k files) |})
      (filter (fun k => (1 <? List.length (membersOf k files))%nat)
              (firstSeen (map GitHub.sha files))).

End Order.

(** Two elements a comparator does not tell apart. *)
Definition tied {A : Type} (cmp : A -> A -> Z) (x y : A) : bool :=
  ((cmp x y <=? 0)%Z && (cmp y x <=? 0)%Z)%bool.

(** What the language asks of [sort]: a sorted permutation that keeps the
    order of the elements the comparator does not tell apart. *)
Definition stableSorted {A : Type} (cmp : A -> A -> Z) (l l' : list A) : Prop :=
  StronglySorted (fun a b => (cmp a b <= 0)%Z) l'
  /\ forall x, filter (tied cmp x) l' = filter (tied cmp x) l.

(** The guard of [handleScan] lets the scan run. *)
Definition scanRuns (st : State) : Prop :=
  truthy (Some (trim (token st))) = true /\ parseRepo (repoStr st) <> None.

(** The completions of the calls of [deleteFileFromGitHub] made for a
    sequence of requests, the first of them being call number [n]. *)
Fixpoint outcomesFrom (deleteFile : nat -> string -> string -> completion unit)
  (n : nat) (reqs : list (string * string)) : list (completion unit) :=
  match reqs with
  | [] => []
  | (p, s) :: r => deleteFile n p s :: outcomesFrom deleteFile (S n) r
  end.

Definition succeeded (c : completion unit) : bool :=
  match c with
  | Normal _ => true
  | Throw _ => false
  end.

Definition failed (c : completion unit) : bool := negb (succeeded c).

(** The message kept from the last failure, [start] when there is none. *)
Definition lastFailure (start : string) (outs : list (completion unit)) : string :=
  fold_left (fun acc c => match c with
                          | Normal _ => acc
                          | Throw e => classify e
                          end) outs start.

(** The progress line shown before a request, and the warning logged for a
    path without content identifier. *)
Definition statusLine (total : nat) (b : Batch) (p : string) : Event :=
  StatusShown ("Deleting " ++ showNat (deletedCount b + 1) ++ "/"
               ++ showNat total ++ ": " ++ show (pop (split "/" p)) ++ "...")%string.

Definition warning (p : string) : string := ("Could not find SHA for " ++ p)%string.

End Spec.

Module SceneSpec.
Import Js Babylon BabylonScene.

(** The camera and the light the component adds, and the marker of a
    failed program. *)
Definition fixedCamera (n : string) : Camera :=
  {| cameraName := n; position := fallbackPosition; target := Zero;
     controlsAttached := false |}.

Definition fallbackLight : Light :=
  {| lightName := "fallbackLight"; direction := up |}.

Definition errorBox : Mesh :=
  {| meshName := "ErrorBox";
     material := Some {| materialName := "errMat";
                         diffuseColor := Some (1, 0, 0)%Z |} |}.

End SceneSpec.

(* ===================================================================== *)
(** ** Concrete inputs                                                    *)
(* ===================================================================== *)

Module Sample.
Import Js GitHub Cleanup Babylon BabylonScene.

(** A collation to compute with: the order of the code units. *)
Definition codeUnitCompare (a b : string) : Z :=
  match String.compare a b with
  | Eq => 0
  | Lt => -1
  | Gt => 1
  end.

Definition file (n : string) (h : option string) : GitHubFile :=
  {| name := n; type := "file"; download_url := ("https://raw/" ++ n)%string;
     GitHub.sha := h; path := ("lumina-exports/" ++ n)%string |}.

Definition idle (groups : list DuplicateGroup) (sel : StringSet) : State :=
  {| token := "ghp_x"; repoStr := "jaymacmac/pics"; folderPath := "lumina-exports";
     isScanning := false; duplicates := groups; selectedToDelete := sel;
     status := None; isDeleting := false; showConfirm := true |}.

Definition listing (items : list GitHubFile) : completion Response :=
  Normal {| ok := true; statusText := "OK"; json := Normal (JArray items) |}.

(** The second request fails, every other one succeeds. *)
Definition secondFails (n : nat) (p s : string) : completion unit :=
  if (n =? 1)%nat then Throw (newError "Server Error") else Normal tt.

Definition allSucceed (n : nat) (p s : string) : completion unit := Normal tt.

Definition threeOfAKind : list GitHubFile :=
  [file "img.png" (Some "h1"); file "image.png" (Some "h1");
   file "a.png" (Some "h1")].

Definition twoPairs : list GitHubFile :=
  [file "bbb.png" (Some "h1"); file "c.png" (Some "h2");
   file "aaa.png" (Some "h1"); file "dd.png" (Some "h2");
   file "solo.png" (Some "h3")].

(** Two records without a hash. *)
Definition hashless : list GitHubFile :=
  [file "a.png" None; file "bb.png" None].

(** A program that throws at once, and one that throws after making a
    mesh. *)
Definition throwsAtOnce : Program :=
  fun s => (s, Throws (ThrownValue (newError "boom"))).

Definition meshThenThrow : Program :=
  fun s => ({| activeCamera := activeCamera s; cameras := cameras s;
               lights := lights s;
               meshes := meshes s ++ [{| meshName := "sphere"; material := None |}];
               materials := materials s |},
            Throws (ThrownValue (newError "boom"))).

Definition emptyProgram : Program := fun s => (s, Returns).

(** [throw null;] *)
Definition throwsNull : Program := fun s => (s, Throws ThrownNullish).

Definition ready : Refs :=
  {| engineRef := true; sceneRef := Some newScene; disposed := [] |}.

(** The state after a scan of [threeOfAKind] in which the user has also
    selected the keep member, and the confirmation is on screen. *)
Definition oneGroup : list DuplicateGroup :=
  [{| Cleanup.sha := Some "h1";
      files := [file "a.png" (Some "h1"); file "img.png" (Some "h1");
                file "image.png" (Some "h1")] |}].

Definition threePaths : StringSet :=
  ["lumina-exports/img.png"; "lumina-exports/image.png"; "lumina-exports/a.png"].

Definition confirmed : State := idle oneGroup threePaths.

(** A selection with a path that no group knows. *)
Definition withGhost : StringSet :=
  ["lumina-exports/img.png"; "lumina-exports/ghost.png"; "lumina-exports/a.png"].

End Sample.


(* ===================================================================== *)
(** ** More of the host language: text                                    *)
(* ===================================================================== *)

Module JsText.
Import Js.

(** Whether the code unit [c] occurs in [s]. *)
Fixpoint hasChar (c : ascii) (s : string) : bool :=
  match s with
  | EmptyString => false
  | String x r => (Ascii.eqb x c || hasChar c r)%bool
  end.

(** How often the code unit [c] occurs in [s]. *)
Fixpoint occurrences (c : ascii) (s : string) : nat :=
  match s with
  | EmptyString => 0
  | String x r => (if Ascii.eqb x c then 1 else 0) + occurrences c r
  end.

(** [s.slice(n)] for a string. *)
Fixpoint drop (n : nat) (s : string) : string :=
  match n, s with
  | 0, _ => s
  | S m, String _ r => drop m r
  | S _, EmptyString => EmptyString
  end.

(** [s.replace(pat, rep)] with a string pattern: the first occurrence only.
    The replacements of the sources hold no dollar sign, so they are taken
    literally. *)
Fixpoint replaceFirst (pat rep s : string) : string :=
  if String.prefix pat s then (rep ++ drop (String.length pat) s)%string
  else match s with
       | EmptyString => EmptyString
       | String c r => String c (replaceFirst pat rep r)
       end.

(** [arr.filter(Boolean)] on strings: the empty ones go. *)
Definition filterBoolean (l : list string) : list string :=
  filter (fun s => truthy (Some s)) l.

(** [arr.join(sep)] *)
Definition join (sep : string) (l : list string) : string := String.concat sep l.

(** The characters [encodeURIComponent] leaves alone. *)
Definition isUnreserved (c : ascii) : bool :=
  let n := nat_of_ascii c in
  (((65 <=? n)%nat && (n <=? 90)%nat)
   || ((97 <=? n)%nat && (n <=? 122)%nat)
   || ((48 <=? n)%nat && (n <=? 57)%nat)
   || existsb (Nat.eqb n) [45; 95; 46; 33; 126; 42; 39; 40; 41])%bool.

Definition hexDigit (n : nat) : ascii :=
  nth n ["0"; "1"; "2"; "3"; "4"; "5"; "6"; "7"; "8"; "9";
         "A"; "B"; "C"; "D"; "E"; "F"]%char "0"%char.

(** One escaped octet. *)
Definition percent (octet : nat) : string :=
  String "%" (String (hexDigit (octet / 16)) (String (hexDigit (octet mod 16)) "")).

(** The escape of one code unit below 256: itself when unreserved, else the
    octets of its UTF-8 form (one below 128, two from 128 on). *)
Definition encodeUnit (c : ascii) : string :=
  let n := nat_of_ascii c in
  if isUnreserved c then String c ""
  else if (n <? 128)%nat then percent n
       else (percent (192 + n / 64) ++ percent (128 + n mod 64))%string.

(** [encodeURIComponent(s)] *)
Fixpoint encodeURIComponent (s : string) : string :=
  match s with
  | EmptyString => EmptyString
  | String c r => (encodeUnit c ++ encodeURIComponent r)%string
  end.

(** Every code unit of [s] passes the test. *)
Fixpoint allChars (test : ascii -> bool) (s : string) : bool :=
  match s with
  | EmptyString => true
  | String c r => (test c && allChars test r)%bool
  end.

End JsText.

(* ===================================================================== *)
(** ** services/githubService, the rest                                   *)
(* ===================================================================== *)

Module GitHubService.
Import Js JsText GitHub.

Definition isGitHubUrl (url : string) : bool := includes url "github.com".

(** What the contents request of [getImagesFromGitHub] may answer: a
    directory listing, the object of a single file, [null], or something
    else without a [type]. *)
Inductive Contents :=
| CArray (items : list GitHubFile)
| CFile (data : GitHubFile)
| CNull
| COther.

Record ContentsResponse := {
  cok : bool;
  cjson : completion Contents
}.

(** The raw-content address made from a page address. *)
Definition rawUrl (url : string) : string :=
  replaceFirst "/blob/" "/"
    (replaceFirst "github.com" "raw.githubusercontent.com" url).

(** What the [catch] clause returns. *)
Definition blobFallback (url : string) : list string :=
  if includes url "/blob/" then [rawUrl url] else [].

(** [apiUrl], from the non-empty parts of the path name (two at least). *)
Definition contentsApiUrl (pathParts : list string) : string :=
  let owner := nth 0 pathParts "" in
  let repo := nth 1 pathParts "" in
  let isTree := match nth_error pathParts 2 with
                | Some part => String.eqb part "tree"
                | None => false
                end in
  let ref := if isTree then nth_error pathParts 3 else Some "" in
  let path := if isTree then join "/" (skipn 4 pathParts) else "" in
  let apiUrl := ("https://api.github.com/repos/" ++ owner ++ "/" ++ repo
                 ++ "/contents/" ++ path)%string in
  if truthy ref then (apiUrl ++ "?ref=" ++ show ref)%string else apiUrl.

(** [getImagesFromGitHub].  [pathname] is what [new URL(url).pathname]
    gave, or the error the constructor threw; [fetch] answers a request by
    its address.  The function never rejects: its [catch] returns. *)
Definition getImagesFromGitHub (url : string) (pathname : completion string)
  (fetch : string -> completion ContentsResponse) : list string :=
  match pathname with
  | Throw _ => blobFallback url
  | Normal pn =>
      let pathParts := filterBoolean (split "/" pn) in
      if (List.length pathParts <? 2)%nat then []
      else
        match fetch (contentsApiUrl pathParts) with
        | Throw _ => blobFallback url
        | Normal response =>
            if negb (cok response) then
              if includes url "/blob/" then [rawUrl url]
              else blobFallback url
            else
              match cjson response with
              | Throw _ => blobFallback url
              | Normal CNull => blobFallback url
              | Normal COther => []
              | Normal (CFile data) =>
                  if (String.eqb (type data) "file" && isImageFile (name data))%bool
                  then [download_url data]
                  else []
              | Normal (CArray data) =>
                  map download_url
                    (filter (fun file =>
                               (String.eqb (type file) "file"
                                && isImageFile (name file))%bool) data)
              end
        end
  end.

(** The path of a contents request: each segment escaped, the slashes
    kept. *)
Definition encodePath (path : string) : string :=
  join "/" (map encodeURIComponent (split "/" path)).

(** The address [deleteFileFromGitHub] sends its DELETE to. *)
Definition deleteFileUrl (owner repo path : string) : string :=
  ("https://api.github.com/repos/" ++ owner ++ "/" ++ repo ++ "/contents/"
   ++ encodePath path)%string.

(** The address [uploadImageToGitHub] sends its PUT to. *)
Definition uploadImageUrl (owner repo path fileName : string) : string :=
  let encodedFileName := encodeURIComponent fileName in
  let encodedPath := if truthy (Some path)
                     then (encodePath path ++ "/")%string
                     else "" in
  ("https://api.github.com/repos/" ++ owner ++ "/" ++ repo ++ "/contents/"
   ++ encodedPath ++ encodedFileName)%string.

(** [uploadImageToGitHub], given what [fetch] answered. *)
Definition uploadImageToGitHub (fetched : completion Response)
  : completion unit :=
  match fetched with
  | Throw e => Throw e
  | Normal response =>
      if negb (ok response) then
        match json response with
        | Throw e => Throw e
        | Normal (JObject msg) =>
            Throw (newError (orElse msg "Failed to upload to GitHub"))
        | Normal (JArray _) => Throw (newError "Failed to upload to GitHub")
        end
      else Normal tt
  end.

End GitHubService.

(* ===================================================================== *)
(** ** More vocabulary                                                    *)
(* ===================================================================== *)

Module MoreSpec.
Import Js GitHub Cleanup.

(** A batch run through [deleteFileFromGitHub]: the [n]-th request is
    answered by [net n]. *)
Definition deleteVia (net : nat -> completion Response)
  (n : nat) (p s : string) : completion unit :=
  deleteFileFromGitHub (net n).

(** What the host guarantees of its own errors: the rejection of a request
    and the rejection of the body reader carry a message. *)
Definition hostErrorsCarryMessage (net : nat -> completion Response) : Prop :=
  (forall i e, net i = Throw e -> truthy (message e) = true)
  /\ (forall i response e,
        net i = Normal response -> json response = Throw e ->
        truthy (message e) = true).

(** A remote that refuses the first request as it refuses a token without
    the scope, and cannot be reached afterwards. *)
Definition refusals (n : nat) : completion Response :=
  if (n =? 0)%nat then
    Normal {| ok := false; statusText := "Not Found";
              json := Normal (JObject (Some "Not Found")) |}
  else Throw (newError "Failed to fetch").

(** The request was answered, and with an ok status. *)
Definition accepted (answer : completion Response) : bool :=
  match answer with
  | Normal response => ok response
  | Throw _ => false
  end.

End MoreSpec.

Module ImportSpec.
Import Js JsText GitHub GitHubService.

(** The test of the listing filters: a file with an image extension. *)
Definition isImageEntry (file : GitHubFile) : bool :=
  (String.eqb (type file) "file" && isImageFile (name file))%bool.

(** The ways in which the import fails before it has read a listing: the
    address does not parse, the request is not answered, the status is not
    ok, the body cannot be read, or the body is [null]. *)
Definition importFails (pathname : completion string)
  (fetch : string -> completion ContentsResponse) : Prop :=
  match pathname with
  | Throw _ => True
  | Normal pn =>
      2 <= List.length (filterBoolean (split "/" pn))
      /\ match fetch (contentsApiUrl (filterBoolean (split "/" pn))) with
         | Throw _ => True
         | Normal response =>
             cok response = false
             \/ match cjson response with
                | Throw _ => True
                | Normal CNull => True
                | Normal _ => False
                end
         end
  end.

(** A part of a path name: not empty and without a slash. *)
Definition isPart (s : string) : Prop := s <> "" /\ hasChar "/" s = false.

(** What an escaped component is made of: unreserved characters and the
    percent sign. *)
Definition isEscaped (c : ascii) : bool :=
  (isUnreserved c || Ascii.eqb c "%")%bool.

(** What a plain path is made of: unreserved characters and slashes. *)
Definition isPlain (c : ascii) : bool :=
  (isUnreserved c || Ascii.eqb c "/")%bool.

End ImportSpec.

Module SceneMore.
Import Js Babylon BabylonScene.

(** The effect on [code] fired once for each change of [code], each run
    finished before the next begins; the log lines in the order given. *)
Definition codeChanges (changes : list (string * Program)) (r : Refs)
  : Refs * list Log :=
  fold_left
    (fun acc change =>
       let '(r1, logs) := executeDynamicCode (fst change) (snd change) (fst acc) in
       (r1, snd acc ++ logs))
    changes (r, []).

(** The scene of a ref, as a list. *)
Definition current (r : Refs) : list Scene :=
  match sceneRef r with
  | Some s => [s]
  | None => []
  end.

(** Every scene the component has held, oldest first. *)
Definition history (r : Refs) : list Scene := disposed r ++ current r.

(** The changes of [code] that make the effect run. *)
Definition effective (changes : list (string * Program))
  : list (string * Program) :=
  filter (fun change => truthy (Some (fst change))) changes.

(** The scene a run leaves. *)
Definition sceneOf (change : string * Program) : Scene :=
  fst (settle (snd change newScene)).

(** Two programs to run in a row: one that makes a light and returns, then
    the one that throws at once. *)
Definition lightOnly : Program :=
  fun s => (addHemisphericLight "sun" up s, Returns).

Definition twoChanges : list (string * Program) :=
  [("scene.x = 1;", lightOnly); ("", lightOnly);
   ("throw new Error('boom');",
    fun s => (s, Throws (ThrownValue (newError "boom"))))].

End SceneMore.

(* ===================================================================== *)
(** ** components/ExportModal                                             *)
(* ===================================================================== *)

Module ExportModal.
Import Js JsText.

(** Of an image, what [handleExport] reads. *)
Record ImageItem := {
  title : string;
  url : string;
  base64Data : option string;
  mimeType : option string
}.

(** The state of the modal; [progress], a rounded percentage, is not
    followed. *)
Record State := {
  token : string;
  repoStr : string;
  folderPath : string;
  isUploading : bool;
  logs : list string;
  error : option string;
  success : bool
}.

Definition setError (e : option string) (st : State) : State :=
  {| token := token st; repoStr := repoStr st; folderPath := folderPath st;
     isUploading := isUploading st; logs := logs st; error := e;
     success := success st |}.

Definition setLogs (l : list string) (st : State) : State :=
  {| token := token st; repoStr := repoStr st; folderPath := folderPath st;
     isUploading := isUploading st; logs := l; error := error st;
     success := success st |}.

Definition setSuccess (b : bool) (st : State) : State :=
  {| token := token st; repoStr := repoStr st; folderPath := folderPath st;
     isUploading := isUploading st; logs := logs st; error := error st;
     success := b |}.

Definition setIsUploading (b : bool) (st : State) : State :=
  {| token := token st; repoStr := repoStr st; folderPath := folderPath st;
     isUploading := b; logs := logs st; error := error st;
     success := success st |}.

(** What the batch does to the outside, in order. *)
Inductive Event :=
| ConvertRequest (address : string)
| UploadRequest (owner repo path fileName : string) (content : option string)
| ConsoleError (e : JsError).

(** The local variables of the batch, the log lines set so far (newest
    first) and the trace of the effects. *)
Record Run := {
  successCount : nat;
  failCount : nat;
  usedNames : StringSet;
  logLines : list string;
  trace : list Event
}.

Definition emptyRun : Run :=
  {| successCount := 0; failCount := 0; usedNames := []; logLines := [];
     trace := [] |}.

Definition emit (ev : Event) (r : Run) : Run :=
  {| successCount := successCount r; failCount := failCount r;
     usedNames := usedNames r; logLines := logLines r;
     trace := trace r ++ [ev] |}.

Definition pushLog (line : string) (r : Run) : Run :=
  {| successCount := successCount r; failCount := failCount r;
     usedNames := usedNames r; logLines := line :: logLines r;
     trace := trace r |}.

(** The class [[a-z0-9]] under the flag [i]. *)
Definition isAlnum (c : ascii) : bool :=
  let n := nat_of_ascii c in
  (((48 <=? n)%nat && (n <=? 57)%nat)
   || ((65 <=? n)%nat && (n <=? 90)%nat)
   || ((97 <=? n)%nat && (n <=? 122)%nat))%bool.

(** [s.replace(/[^a-z0-9]/gi, '_')] *)
Fixpoint replaceNonAlnum (s : string) : string :=
  match s with
  | EmptyString => EmptyString
  | String c r => String (if isAlnum c then c else "_"%char) (replaceNonAlnum r)
  end.

Definition safeTitleOf (img : ImageItem) : string :=
  toLowerCase (replaceNonAlnum (title img)).

(** [img.mimeType ? img.mimeType.split('/')[1] : 'png'] *)
Definition extensionOf (img : ImageItem) : option string :=
  if truthy (mimeType img)
  then nth_error (split "/" (show (mimeType img))) 1
  else Some "png".

Definition baseName (safeTitle : string) (extension : option string) : string :=
  (safeTitle ++ "." ++ show extension)%string.

Definition numberedName (safeTitle : string) (extension : option string)
  (counter : nat) : string :=
  (safeTitle ++ "_" ++ showNat counter ++ "." ++ show extension)%string.

(** The [while] loop over [usedNames]: [fileName] and [counter] are its
    variables, [fuel] bounds the number of turns. *)
Fixpoint pickName (fuel : nat) (used : StringSet) (safeTitle : string)
  (extension : option string) (fileName : string) (counter : nat)
  : option string :=
  if set_has fileName used then
    match fuel with
    | O => None
    | S fuel' =>
        pickName fuel' used safeTitle extension
                 (numberedName safeTitle extension counter) (counter + 1)
    end
  else Some fileName.

(** An error the [catch] clause reports as a skip. *)
Definition isSkip (e : JsError) : bool :=
  let msg := orElse (message e) "" in
  (includes msg "sha" || includes msg "422")%bool.

(** The [catch] clause of the loop body. *)
Definition caught (img : ImageItem) (err : JsError) (r : Run) : Run :=
  let r1 := emit (ConsoleError err) r in
  let msg := orElse (message err) "" in
  if (includes msg "sha" || includes msg "422")%bool then
    pushLog ("Skipped: " ++ title img ++ " (Already exists)")%string r1
  else
    pushLog ("Failed: " ++ title img ++ " - " ++ msg)%string
      {| successCount := successCount r1; failCount := failCount r1 + 1;
         usedNames := usedNames r1; logLines := logLines r1;
         trace := trace r1 |}.

(** One turn of the loop over [images], for the image at index [i].
    [convert i address] is the completion of [convertUrlToBase64Simple] and
    [upload i fileName content] that of [uploadImageToGitHub] in this turn.
    [None] when the name loop did not end within its bound. *)
Definition exportStep
  (convert : nat -> string -> completion (option string))
  (upload : nat -> string -> option string -> completion unit)
  (owner repo folder : string) (total : nat)
  (i : nat) (img : ImageItem) (r : Run) : option Run :=
  let r0 :=
    {| successCount := successCount r; failCount := failCount r;
       usedNames := usedNames r;
       logLines := ("Processing " ++ showNat (i + 1) ++ "/" ++ showNat total
                    ++ ": " ++ title img ++ "...")%string
                   :: firstn 4 (logLines r);
       trace := trace r |} in
  let '(content, r1) :=
    if truthy (base64Data img) then (Normal (base64Data img), r0)
    else (convert i (url img), emit (ConvertRequest (url img)) r0) in
  match content with
  | Throw err => Some (caught img err r1)
  | Normal content =>
      let extension := extensionOf img in
      let safeTitle := safeTitleOf img in
      match pickName (List.length (usedNames r1)) (usedNames r1) safeTitle
                     extension (baseName safeTitle extension) 1 with
      | None => None
      | Some fileName =>
          let r2 :=
            {| successCount := successCount r1; failCount := failCount r1;
               usedNames := set_add fileName (usedNames r1);
               logLines := logLines r1; trace := trace r1 |} in
          let r3 := emit (UploadRequest owner repo folder fileName content) r2 in
          match upload i fileName content with
          | Normal _ =>
              Some {| successCount := successCount r3 + 1;
                      failCount := failCount r3; usedNames := usedNames r3;
                      logLines := logLines r3; trace := trace r3 |}
          | Throw err => Some (caught img err r3)
          end
      end
  end.

(** The loop over [images], from index [i]. *)
Fixpoint exportLoop
  (convert : nat -> string -> completion (option string))
  (upload : nat -> string -> option string -> completion unit)
  (owner repo folder : string) (total : nat)
  (i : nat) (images : list ImageItem) (r : Run) : option Run :=
  match images with
  | [] => Some r
  | img :: rest =>
      match exportStep convert upload owner repo folder total i img r with
      | Some r1 =>
          exportLoop convert upload owner repo folder total (i + 1) rest r1
      | None => None
      end
  end.

Definition doneLine (r : Run) : string :=
  ("DONE! Uploaded: " ++ showNat (successCount r) ++ ", Failed/Skipped: "
   ++ showNat (failCount r))%string.

(** What [handleExport] leaves behind: the state, and the batch when one
    was run. *)
Record Outcome := {
  state : State;
  run : option Run
}.

Definition refuse (msg : string) (st : State) : Outcome :=
  {| state := setError (Some msg) st; run := None |}.

(** [handleExport].  The outer [catch] clause is not reached: the loop body
    catches what the conversion and the upload throw. *)
Definition handleExport
  (convert : nat -> string -> completion (option string))
  (upload : nat -> string -> option string -> completion unit)
  (images : list ImageItem) (st : State) : option Outcome :=
  let st0 := setSuccess false (setLogs [] (setError None st)) in
  if negb (truthy (Some (trim (token st)))) then
    Some (refuse "Personal Access Token is required." st0)
  else
    match split "/" (repoStr st) with
    | [owner; repo] =>
        if (negb (truthy (Some owner)) || negb (truthy (Some repo)))%bool then
          Some (refuse "Repository must be in 'username/repo' format." st0)
        else
          let st1 := setIsUploading true st0 in
          match exportLoop convert upload owner repo (folderPath st)
                           (List.length images) 0 images emptyRun with
          | None => None
          | Some r =>
              Some {| state := setIsUploading false
                                 (setLogs (doneLine r :: logLines r)
                                    (setSuccess true st1));
                      run := Some r |}
          end
    | _ => Some (refuse "Repository must be in 'username/repo' format." st0)
    end.

End ExportModal.

Module ExportSpec.
Import Js JsText ExportModal.

(** The file names of the upload requests of a trace, in order. *)
Definition uploadNames (events : list Event) : list string :=
  flat_map (fun ev => match ev with
                      | UploadRequest _ _ _ fileName _ => [fileName]
                      | _ => []
                      end) events.

(** The errors written to the console, in order. *)
Definition consoleErrors (events : list Event) : list JsError :=
  flat_map (fun ev => match ev with
                      | ConsoleError e => [e]
                      | _ => []
                      end) events.

(** Where the upload requests of a trace went. *)
Definition uploadTargets (events : list Event) : list (string * string * string) :=
  flat_map (fun ev => match ev with
                      | UploadRequest owner repo path _ _ => [(owner, repo, path)]
                      | _ => []
                      end) events.

(** The characters of a safe title. *)
Definition isSafe (c : ascii) : bool :=
  let n := nat_of_ascii c in
  (((48 <=? n)%nat && (n <=? 57)%nat)
   || ((97 <=? n)%nat && (n <=? 122)%nat)
   || (n =? 95)%nat)%bool.

Definition isDigit (c : ascii) : bool :=
  let n := nat_of_ascii c in ((48 <=? n)%nat && (n <=? 57)%nat)%bool.

(** A name the batch may give to an image. *)
Definition nameFor (img : ImageItem) (fileName : string) : Prop :=
  fileName = baseName (safeTitleOf img) (extensionOf img)
  \/ exists counter,
       1 <= counter
       /\ fileName = numberedName (safeTitleOf img) (extensionOf img) counter.

(** What holds of the batch after [done] images: the reserved names are
    the names of the upload requests, none twice; every image so far was
    uploaded or its error written to the console; [failCount] counts the
    errors that are not skips; the log is short; the requests went to
    [target] under names made for images of the batch. *)
Record Invariant (target : string * string * string)
  (images : list ImageItem) (done logBound : nat) (r : Run) : Prop := {
  inv_used : usedNames r = uploadNames (trace r);
  inv_nodup : NoDup (usedNames r);
  inv_sum : successCount r + List.length (consoleErrors (trace r)) = done;
  inv_fail : failCount r
             = List.length (filter (fun e => negb (isSkip e))
                                   (consoleErrors (trace r)));
  inv_logs : List.length (logLines r) <= logBound;
  inv_targets : Forall (eq target) (uploadTargets (trace r));
  inv_names : Forall (fun fileName =>
                        exists img, In img images /\ nameFor img fileName)
                     (uploadNames (trace r))
}.

(** The state once the form has been cleared for a new attempt. *)
Definition cleared (st : State) : State :=
  setSuccess false (setLogs [] (setError None st)).

(** The two parts of the repository text, when it has the form the export
    asks for. *)
Definition repoParts (st : State) : option (string * string) :=
  match split "/" (repoStr st) with
  | [owner; repo] =>
      if (negb (truthy (Some owner)) || negb (truthy (Some repo)))%bool
      then None
      else Some (owner, repo)
  | _ => None
  end.

(** The state a finished batch leaves. *)
Definition finished (r : Run) (st : State) : State :=
  setIsUploading false
    (setLogs (doneLine r :: logLines r)
       (setSuccess true (setIsUploading true (cleared st)))).

(** A form ready to export. *)
Definition form : State :=
  {| token := "ghp_x"; repoStr := "jaymacmac/pics";
     folderPath := "lumina-exports"; isUploading := false; logs := ["old"];
     error := Some "old"; success := true |}.

Definition picture (t : string) : ImageItem :=
  {| title := t; url := "https://x/y.png"; base64Data := Some "QUJD";
     mimeType := Some "image/jpeg" |}.

(** Three images, two with titles that make the same safe title, and one
    whose content has to be fetched. *)
Definition album : list ImageItem :=
  [picture "My Cat"; picture "my cat";
   {| title := "my-cat"; url := "https://x/z.png"; base64Data := None;
      mimeType := None |};
   picture "my_cat"].

Definition converts (i : nat) (address : string) : completion (option string) :=
  Normal (Some "QUJD").

(** The remote has the second file already and refuses the fourth. *)
Definition answers (i : nat) (fileName : string) (content : option string)
  : completion unit :=
  if (i =? 1)%nat then Throw (newError "Invalid request. sha wasn't supplied.")
  else if (i =? 3)%nat then Throw (newError "Bad credentials")
  else Normal tt.

End ExportSpec.

(* ===================================================================== *)
(** ** components/AddUrlModal                                             *)
(* ===================================================================== *)

Module AddUrlModal.
Import Js JsText GitHub GitHubService.

Record State := {
  url : string;
  isLoading : bool;
  statusMessage : option string;
  isGithub : bool
}.

Definition setUrl (u : string) (st : State) : State :=
  {| url := u; isLoading := isLoading st; statusMessage := statusMessage st;
     isGithub := isGithub st |}.

Definition setIsLoading (b : bool) (st : State) : State :=
  {| url := url st; isLoading := b; statusMessage := statusMessage st;
     isGithub := isGithub st |}.

Definition setStatusMessage (m : option string) (st : State) : State :=
  {| url := url st; isLoading := isLoading st; statusMessage := m;
     isGithub := isGithub st |}.

Definition setIsGithub (b : bool) (st : State) : State :=
  {| url := url st; isLoading := isLoading st; statusMessage := statusMessage st;
     isGithub := b |}.

(** The effect on [url]. *)
Definition urlEffect (st : State) : State :=
  setStatusMessage None (setIsGithub (isGitHubUrl (url st)) st).

(** What [handleSubmit] leaves behind: the state, the lists handed to
    [onAdd], whether [onClose] was called, and whether the timer that
    closes the modal was set. *)
Record Outcome := {
  state : State;
  added : list (list string);
  closed : bool;
  timerSet : bool
}.

(** [handleSubmit].  [images] is what [getImagesFromGitHub(url)] resolves
    to; it is asked for only in the GitHub branch.  Neither that call nor
    [onAdd] throws, so the [catch] clause is not reached. *)
Definition handleSubmit (images : list string) (st : State) : Outcome :=
  if negb (truthy (Some (trim (url st)))) then
    {| state := st; added := []; closed := false; timerSet := false |}
  else
    let st1 := setStatusMessage None (setIsLoading true st) in
    if isGithub st then
      let st2 :=
        setStatusMessage (Some "Scanning GitHub repository for images...") st1 in
      if (List.length images =? 0)%nat then
        {| state := setIsLoading false
                      (setStatusMessage
                         (Some "No images found in this location.") st2);
           added := []; closed := false; timerSet := false |}
      else
        {| state := setStatusMessage
                      (Some ("Found and added " ++ showNat (List.length images)
                             ++ " images!")%string) st2;
           added := [images]; closed := false; timerSet := true |}
    else
      {| state := setIsLoading false (setUrl "" st1);
         added := [[trim (url st)]]; closed := true; timerSet := false |}.

(** The timer set by [handleSubmit] fires. *)
Definition afterDelay (o : Outcome) : Outcome :=
  if timerSet o then
    {| state := setIsLoading false (setStatusMessage None (setUrl "" (state o)));
       added := added o; closed := true; timerSet := false |}
  else o.

(** The form after the user has typed [u]: the effect on [url] has run. *)
Definition typed (u : string) : State :=
  urlEffect {| url := u; isLoading := false; statusMessage := None;
               isGithub := false |}.

End AddUrlModal.

(* ===================================================================== *)
(** ** Facts about the host-language models                               *)
(* ===================================================================== *)

Module JsFacts.
Import Js Spec.

Lemma fold_left_snoc {A B : Type} (f : A -> B -> A) (l : list B) (x : B) (a : A) :
  fold_left f (l ++ [x]) a = f (fold_left f l a) x.
Proof. now rewrite fold_left_app. Qed.

(** *** [Set] *)

Lemma set_has_In (x : string) (s : StringSet) : set_has x s = true <-> In x s.
Proof.
  unfold set_has. rewrite existsb_exists. split.
  - intros [y [Hy He]]. apply String.eqb_eq in He. now subst.
  - intros H. exists x. split; [assumption | apply String.eqb_refl].
Qed.

Lemma set_add_In (x y : string) (s : StringSet) :
  In y (set_add x s) <-> y = x \/ In y s.
Proof.
  unfold set_add. destruct (set_has x s) eqn:E.
  - apply set_has_In in E. split; [auto | intros [-> | H]; assumption].
  - rewrite in_app_iff. simpl. intuition congruence.
Qed.

Lemma set_add_NoDup (x : string) (s : StringSet) : NoDup s -> NoDup (set_add x s).
Proof.
  intros H. unfold set_add. destruct (set_has x s) eqn:E; [assumption |].
  assert (Hx : ~ In x s).
  { intros Hin. apply set_has_In in Hin. congruence. }
  clear E. induction H as [| a l Ha Hl IH]; simpl.
  - constructor; [intros [] | constructor].
  - constructor.
    + rewrite in_app_iff. simpl. intros [H1 | [H1 | []]].
      * contradiction.
      * subst. apply Hx. now left.
    + apply IH. intros H1. apply Hx. now right.
Qed.

Lemma add_all_In {A : Type} (f : A -> string) (l : list A) (s : StringSet) (y : string) :
  In y (fold_left (fun s a => set_add (f a) s) l s) <-> In y s \/ In y (map f l).
Proof.
  revert s. induction l as [| a l IH]; intros s; simpl.
  - tauto.
  - rewrite IH, set_add_In. intuition.
Qed.

Lemma add_all_NoDup {A : Type} (f : A -> string) (l : list A) (s : StringSet) :
  NoDup s -> NoDup (fold_left (fun s a => set_add (f a) s) l s).
Proof.
  revert s. induction l as [| a l IH]; intros s H; simpl; [assumption |].
  apply IH. now apply set_add_NoDup.
Qed.

(** *** [sort] *)

Section SortFacts.
Context {A : Type} (cmp : A -> A -> Z).

Lemma insert_perm (x : A) (l : list A) : Permutation (insert cmp x l) (x :: l).
Proof.
  induction l as [| y r IH]; simpl.
  - reflexivity.
  - destruct (cmp x y <=? 0)%Z.
    + reflexivity.
    + rewrite IH. apply perm_swap.
Qed.

Lemma sort_perm (l : list A) : Permutation (sort cmp l) l.
Proof.
  induction l as [| x r IH]; simpl.
  - reflexivity.
  - rewrite insert_perm. now constructor.
Qed.

Lemma sort_length (l : list A) : List.length (sort cmp l) = List.length l.
Proof. apply Permutation_length, sort_perm. Qed.

Lemma sort_In (l : list A) (x : A) : In x (sort cmp l) <-> In x l.
Proof.
  split; apply Permutation_in; [| symmetry]; apply sort_perm.
Qed.

(** A consistent comparator: a total preorder. *)
Hypothesis cmp_total : forall a b, (cmp a b <= 0 \/ cmp b a <= 0)%Z.
Hypothesis cmp_trans : forall a b c, (cmp a b <= 0 -> cmp b c <= 0 -> cmp a c <= 0)%Z.

Lemma tied_refl (x : A) : tied cmp x x = true.
Proof.
  unfold tied. destruct (cmp_total x x) as [H | H];
    apply Z.leb_le in H; now rewrite H.
Qed.

Lemma insert_sorted (x : A) (l : list A) :
  StronglySorted (fun a b => (cmp a b <= 0)%Z) l ->
  StronglySorted (fun a b => (cmp a b <= 0)%Z) (insert cmp x l).
Proof.
  induction 1 as [| y r Hr IH Hy]; simpl.
  - constructor; constructor.
  - destruct (cmp x y <=? 0)%Z eqn:E.
    + apply Z.leb_le in E. constructor.
      * now constructor.
      * constructor; [assumption |].
        rewrite Forall_forall in *. intros z Hz. eauto.
    + apply Z.leb_gt in E. constructor; [assumption |].
      rewrite Forall_forall in *. intros z Hz.
      apply (Permutation_in _ (insert_perm x r)) in Hz.
      destruct Hz as [<- | Hz].
      * destruct (cmp_total x y); lia.
      * auto.
Qed.

Lemma sort_sorted (l : list A) :
  StronglySorted (fun a b => (cmp a b <= 0)%Z) (sort cmp l).
Proof.
  induction l as [| x r IH]; simpl.
  - constructor.
  - now apply insert_sorted.
Qed.

Lemma insert_filter (p : A -> bool) (x : A) (l : list A) :
  (forall y, (0 < cmp x y)%Z -> p x = true -> p y = false) ->
  filter p (insert cmp x l) = filter p (x :: l).
Proof.
  intros Hp. induction l as [| y r IH]; simpl.
  - reflexivity.
  - destruct (cmp x y <=? 0)%Z eqn:E.
    + reflexivity.
    + apply Z.leb_gt in E. simpl in *. rewrite IH.
      destruct (p x) eqn:Px.
      * now rewrite (Hp y E eq_refl).
      * reflexivity.
Qed.

Lemma sort_stable (z : A) (l : list A) :
  filter (tied cmp z) (sort cmp l) = filter (tied cmp z) l.
Proof.
  induction l as [| x r IH]; simpl.
  - reflexivity.
  - rewrite insert_filter.
    + simpl. now rewrite IH.
    + intros y Hxy Hx. unfold tied in *.
      apply andb_true_iff in Hx. destruct Hx as [Hzx Hxz].
      apply Z.leb_le in Hzx, Hxz.
      destruct (cmp z y <=? 0)%Z eqn:E; [| reflexivity].
      apply Z.leb_le in E. pose proof (cmp_trans _ _ _ Hxz E). lia.
Qed.

Lemma sort_stableSorted (l : list A) : stableSorted cmp l (sort cmp l).
Proof.
  split; [apply sort_sorted | intros x; apply sort_stable].
Qed.

Lemma sorted_tied_unique (l1 l2 : list A) :
  StronglySorted (fun a b => (cmp a b <= 0)%Z) l1 ->
  StronglySorted (fun a b => (cmp a b <= 0)%Z) l2 ->
  (forall x, filter (tied cmp x) l1 = filter (tied cmp x) l2) ->
  l1 = l2.
Proof.
  intros H1. revert l2.
  induction H1 as [| a t1 Ht1 IH Ha]; intros l2 H2 Hf.
  - destruct l2 as [| b t2]; [reflexivity |].
    specialize (Hf b). simpl in Hf. rewrite tied_refl in Hf. discriminate.
  - destruct l2 as [| b t2].
    { specialize (Hf a). simpl in Hf. rewrite tied_refl in Hf. discriminate. }
    inversion H2 as [| ? ? Ht2 Hb]; subst.
    assert (Hab : a = b).
    { pose proof (Hf a) as Fa. pose proof (Hf b) as Fb. simpl in Fa, Fb.
      rewrite tied_refl in Fa, Fb.
      destruct (tied cmp a b) eqn:Tab.
      - now injection Fa.
      - assert (Ia : In a (filter (tied cmp a) t2)) by (rewrite <- Fa; now left).
        apply filter_In in Ia. destruct Ia as [Ia _].
        destruct (tied cmp b a) eqn:Tba.
        + now injection Fb.
        + assert (Ib : In b (filter (tied cmp b) t1)) by (rewrite Fb; now left).
          apply filter_In in Ib. destruct Ib as [Ib _].
          rewrite Forall_forall in Ha, Hb.
          pose proof (Ha _ Ib) as L1. pose proof (Hb _ Ia) as L2.
          unfold tied in Tab. apply Z.leb_le in L1, L2.
          rewrite L1, L2 in Tab. discriminate. }
    subst b. f_equal. apply IH; [assumption |].
    intros x. specialize (Hf x). simpl in Hf.
    destruct (tied cmp x a); [now injection Hf | assumption].
Qed.

(** Whatever algorithm the host uses, [sort] returns this list. *)
Lemma stableSorted_unique (l l' : list A) :
  stableSorted cmp l l' -> l' = sort cmp l.
Proof.
  intros [Hs Hf]. apply sorted_tied_unique; [assumption | apply sort_sorted |].
  intros x. now rewrite Hf, sort_stable.
Qed.

End SortFacts.

End JsFacts.

(* ===================================================================== *)
(** ** The duplicate detector                                             *)
(* ===================================================================== *)

Module GroupingFacts.
Import Js GitHub Cleanup Spec JsFacts.

Lemma sameValueZero_eq (a b : option string) : sameValueZero a b = true <-> a = b.
Proof.
  destruct a as [x |], b as [y |]; simpl; try (split; congruence).
  rewrite String.eqb_eq. split; congruence.
Qed.

Lemma sameValueZero_refl (a : option string) : sameValueZero a a = true.
Proof. now apply sameValueZero_eq. Qed.

Lemma sameValueZero_neq (a b : option string) : sameValueZero a b = false <-> a <> b.
Proof.
  rewrite <- sameValueZero_eq. destruct (sameValueZero a b); split; congruence.
Qed.

Lemma seen_In (k : option string) (ks : list (option string)) :
  existsb (sameValueZero k) ks = true <-> In k ks.
Proof.
  rewrite existsb_exists. split.
  - intros [y [Hy He]]. apply sameValueZero_eq in He. now subst.
  - intros H. exists k. split; [assumption | apply sameValueZero_refl].
Qed.

Lemma firstSeen_snoc (ks : list (option string)) (k : option string) :
  firstSeen (ks ++ [k]) =
  if existsb (sameValueZero k) (firstSeen ks) then firstSeen ks
  else firstSeen ks ++ [k].
Proof. unfold firstSeen. now rewrite fold_left_snoc. Qed.

Lemma firstSeen_In (ks : list (option string)) (k : option string) :
  In k (firstSeen ks) <-> In k ks.
Proof.
  induction ks as [| a r IH] using rev_ind.
  - reflexivity.
  - rewrite firstSeen_snoc, in_app_iff. simpl.
    destruct (existsb (sameValueZero a) (firstSeen r)) eqn:E.
    + apply seen_In in E. rewrite IH in *. intuition (subst; auto).
    + rewrite in_app_iff, IH. reflexivity.
Qed.

Lemma firstSeen_NoDup (ks : list (option string)) : NoDup (firstSeen ks).
Proof.
  induction ks as [| a r IH] using rev_ind.
  - constructor.
  - rewrite firstSeen_snoc.
    destruct (existsb (sameValueZero a) (firstSeen r)) eqn:E; [assumption |].
    assert (Ha : ~ In a (firstSeen r)).
    { intros H. apply seen_In in H. congruence. }
    apply NoDup_rev in IH. rewrite <- (rev_involutive (firstSeen r ++ [a])).
    apply NoDup_rev. rewrite rev_app_distr. simpl. constructor.
    + now rewrite <- in_rev.
    + assumption.
Qed.

Lemma membersOf_snoc (k : option string) (pre : list GitHubFile) (f : GitHubFile) :
  membersOf k (pre ++ [f]) =
  membersOf k pre ++ (if sameValueZero (GitHub.sha f) k then [f] else []).
Proof. unfold membersOf. rewrite filter_app. reflexivity. Qed.

Lemma membersOf_In (k : option string) (l : list GitHubFile) (f : GitHubFile) :
  In f (membersOf k l) <-> In f l /\ GitHub.sha f = k.
Proof. unfold membersOf. now rewrite filter_In, sameValueZero_eq. Qed.

Lemma membersOf_unseen (k : option string) (l : list GitHubFile) :
  ~ In k (map GitHub.sha l) -> membersOf k l = [].
Proof.
  intros H. destruct (membersOf k l) as [| f r] eqn:E; [reflexivity |].
  exfalso. apply H. assert (Hf : In f (membersOf k l)) by (rewrite E; now left).
  apply membersOf_In in Hf. destruct Hf as [Hf <-]. now apply in_map.
Qed.

Section Keyed.
Context {V : Type}.

Lemma map_get_keyed (G : option string -> V) (k : option string) ks :
  map_get sameValueZero k (map (fun k' => (k', G k')) ks) =
  if existsb (sameValueZero k) ks then Some (G k) else None.
Proof.
  induction ks as [| a r IH]; simpl; [reflexivity |].
  destruct (sameValueZero k a) eqn:E; simpl.
  - apply sameValueZero_eq in E. now subst.
  - assumption.
Qed.

Lemma map_set_present (G G' : option string -> V) (k : option string) (v : V) ks :
  NoDup ks -> In k ks ->
  (forall k', k' <> k -> G' k' = G k') -> G' k = v ->
  map_set sameValueZero k v (map (fun k' => (k', G k')) ks) =
  map (fun k' => (k', G' k')) ks.
Proof.
  intros Hnd Hin Hother Hk. induction Hnd as [| a r Ha Hr IH]; simpl.
  - destruct Hin.
  - destruct (sameValueZero k a) eqn:E.
    + apply sameValueZero_eq in E. subst a. rewrite Hk. f_equal.
      apply map_ext_in. intros k' Hk'. rewrite Hother; [reflexivity |].
      intros ->. contradiction.
    + apply sameValueZero_neq in E. rewrite Hother by congruence. f_equal.
      apply IH. destruct Hin; [congruence | assumption].
Qed.

Lemma map_set_absent (G G' : option string -> V) (k : option string) (v : V) ks :
  ~ In k ks ->
  (forall k', k' <> k -> G' k' = G k') -> G' k = v ->
  map_set sameValueZero k v (map (fun k' => (k', G k')) ks) =
  map (fun k' => (k', G' k')) (ks ++ [k]).
Proof.
  intros Hin Hother Hk. induction ks as [| a r IH]; simpl.
  - now rewrite Hk.
  - destruct (sameValueZero k a) eqn:E.
    + apply sameValueZero_eq in E. subst a. exfalso. apply Hin. now left.
    + apply sameValueZero_neq in E. rewrite Hother by congruence. f_equal.
      apply IH. intros H. apply Hin. now right.
Qed.

End Keyed.

(** The [Map] built by the first loop: each hash once, in the order of its
    first record, with its records in encounter order. *)
Lemma groupBySha_spec (files : list GitHubFile) :
  groupBySha files =
  map (fun k => (k, membersOf k files)) (firstSeen (map GitHub.sha files)).
Proof.
  induction files as [| f pre IH] using rev_ind.
  - reflexivity.
  - unfold groupBySha in *. rewrite fold_left_snoc, IH. clear IH.
    rewrite map_app. change (map GitHub.sha [f]) with [GitHub.sha f].
    rewrite firstSeen_snoc.
    set (k := GitHub.sha f). set (ks := firstSeen (map GitHub.sha pre)).
    rewrite (map_get_keyed (fun k' => membersOf k' pre)).
    assert (Hv : membersOf k (pre ++ [f]) = membersOf k pre ++ [f]).
    { rewrite membersOf_snoc. unfold k. now rewrite sameValueZero_refl. }
    assert (Ho : forall k', k' <> k -> membersOf k' (pre ++ [f]) = membersOf k' pre).
    { intros k' Hk'. rewrite membersOf_snoc.
      destruct (sameValueZero (GitHub.sha f) k') eqn:E.
      - apply sameValueZero_eq in E. unfold k in Hk'. congruence.
      - apply app_nil_r. }
    destruct (existsb (sameValueZero k) ks) eqn:E.
    + apply map_set_present; auto.
      * apply firstSeen_NoDup.
      * now apply seen_In.
    + assert (Hn : ~ In k ks) by (intros H; apply seen_In in H; congruence).
      rewrite (membersOf_unseen k pre) in Hv.
      * apply map_set_absent; auto.
      * unfold ks in Hn. now rewrite firstSeen_In in Hn.
Qed.

Section Collated.
Variable localeCompare : string -> string -> Z.


Lemma collect_fold entries dupes toDelete :
  fold_left (collect localeCompare) entries (dupes, toDelete) =
  (dupes ++ map (groupOf localeCompare) (filter populous entries),
   fold_left (fun s f => set_add (path f) s)
             (redundant (map (groupOf localeCompare) (filter populous entries))) toDelete).
Proof.
  revert dupes toDelete. induction entries as [| [k g] r IH]; intros; simpl.
  - now rewrite app_nil_r.
  - unfold populous at 1 3 4. simpl snd.
    destruct (1 <? List.length g)%nat; simpl.
    + rewrite IH. unfold redundant at 2. simpl flat_map.
      rewrite fold_left_app, <- app_assoc. reflexivity.
    + apply IH.
Qed.

Lemma findDuplicates_groups (files : list GitHubFile) :
  fst (findDuplicates localeCompare files) = duplicateGroups localeCompare files.
Proof.
  unfold findDuplicates. rewrite collect_fold. simpl fst.
  rewrite groupBySha_spec. unfold duplicateGroups.
  induction (firstSeen (map GitHub.sha files)) as [| k ks IH]; simpl.
  - reflexivity.
  - unfold populous at 1. simpl snd.
    destruct (1 <? List.length (membersOf k files))%nat; simpl; now rewrite IH.
Qed.

Lemma findDuplicates_selection (files : list GitHubFile) :
  snd (findDuplicates localeCompare files) =
  fold_left (fun s f => set_add (path f) s)
            (redundant (fst (findDuplicates localeCompare files))) [].
Proof. unfold findDuplicates. now rewrite collect_fold. Qed.

End Collated.

End GroupingFacts.

Module ScanFacts.
Import Js GitHub Cleanup Spec Sample JsFacts GroupingFacts.

Lemma handleScan_runs lc st fetched :
  scanRuns st ->
  handleScan lc st fetched =
  setIsScanning false
    (match getRepoFiles fetched with
     | Normal files =>
         let st4 :=
           setSelectedToDelete (snd (findDuplicates lc files))
             (setDuplicates (fst (findDuplicates lc files))
                (setStatus ("Found " ++ showNat (List.length files)
                            ++ " images. Analyzing content...")%string
                   (setShowConfirm false
                      (setSelectedToDelete []
                         (setDuplicates []
                            (setStatus "Scanning repository for files..."
                               (setIsScanning true st))))))) in
         if (List.length (fst (findDuplicates lc files)) =? 0)%nat
         then setStatus "No duplicates found! Your repo is clean." st4
         else setStatus ("Found "
                         ++ showNat (List.length (fst (findDuplicates lc files)))
                         ++ " groups of duplicate images.")%string st4
     | Throw err =>
         setStatus ("Error: " ++ show (message err))%string
           (setShowConfirm false
              (setSelectedToDelete []
                 (setDuplicates []
                    (setStatus "Scanning repository for files..."
                       (setIsScanning true st)))))
     end).
Proof.
  intros [Ht Hr]. unfold handleScan. rewrite Ht.
  destruct (parseRepo (repoStr st)) as [[owner repo] |]; [| congruence].
  destruct (getRepoFiles fetched) as [files | e]; [| reflexivity].
  destruct (findDuplicates lc files) as [dupes toDelete]. reflexivity.
Qed.

Lemma handleScan_blocked lc st fetched :
  ~ scanRuns st ->
  handleScan lc st fetched =
  setStatus "Please enter a valid Token and Repo (user/repo)." st.
Proof.
  intros H. unfold handleScan, scanRuns in *.
  destruct (truthy (Some (trim (token st)))).
  - destruct (parseRepo (repoStr st)) as [[owner repo] |]; [| reflexivity].
    exfalso. apply H. split; [reflexivity | discriminate].
  - reflexivity.
Qed.

Lemma scanRuns_dec st : scanRuns st \/ ~ scanRuns st.
Proof.
  unfold scanRuns. destruct (truthy (Some (trim (token st)))).
  - destruct (parseRepo (repoStr st)).
    + left. split; [reflexivity | discriminate].
    + right. intros [_ H]. now apply H.
  - right. intros [H _]. discriminate.
Qed.

Lemma handleScan_inputs lc st fetched :
  token (handleScan lc st fetched) = token st
  /\ repoStr (handleScan lc st fetched) = repoStr st.
Proof.
  destruct (scanRuns_dec st) as [H | H].
  - rewrite (handleScan_runs lc st fetched H).
    destruct (getRepoFiles fetched) as [files | e]; simpl.
    + destruct (List.length (fst (findDuplicates lc files)) =? 0)%nat; split; reflexivity.
    + split; reflexivity.
  - rewrite (handleScan_blocked lc st fetched H). split; reflexivity.
Qed.

Lemma handleScan_idempotent lc st fetched :
  handleScan lc (handleScan lc st fetched) fetched = handleScan lc st fetched.
Proof.
  destruct (scanRuns_dec st) as [H | H].
  - assert (H' : scanRuns (handleScan lc st fetched)).
    { unfold scanRuns. destruct (handleScan_inputs lc st fetched) as [-> ->]. exact H. }
    rewrite (handleScan_runs lc _ fetched H').
    rewrite (handleScan_runs lc st fetched H).
    destruct (getRepoFiles fetched) as [files | e]; simpl.
    + destruct (List.length (fst (findDuplicates lc files)) =? 0)%nat; reflexivity.
    + reflexivity.
  - assert (H' : ~ scanRuns (handleScan lc st fetched)).
    { unfold scanRuns. destruct (handleScan_inputs lc st fetched) as [-> ->]. exact H. }
    rewrite (handleScan_blocked lc _ fetched H').
    rewrite (handleScan_blocked lc st fetched H). reflexivity.
Qed.

Lemma handleScan_result lc st fetched files :
  scanRuns st -> getRepoFiles fetched = Normal files ->
  duplicates (handleScan lc st fetched) = fst (findDuplicates lc files)
  /\ selectedToDelete (handleScan lc st fetched) = snd (findDuplicates lc files).
Proof.
  intros H Hf. rewrite (handleScan_runs lc st fetched H), Hf.
  destruct (List.length (fst (findDuplicates lc files)) =? 0)%nat; split; reflexivity.
Qed.

End ScanFacts.

Module Detector.
Import Js GitHub Cleanup Spec Sample JsFacts GroupingFacts ScanFacts.

Lemma In_same_image {A B : Type} (f : A -> B) (l : list A) (a b : A) :
  NoDup (map f l) -> In a l -> In b l -> f a = f b -> a = b.
Proof.
  induction l as [| x r IH]; simpl; intros Hnd Ha Hb Hf; [destruct Ha |].
  inversion Hnd as [| ? ? Hx Hr]; subst.
  destruct Ha as [-> | Ha], Hb as [-> | Hb]; auto.
  - exfalso. apply Hx. rewrite Hf. now apply in_map.
  - exfalso. apply Hx. rewrite <- Hf. now apply in_map.
Qed.

Lemma In_skipn {A : Type} (n : nat) (l : list A) (x : A) :
  In x (skipn n l) -> In x l.
Proof.
  revert l. induction n as [| n IH]; intros l H; [assumption |].
  destruct l as [| y r]; [assumption |]. right. now apply IH.
Qed.

Lemma StronglySorted_weaken {A : Type} (R S : A -> A -> Prop) (l : list A) :
  (forall a b, R a b -> S a b) -> StronglySorted R l -> StronglySorted S l.
Proof.
  intros HRS. induction 1 as [| a r Hr IH Ha]; constructor; [assumption |].
  eapply Forall_impl; [apply HRS | assumption].
Qed.

Section Collation.
Variable localeCompare : string -> string -> Z.

Lemma compareFiles_nameOrder (a b : GitHubFile) :
  (compareFiles localeCompare a b <= 0)%Z <-> nameOrder localeCompare a b.
Proof.
  unfold compareFiles, nameOrder.
  destruct (String.length (name a) =? String.length (name b))%nat eqn:E; simpl.
  - apply Nat.eqb_eq in E. intuition lia.
  - apply Nat.eqb_neq in E. intuition lia.
Qed.

Lemma group_shape (files : list GitHubFile) (g : DuplicateGroup) :
  In g (fst (findDuplicates localeCompare files)) <->
  g = {| sha := sha g;
         files := sort (compareFiles localeCompare) (membersOf (sha g) files) |}
  /\ In (sha g) (map GitHub.sha files)
  /\ 1 < List.length (membersOf (sha g) files).
Proof.
  rewrite findDuplicates_groups. unfold duplicateGroups.
  rewrite in_map_iff. split.
  - intros [k [<- Hk]]. apply filter_In in Hk. destruct Hk as [Hk Hl].
    rewrite firstSeen_In in Hk. apply Nat.ltb_lt in Hl. simpl.
    repeat split; assumption.
  - intros [Hg [Hk Hl]]. exists (sha g). split; [now symmetry |].
    apply filter_In. split; [now rewrite firstSeen_In | now apply Nat.ltb_lt].
Qed.

Lemma group_members (files : list GitHubFile) (g : DuplicateGroup) (m : GitHubFile) :
  In g (fst (findDuplicates localeCompare files)) ->
  In m (Cleanup.files g) -> In m files /\ GitHub.sha m = sha g.
Proof.
  intros Hg Hm. apply group_shape in Hg. destruct Hg as [Hg _].
  rewrite Hg in Hm. simpl in Hm. apply sort_In in Hm.
  now apply membersOf_In in Hm.
Qed.

Lemma group_by_key (files : list GitHubFile) (g g' : DuplicateGroup) :
  In g (fst (findDuplicates localeCompare files)) ->
  In g' (fst (findDuplicates localeCompare files)) ->
  sha g = sha g' -> g = g'.
Proof.
  intros Hg Hg' Hk. apply group_shape in Hg, Hg'.
  destruct Hg as [-> _], Hg' as [-> _]. simpl in Hk. now rewrite Hk.
Qed.

Lemma selection_In (files : list GitHubFile) (p : string) :
  In p (snd (findDuplicates localeCompare files)) <->
  exists g m, In g (fst (findDuplicates localeCompare files))
              /\ In m (deleteCandidates g) /\ path m = p.
Proof.
  rewrite findDuplicates_selection, add_all_In. simpl.
  unfold redundant. rewrite in_map_iff. split.
  - intros [[] | [m [Hp Hm]]]. apply in_flat_map in Hm.
    destruct Hm as [g [Hg Hm]]. eauto.
  - intros [g [m [Hg [Hm Hp]]]]. right. exists m. split; [assumption |].
    apply in_flat_map. eauto.
Qed.

Lemma keep_not_selected (files : list GitHubFile) (g : DuplicateGroup) (k : GitHubFile) :
  NoDup (map path files) ->
  In g (fst (findDuplicates localeCompare files)) ->
  keep g = Some k ->
  ~ In (path k) (snd (findDuplicates localeCompare files)).
Proof.
  intros Hnd Hg Hk Hsel. apply selection_In in Hsel.
  destruct Hsel as [g' [m [Hg' [Hm Hp]]]].
  assert (Hkg : In k (Cleanup.files g)).
  { unfold keep in Hk. destruct (Cleanup.files g); [discriminate |].
    injection Hk as ->. now left. }
  destruct (group_members _ _ _ Hg Hkg) as [Hkf Hks].
  destruct (group_members _ _ _ Hg' (In_skipn _ _ _ Hm)) as [Hmf Hms].
  assert (m = k) by (eapply In_same_image; eauto). subst m.
  assert (g' = g) by (eapply group_by_key; eauto; congruence). subst g'.
  assert (Hndg : NoDup (Cleanup.files g)).
  { apply group_shape in Hg. destruct Hg as [-> _]. simpl.
    eapply Permutation_NoDup; [symmetry; apply sort_perm |].
    apply NoDup_filter. eapply NoDup_map_inv; eassumption. }
  unfold keep, deleteCandidates in *.
  destruct (Cleanup.files g) as [| x r]; [discriminate |].
  injection Hk as ->. simpl in Hm. inversion Hndg. contradiction.
Qed.

(** The host's collation is taken to be a consistent comparator: any two
    names are comparable, and the comparison is transitive. *)
Hypothesis collation_total :
  forall a b, (localeCompare a b <= 0 \/ localeCompare b a <= 0)%Z.
Hypothesis collation_trans :
  forall a b c,
    (localeCompare a b <= 0 -> localeCompare b c <= 0 -> localeCompare a c <= 0)%Z.

Lemma compareFiles_total (a b : GitHubFile) :
  (compareFiles localeCompare a b <= 0 \/ compareFiles localeCompare b a <= 0)%Z.
Proof.
  unfold compareFiles.
  rewrite (Nat.eqb_sym (String.length (name b))).
  destruct (String.length (name a) =? String.length (name b))%nat; simpl.
  - apply collation_total.
  - lia.
Qed.

Lemma compareFiles_trans (a b c : GitHubFile) :
  (compareFiles localeCompare a b <= 0 -> compareFiles localeCompare b c <= 0 ->
   compareFiles localeCompare a c <= 0)%Z.
Proof.
  rewrite !compareFiles_nameOrder. unfold nameOrder.
  intros [H1 | [H1 L1]] [H2 | [H2 L2]]; try (left; lia).
  right. split; [lia | eauto].
Qed.

Lemma group_sorted (files : list GitHubFile) (g : DuplicateGroup) :
  In g (fst (findDuplicates localeCompare files)) ->
  StronglySorted (nameOrder localeCompare) (Cleanup.files g).
Proof.
  intros Hg. apply group_shape in Hg. destruct Hg as [-> _]. simpl.
  eapply StronglySorted_weaken; [apply compareFiles_nameOrder |].
  apply sort_sorted; [apply compareFiles_total | apply compareFiles_trans].
Qed.

(** C1.  The duplicate detector groups the records by content hash in
    encounter order, keeps the groups of more than one member, sorts the
    members of each by ascending name length and then ascending name in
    the host's collation, and designates the first member as the one to
    keep and the others as delete-candidates.  For "img.png", "image.png",
    "a.png" under one hash the keep member is "a.png"; for "bbb.png",
    "aaa.png" it is "aaa.png", which the collation puts first. *)
Theorem detector_groups_sorts_and_designates (files : list GitHubFile) :
  let dupes := fst (findDuplicates localeCompare files) in
  let toDelete := snd (findDuplicates localeCompare files) in
  dupes = duplicateGroups localeCompare files
  /\ map sha dupes
     = filter (fun k => (1 <? List.length (membersOf k files))%nat)
              (firstSeen (map GitHub.sha files))
  /\ (forall g, In g dupes ->
        1 < List.length (Cleanup.files g)
        /\ Permutation (Cleanup.files g) (membersOf (sha g) files)
        /\ StronglySorted (nameOrder localeCompare) (Cleanup.files g)
        /\ exists k, keep g = Some k
                     /\ forall m, In m (Cleanup.files g) -> nameOrder localeCompare k m)
  /\ toDelete = fold_left (fun s f => set_add (path f) s) (redundant dupes) []
  /\ map keep (fst (findDuplicates localeCompare threeOfAKind))
     = [Some (file "a.png" (Some "h1"))]
  /\ ((0 < localeCompare "bbb.png" "aaa.png")%Z ->
      map keep (fst (findDuplicates localeCompare
                       [file "bbb.png" (Some "h1"); file "aaa.png" (Some "h1")]))
      = [Some (file "aaa.png" (Some "h1"))]).
Proof.
  intros dupes toDelete. unfold dupes, toDelete.
  split; [apply findDuplicates_groups |].
  split.
  { rewrite findDuplicates_groups. unfold duplicateGroups.
    rewrite map_map. simpl. apply map_id. }
  split.
  { intros g Hg. pose proof (group_sorted files g Hg) as Hs.
    apply group_shape in Hg. destruct Hg as [Hg [_ Hl]].
    assert (Hp : Permutation (Cleanup.files g) (membersOf (sha g) files)).
    { rewrite Hg at 1. simpl. apply sort_perm. }
    assert (Hlen : 1 < List.length (Cleanup.files g)).
    { now rewrite (Permutation_length Hp). }
    repeat split; try assumption.
    unfold keep. destruct (Cleanup.files g) as [| k r]; [simpl in Hlen; lia |].
    exists k. split; [reflexivity |].
    intros m [<- | Hm].
    - apply compareFiles_nameOrder.
      destruct (compareFiles_total k k); assumption.
    - inversion Hs as [| ? ? _ Hk]; subst.
      rewrite Forall_forall in Hk. now apply Hk. }
  split; [apply findDuplicates_selection |].
  split; [reflexivity |].
  intros H. unfold findDuplicates, groupBySha. simpl.
  unfold compareFiles. simpl.
  destruct (localeCompare "bbb.png" "aaa.png" <=? 0)%Z eqn:E.
  - apply Z.leb_le in E. lia.
  - reflexivity.
Qed.

(** C4.  The initial deletion selection is exactly the set of the paths of
    the redundant members, that is of every member of every duplicate group
    but the group's keep member (index 0); paths being unique within the
    listed directory, no keep member's path is selected.  The scan puts
    this selection, and the groups, into the state. *)
Theorem initial_selection_is_all_redundant_members (files : list GitHubFile) :
  let dupes := fst (findDuplicates localeCompare files) in
  let toDelete := snd (findDuplicates localeCompare files) in
  (forall p, In p toDelete <->
             exists g m, In g dupes /\ In m (deleteCandidates g) /\ path m = p)
  /\ (forall p, In p toDelete <-> In p (map path (redundant dupes)))
  /\ NoDup toDelete
  /\ (NoDup (map path files) ->
      forall g k, In g dupes -> keep g = Some k -> ~ In (path k) toDelete)
  /\ (forall st fetched,
        scanRuns st -> getRepoFiles fetched = Normal files ->
        duplicates (handleScan localeCompare st fetched) = dupes
        /\ selectedToDelete (handleScan localeCompare st fetched) = toDelete).
Proof.
  intros dupes toDelete. unfold dupes, toDelete.
  split; [apply selection_In |].
  split.
  { intros p. rewrite findDuplicates_selection, add_all_In. simpl. tauto. }
  split.
  { rewrite findDuplicates_selection. apply add_all_NoDup. constructor. }
  split.
  { intros Hnd g k Hg Hk. now apply keep_not_selected with (g := g). }
  intros st fetched Hrun Hf. now apply handleScan_result.
Qed.

(** C5.  Grouping is a function of the listing alone.  Scanning again
    while the remote answers the same reproduces the very same state, hence
    the same groups in the same order and the same keep/delete designation;
    two scans of one listing agree whatever was on screen before; and the
    members of a group come in the only order a conforming [sort] can give
    them, so the result does not hang on the host's sorting algorithm. *)
Theorem grouping_is_deterministic :
  (forall st fetched,
      handleScan localeCompare (handleScan localeCompare st fetched) fetched
      = handleScan localeCompare st fetched)
  /\ (forall st st' fetched,
        scanRuns st -> scanRuns st' ->
        duplicates (handleScan localeCompare st fetched)
        = duplicates (handleScan localeCompare st' fetched)
        /\ selectedToDelete (handleScan localeCompare st fetched)
           = selectedToDelete (handleScan localeCompare st' fetched))
  /\ (forall files g sorted,
        In g (fst (findDuplicates localeCompare files)) ->
        stableSorted (compareFiles localeCompare) (membersOf (sha g) files) sorted ->
        sorted = Cleanup.files g).
Proof.
  split; [intros; apply handleScan_idempotent |].
  split.
  - intros st st' fetched H H'.
    rewrite (handleScan_runs _ st fetched H), (handleScan_runs _ st' fetched H').
    destruct (getRepoFiles fetched) as [files | e]; simpl.
    + destruct (List.length (fst (findDuplicates localeCompare files)) =? 0)%nat;
        split; reflexivity.
    + split; reflexivity.
  - intros files g sorted Hg Hs. apply group_shape in Hg.
    destruct Hg as [-> _]. simpl in *.
    apply stableSorted_unique;
      [apply compareFiles_total | apply compareFiles_trans | assumption].
Qed.

End Collation.

(** The order of the code units is a consistent comparator. *)
Lemma codeUnitCompare_total (a b : string) :
  (codeUnitCompare a b <= 0 \/ codeUnitCompare b a <= 0)%Z.
Proof.
  unfold codeUnitCompare. rewrite (String.compare_antisym a b).
  destruct (String.compare b a); simpl; lia.
Qed.

Lemma string_compare_trans (a b c : string) :
  String.compare a b <> Gt -> String.compare b c <> Gt -> String.compare a c <> Gt.
Proof.
  revert b c. induction a as [| x a IH]; intros [| y b] [| z c]; simpl;
    try congruence.
  unfold Ascii.compare.
  destruct (N.compare_spec (N_of_ascii x) (N_of_ascii y)) as [Exy | Lxy | Gxy];
    destruct (N.compare_spec (N_of_ascii y) (N_of_ascii z)) as [Eyz | Lyz | Gyz];
    destruct (N.compare_spec (N_of_ascii x) (N_of_ascii z)) as [Exz | Lxz | Gxz];
    try congruence; try lia; try (intros; apply (IH b c); assumption).
Qed.

Lemma codeUnitCompare_trans (a b c : string) :
  (codeUnitCompare a b <= 0 -> codeUnitCompare b c <= 0 -> codeUnitCompare a c <= 0)%Z.
Proof.
  unfold codeUnitCompare. intros H1 H2.
  assert (H : String.compare a c <> Gt).
  { apply (string_compare_trans a b c).
    - destruct (String.compare a b); [discriminate | discriminate | lia].
    - destruct (String.compare b c); [discriminate | discriminate | lia]. }
  destruct (String.compare a c); [lia | lia | congruence].
Qed.

Lemma detector_groups_sorts_and_designates_witness :
  (forall a b, (codeUnitCompare a b <= 0 \/ codeUnitCompare b a <= 0)%Z)
  /\ (forall a b c, (codeUnitCompare a b <= 0 -> codeUnitCompare b c <= 0 ->
                     codeUnitCompare a c <= 0)%Z)
  /\ (0 < codeUnitCompare "bbb.png" "aaa.png")%Z
  /\ fst (findDuplicates codeUnitCompare twoPairs)
     = duplicateGroups codeUnitCompare twoPairs
  /\ map keep (fst (findDuplicates codeUnitCompare
                      [file "bbb.png" (Some "h1"); file "aaa.png" (Some "h1")]))
     = [Some (file "aaa.png" (Some "h1"))].
Proof.
  pose proof (detector_groups_sorts_and_designates codeUnitCompare
                codeUnitCompare_total codeUnitCompare_trans twoPairs) as H.
  cbv zeta in H.
  destruct H as [H1 [_ [_ [_ [_ H6]]]]].
  split; [exact codeUnitCompare_total |].
  split; [exact codeUnitCompare_trans |].
  split; [reflexivity |].
  split; [exact H1 |].
  apply H6. reflexivity.
Defined.

Lemma initial_selection_is_all_redundant_members_witness :
  NoDup (map path twoPairs)
  /\ scanRuns (idle [] [])
  /\ getRepoFiles (listing twoPairs) = Normal twoPairs
  /\ selectedToDelete (handleScan codeUnitCompare (idle [] []) (listing twoPairs))
     = snd (findDuplicates codeUnitCompare twoPairs)
  /\ ~ In (path (file "aaa.png" (Some "h1")))
          (snd (findDuplicates codeUnitCompare twoPairs)).
Proof.
  pose proof (initial_selection_is_all_redundant_members codeUnitCompare twoPairs)
    as H.
  cbv zeta in H. destruct H as [_ [_ [_ [Hkeep Hscan]]]].
  assert (Hnd : NoDup (map path twoPairs)).
  { repeat (constructor; [simpl; intuition discriminate |]). constructor. }
  assert (Hrun : scanRuns (idle [] [])).
  { split; [reflexivity | vm_compute; discriminate]. }
  split; [exact Hnd |].
  split; [exact Hrun |].
  split; [reflexivity |].
  split.
  - apply (Hscan (idle [] []) (listing twoPairs) Hrun eq_refl).
  - apply (Hkeep Hnd
             {| sha := Some "h1";
                files := [file "aaa.png" (Some "h1"); file "bbb.png" (Some "h1")] |}).
    + vm_compute. left. reflexivity.
    + reflexivity.
Defined.

Lemma grouping_is_deterministic_witness :
  scanRuns (idle [] [])
  /\ scanRuns (idle [] ["stale"])
  /\ duplicates (handleScan codeUnitCompare (idle [] []) (listing twoPairs))
     = duplicates (handleScan codeUnitCompare (idle [] ["stale"]) (listing twoPairs))
  /\ stableSorted (compareFiles codeUnitCompare)
       (membersOf (Some "h1") twoPairs)
       [file "aaa.png" (Some "h1"); file "bbb.png" (Some "h1")]
  /\ [file "aaa.png" (Some "h1"); file "bbb.png" (Some "h1")]
     = Cleanup.files
         {| sha := Some "h1";
            files := [file "aaa.png" (Some "h1"); file "bbb.png" (Some "h1")] |}.
Proof.
  pose proof (grouping_is_deterministic codeUnitCompare
                codeUnitCompare_total codeUnitCompare_trans) as [_ [H H3]].
  assert (Hrun : scanRuns (idle [] [])).
  { split; [reflexivity | vm_compute; discriminate]. }
  assert (Hrun' : scanRuns (idle [] ["stale"])).
  { split; [reflexivity | vm_compute; discriminate]. }
  assert (Hs : stableSorted (compareFiles codeUnitCompare)
                 (membersOf (Some "h1") twoPairs)
                 [file "aaa.png" (Some "h1"); file "bbb.png" (Some "h1")]).
  { change [file "aaa.png" (Some "h1"); file "bbb.png" (Some "h1")]
      with (sort (compareFiles codeUnitCompare) (membersOf (Some "h1") twoPairs)).
    apply sort_stableSorted.
    - apply compareFiles_total, codeUnitCompare_total.
    - apply compareFiles_trans, codeUnitCompare_trans. }
  split; [exact Hrun |].
  split; [exact Hrun' |].
  split; [apply (H _ _ (listing twoPairs) Hrun Hrun') |].
  split; [exact Hs |].
  apply (H3 twoPairs); [| exact Hs].
  vm_compute. left. reflexivity.
Defined.

End Detector.

(* ===================================================================== *)
(** ** The deletion executor                                              *)
(* ===================================================================== *)

Module Executor.
Import Js GitHub Cleanup Spec MoreSpec Sample JsFacts GroupingFacts ScanFacts.

Lemma requests_app (t1 t2 : list Event) :
  requests (t1 ++ t2) = requests t1 ++ requests t2.
Proof. apply flat_map_app. Qed.

Lemma warnings_app (t1 t2 : list Event) :
  warnings (t1 ++ t2) = warnings t1 ++ warnings t2.
Proof. apply flat_map_app. Qed.

Lemma requestCount_requests (b : Batch) :
  requestCount b = List.length (requests (trace b)).
Proof.
  unfold requestCount, requests.
  induction (trace b) as [| ev t IH]; [reflexivity |].
  destruct ev; simpl; now rewrite IH.
Qed.

Section Loop.
Variable deleteFile : nat -> string -> string -> completion unit.
Variable groups : list DuplicateGroup.
Variable total : nat.

Lemma step_skips (b : Batch) (p : string) :
  truthy (lookupSha groups p) = false ->
  deleteStep deleteFile groups total b p = emit (ConsoleWarn (warning p)) b.
Proof.
  unfold deleteStep. destruct (lookupSha groups p) as [[| c r] |]; simpl;
    intros H; try reflexivity. discriminate.
Qed.

Lemma step_succeeds (b : Batch) (p s : string) (u : unit) :
  lookupSha groups p = Some s -> truthy (Some s) = true ->
  deleteFile (requestCount b) p s = Normal u ->
  deleteStep deleteFile groups total b p =
  {| deletedCount := deletedCount b + 1; errorCount := errorCount b;
     lastError := lastError b;
     trace := (trace b ++ [statusLine total b p]) ++ [DeleteRequest p s] |}.
Proof.
  intros Hl Ht Hd. unfold deleteStep. rewrite Hl.
  destruct s as [| c r]; [discriminate |].
  replace (requestCount (emit _ b)) with (requestCount b).
  - rewrite Hd. reflexivity.
  - rewrite !requestCount_requests. simpl. rewrite requests_app. simpl.
    now rewrite app_nil_r.
Qed.

Lemma step_fails (b : Batch) (p s : string) (e : JsError) :
  lookupSha groups p = Some s -> truthy (Some s) = true ->
  deleteFile (requestCount b) p s = Throw e ->
  deleteStep deleteFile groups total b p =
  {| deletedCount := deletedCount b; errorCount := errorCount b + 1;
     lastError := classify e;
     trace := ((trace b ++ [statusLine total b p]) ++ [DeleteRequest p s])
              ++ [ConsoleError ("Failed to delete " ++ p)%string e] |}.
Proof.
  intros Hl Ht Hd. unfold deleteStep. rewrite Hl.
  destruct s as [| c r]; [discriminate |].
  replace (requestCount (emit _ b)) with (requestCount b).
  - rewrite Hd. reflexivity.
  - rewrite !requestCount_requests. simpl. rewrite requests_app. simpl.
    now rewrite app_nil_r.
Qed.

Lemma requests_request (t : list Event) (line : Event) (p s : string) :
  (forall x y, line <> DeleteRequest x y) ->
  requests ((t ++ [line]) ++ [DeleteRequest p s]) = requests t ++ [(p, s)].
Proof.
  intros H. rewrite !requests_app. simpl.
  destruct line as [m | x y | m | m e]; try (now rewrite app_nil_r).
  now destruct (H x y).
Qed.

Lemma warnings_request (t : list Event) (line : Event) (p s : string) :
  (forall x, line <> ConsoleWarn x) ->
  warnings ((t ++ [line]) ++ [DeleteRequest p s]) = warnings t.
Proof.
  intros H. rewrite !warnings_app. simpl.
  destruct line as [m | x y | m | m e]; try (now rewrite !app_nil_r).
  now destruct (H m).
Qed.

(** What the loop has done once it has gone through [paths], from any
    point [b] of the batch. *)
Lemma loop_invariant (paths : list string) (b : Batch) :
  let b' := fold_left (deleteStep deleteFile groups total) paths b in
  let outs := outcomesFrom deleteFile (requestCount b) (resolvable groups paths) in
  requests (trace b') = requests (trace b) ++ resolvable groups paths
  /\ deletedCount b' = deletedCount b + List.length (filter succeeded outs)
  /\ errorCount b' = errorCount b + List.length (filter failed outs)
  /\ lastError b' = lastFailure (lastError b) outs
  /\ warnings (trace b')
     = warnings (trace b)
       ++ map warning (filter (fun p => negb (truthy (lookupSha groups p))) paths).
Proof.
  revert b. induction paths as [| p r IH]; intros b; cbv zeta.
  - simpl. rewrite !app_nil_r. repeat split; lia.
  - simpl fold_left. unfold resolvable. simpl flat_map. fold (resolvable groups r).
    simpl filter.
    destruct (truthy (lookupSha groups p)) eqn:Ht.
    + destruct (lookupSha groups p) as [[| c s'] |] eqn:Hl; try discriminate.
      set (s := String c s') in *. simpl app. simpl outcomesFrom. simpl negb.
      assert (Hline : forall x y, statusLine total b p <> DeleteRequest x y)
        by (intros; discriminate).
      assert (Hline' : forall x, statusLine total b p <> ConsoleWarn x)
        by (intros; discriminate).
      destruct (deleteFile (requestCount b) p s) as [u | e] eqn:Hd.
      * rewrite (step_succeeds b p s u Hl Ht Hd).
        match goal with |- context [fold_left _ r ?x] => set (bx := x) end.
        assert (Hq : requests (trace bx) = requests (trace b) ++ [(p, s)])
          by (apply requests_request, Hline).
        assert (Hw : warnings (trace bx) = warnings (trace b))
          by (apply warnings_request, Hline').
        assert (Hc : requestCount bx = S (requestCount b)).
        { rewrite !requestCount_requests, Hq, length_app. simpl. lia. }
        specialize (IH bx). cbv zeta in IH. rewrite Hq, Hw, Hc in IH.
        destruct IH as [I1 [I2 [I3 [I4 I5]]]].
        rewrite I1, I2, I3, I4, I5, <- app_assoc. simpl.
        repeat split; try reflexivity; lia.
      * rewrite (step_fails b p s e Hl Ht Hd).
        match goal with |- context [fold_left _ r ?x] => set (bx := x) end.
        assert (Hq : requests (trace bx) = requests (trace b) ++ [(p, s)]).
        { unfold bx. simpl trace. rewrite requests_app. simpl.
          rewrite app_nil_r. apply requests_request, Hline. }
        assert (Hw : warnings (trace bx) = warnings (trace b)).
        { unfold bx. simpl trace. rewrite warnings_app. simpl.
          rewrite app_nil_r. apply warnings_request, Hline'. }
        assert (Hc : requestCount bx = S (requestCount b)).
        { rewrite !requestCount_requests, Hq, length_app. simpl. lia. }
        specialize (IH bx). cbv zeta in IH. rewrite Hq, Hw, Hc in IH.
        destruct IH as [I1 [I2 [I3 [I4 I5]]]].
        rewrite I1, I2, I3, I4, I5, <- app_assoc. simpl.
        repeat split; try reflexivity; lia.
    + rewrite (step_skips b p Ht).
      assert (Hr : (match lookupSha groups p with
                    | Some (String c s') => [(p, String c s')]
                    | _ => []
                    end) = []).
      { destruct (lookupSha groups p) as [[| c s'] |]; try reflexivity.
        discriminate. }
      rewrite Hr. simpl app. simpl negb. simpl map.
      set (bx := emit (ConsoleWarn (warning p)) b).
      assert (Hq : requests (trace bx) = requests (trace b)).
      { unfold bx. simpl. rewrite requests_app. simpl. apply app_nil_r. }
      assert (Hw : warnings (trace bx) = warnings (trace b) ++ [warning p]).
      { unfold bx. simpl. now rewrite warnings_app. }
      assert (Hc : requestCount bx = requestCount b).
      { now rewrite !requestCount_requests, Hq. }
      specialize (IH bx). cbv zeta in IH. rewrite Hq, Hw, Hc in IH.
      destruct IH as [I1 [I2 [I3 [I4 I5]]]].
      rewrite I1, I2, I3, I4, I5, <- app_assoc. simpl.
      repeat split; reflexivity.
Qed.

End Loop.

Lemma outcomesFrom_length deleteFile n reqs :
  List.length (outcomesFrom deleteFile n reqs) = List.length reqs.
Proof.
  revert n. induction reqs as [| [p s] r IH]; intros n; simpl; [reflexivity |].
  now rewrite IH.
Qed.

Lemma succeeded_or_failed (outs : list (completion unit)) :
  List.length (filter succeeded outs) + List.length (filter failed outs)
  = List.length outs.
Proof.
  induction outs as [| [u | e] r IH]; simpl; [reflexivity | |];
    unfold failed in *; simpl; lia.
Qed.

Lemma resolvable_all (groups : list DuplicateGroup) (paths : list string) :
  (forall p, In p paths -> truthy (lookupSha groups p) = true) ->
  map fst (resolvable groups paths) = paths.
Proof.
  induction paths as [| p r IH]; intros H; [reflexivity |].
  unfold resolvable. simpl flat_map. fold (resolvable groups r).
  pose proof (H p (or_introl eq_refl)) as Hp.
  destruct (lookupSha groups p) as [[| c s] |]; try discriminate.
  simpl. f_equal. apply IH. intros q Hq. apply H. now right.
Qed.

Lemma resolvable_In (groups : list DuplicateGroup) (paths : list string) p s :
  In (p, s) (resolvable groups paths) <->
  In p paths /\ lookupSha groups p = Some s /\ truthy (Some s) = true.
Proof.
  unfold resolvable. rewrite in_flat_map. split.
  - intros [q [Hq Hin]].
    destruct (lookupSha groups q) as [[| c r] |] eqn:E; try destruct Hin.
    + injection H as <- <-. auto.
    + destruct H.
  - intros [Hp [Hl Ht]]. exists p. split; [assumption |]. rewrite Hl.
    destruct s; [discriminate | now left].
Qed.

Lemma resolvable_length (groups : list DuplicateGroup) (paths : list string) :
  List.length (resolvable groups paths)
  + List.length (filter (fun p => negb (truthy (lookupSha groups p))) paths)
  = List.length paths.
Proof.
  induction paths as [| p r IH]; [reflexivity |].
  unfold resolvable in *. simpl flat_map. simpl filter.
  destruct (lookupSha groups p) as [[| c s] |]; simpl; lia.
Qed.

Lemma executeDelete_runs deleteFile st :
  selectedToDelete st <> [] -> parseRepo (repoStr st) <> None ->
  executeDelete deleteFile st =
  let b := deleteLoop deleteFile (duplicates st) (selectedToDelete st) in
  {| state := setShowConfirm false
                (setIsDeleting false (setStatus (report b) (setIsDeleting true st)));
     batch := Some b;
     rescanScheduled := (errorCount b =? 0)%nat |}.
Proof.
  intros Hs Hr. unfold executeDelete.
  destruct (selectedToDelete st) as [| p r] eqn:E; [congruence |]. simpl.
  destruct (parseRepo (repoStr st)) as [[owner repo] |]; [reflexivity | congruence].
Qed.

Lemma executeDelete_batch deleteFile st b :
  batch (executeDelete deleteFile st) = Some b ->
  selectedToDelete st <> [] /\ parseRepo (repoStr st) <> None
  /\ b = deleteLoop deleteFile (duplicates st) (selectedToDelete st).
Proof.
  unfold executeDelete.
  destruct (selectedToDelete st) as [| p r] eqn:E; simpl; [discriminate |].
  destruct (parseRepo (repoStr st)) as [[owner repo] |]; simpl; [| discriminate].
  intros H. injection H as <-. repeat split; discriminate.
Qed.

Lemma deleteLoop_requests deleteFile groups paths :
  requests (trace (deleteLoop deleteFile groups paths)) = resolvable groups paths.
Proof.
  pose proof (loop_invariant deleteFile groups (List.length paths) paths emptyBatch)
    as H.
  cbv zeta in H. now destruct H as [H _].
Qed.

(** C2.  The executor issues its delete requests one after the other, one
    for each selected path whose content identifier it finds, in the order
    of the selection and whatever the earlier requests answered: a failure
    stops nothing.  It ends with the count of the successes, the count of
    the failures and the message kept from the last failure, and shows them
    in its final status.  With three requests of which the second fails the
    third is still issued and the tally is 2 deleted, 1 failed. *)
Theorem batch_continues_past_failures
  (deleteFile : nat -> string -> string -> completion unit)
  (groups : list DuplicateGroup) (paths : list string) :
  let b := deleteLoop deleteFile groups paths in
  let outs := outcomesFrom deleteFile 0 (resolvable groups paths) in
  requests (trace b) = resolvable groups paths
  /\ deletedCount b = List.length (filter succeeded outs)
  /\ errorCount b = List.length (filter failed outs)
  /\ deletedCount b + errorCount b = List.length (resolvable groups paths)
  /\ lastError b = lastFailure "" outs
  /\ ((forall p, In p paths -> truthy (lookupSha groups p) = true) ->
      map fst (requests (trace b)) = paths)
  /\ (forall r1 r2 r3 e,
        resolvable groups paths = [r1; r2; r3] ->
        outs = [Normal tt; Throw e; Normal tt] ->
        requests (trace b) = [r1; r2; r3]
        /\ deletedCount b = 2 /\ errorCount b = 1 /\ lastError b = classify e)
  /\ (forall st,
        selectedToDelete st = paths -> duplicates st = groups ->
        paths <> [] -> parseRepo (repoStr st) <> None ->
        batch (executeDelete deleteFile st) = Some b
        /\ status (state (executeDelete deleteFile st)) = Some (report b))
  /\ (0 < errorCount b ->
      report b = ("Completed with errors. Deleted: " ++ showNat (deletedCount b)
                  ++ ". Failed: " ++ showNat (errorCount b)
                  ++ ". Last Error: " ++ lastError b)%string)
  /\ (errorCount b = 0 ->
      report b = ("Cleanup complete! Successfully deleted "
                  ++ showNat (deletedCount b) ++ " files.")%string).
Proof.
  intros b outs.
  pose proof (loop_invariant deleteFile groups (List.length paths) paths emptyBatch)
    as H.
  cbv zeta in H. change (requestCount emptyBatch) with 0 in H.
  fold (deleteLoop deleteFile groups paths) in H. fold b in H. fold outs in H.
  simpl in H. destruct H as [H1 [H2 [H3 [H4 _]]]].
  assert (H5 : deletedCount b + errorCount b = List.length (resolvable groups paths)).
  { rewrite H2, H3, succeeded_or_failed. apply outcomesFrom_length. }
  split; [exact H1 |]. split; [exact H2 |]. split; [exact H3 |].
  split; [exact H5 |]. split; [exact H4 |].
  split.
  { intros Hall. rewrite H1. now apply resolvable_all. }
  split.
  { intros r1 r2 r3 e Hr Ho. rewrite H1, H2, H3, H4, Ho, Hr.
    repeat split; reflexivity. }
  split.
  { intros st Hs Hd Hp Hr. rewrite executeDelete_runs by congruence.
    simpl. unfold b. now rewrite Hs, Hd. }
  split.
  - intros He. unfold report. apply Nat.ltb_lt in He. now rewrite He.
  - intros He. unfold report. now rewrite He.
Qed.

Lemma batch_continues_past_failures_witness :
  (forall p, In p threePaths -> truthy (lookupSha oneGroup p) = true)
  /\ resolvable oneGroup threePaths
     = [("lumina-exports/img.png", "h1"); ("lumina-exports/image.png", "h1");
        ("lumina-exports/a.png", "h1")]
  /\ outcomesFrom secondFails 0 (resolvable oneGroup threePaths)
     = [Normal tt; Throw (newError "Server Error"); Normal tt]
  /\ threePaths <> [] /\ parseRepo (repoStr confirmed) <> None
  /\ map fst (requests (trace (deleteLoop secondFails oneGroup threePaths)))
     = threePaths
  /\ deletedCount (deleteLoop secondFails oneGroup threePaths) = 2
  /\ errorCount (deleteLoop secondFails oneGroup threePaths) = 1
  /\ status (state (executeDelete secondFails confirmed))
     = Some (report (deleteLoop secondFails oneGroup threePaths))
  /\ report (deleteLoop secondFails oneGroup threePaths)
     = "Completed with errors. Deleted: 2. Failed: 1. Last Error: Server Error".
Proof.
  pose proof (batch_continues_past_failures secondFails oneGroup threePaths) as H.
  cbv zeta in H.
  destruct H as [_ [_ [_ [_ [_ [Hall [Hthree [Hst [Hrep _]]]]]]]]].
  assert (H1 : forall p, In p threePaths -> truthy (lookupSha oneGroup p) = true).
  { intros p [<- | [<- | [<- | []]]]; reflexivity. }
  assert (H2 : threePaths <> []) by discriminate.
  assert (H3 : parseRepo (repoStr confirmed) <> None) by (vm_compute; discriminate).
  destruct (Hthree _ _ _ _ eq_refl eq_refl) as [_ [Hd [He _]]].
  destruct (Hst confirmed eq_refl eq_refl H2 H3) as [_ Hs].
  split; [exact H1 |]. split; [reflexivity |]. split; [reflexivity |].
  split; [exact H2 |]. split; [exact H3 |].
  split; [exact (Hall H1) |]. split; [exact Hd |]. split; [exact He |].
  split; [exact Hs |].
  rewrite Hrep by (rewrite He; lia). rewrite Hd, He. reflexivity.
Defined.

(** C3.  When a batch has run, the refresh scan is scheduled if and only if
    no deletion failed.  Scheduled, it runs [handleScan] on what the remote
    lists then, so the groups shown are those of the fresh listing; with a
    failure nothing is scheduled, and the groups and the selection on
    screen stay as they were.  Without a batch nothing is scheduled. *)
Theorem rescan_iff_no_failure
  (localeCompare : string -> string -> Z)
  (deleteFile : nat -> string -> string -> completion unit) (st : State) :
  let o := executeDelete deleteFile st in
  (forall b, batch o = Some b ->
     (rescanScheduled o = true <-> errorCount b = 0)
     /\ (errorCount b = 0 ->
         forall fetched,
           afterTimeout localeCompare o fetched
           = handleScan localeCompare (state o) fetched)
     /\ (errorCount b = 0 ->
         forall fetched files,
           truthy (Some (trim (token st))) = true ->
           getRepoFiles fetched = Normal files ->
           duplicates (afterTimeout localeCompare o fetched)
           = fst (findDuplicates localeCompare files)
           /\ selectedToDelete (afterTimeout localeCompare o fetched)
              = snd (findDuplicates localeCompare files))
     /\ (0 < errorCount b ->
         forall fetched,
           afterTimeout localeCompare o fetched = state o
           /\ duplicates (afterTimeout localeCompare o fetched) = duplicates st
           /\ selectedToDelete (afterTimeout localeCompare o fetched)
              = selectedToDelete st))
  /\ (batch o = None -> rescanScheduled o = false).
Proof.
  intros o. split.
  - intros b Hb. destruct (executeDelete_batch _ _ _ Hb) as [Hs [Hr Hbb]].
    assert (Ho : o = executeDelete deleteFile st) by reflexivity.
    rewrite executeDelete_runs in Ho by assumption. cbv zeta in Ho.
    rewrite <- Hbb in Ho.
    assert (Hsched : rescanScheduled o = (errorCount b =? 0)%nat) by now rewrite Ho.
    split; [rewrite Hsched; apply Nat.eqb_eq |].
    split.
    { intros He fetched. unfold afterTimeout. rewrite Hsched, He. reflexivity. }
    split.
    { intros He fetched files Ht Hf. unfold afterTimeout.
      rewrite Hsched, He. simpl.
      apply handleScan_result; [| assumption].
      rewrite Ho. split; simpl; assumption. }
    intros He fetched. unfold afterTimeout. rewrite Hsched.
    destruct (errorCount b =? 0)%nat eqn:E; [apply Nat.eqb_eq in E; lia |].
    rewrite Ho. repeat split.
  - unfold o, executeDelete.
    destruct (List.length (selectedToDelete st) =? 0)%nat; [reflexivity |].
    destruct (parseRepo (repoStr st)) as [[owner repo] |]; simpl;
      [discriminate | reflexivity].
Qed.

Lemma rescan_iff_no_failure_witness :
  (exists b, batch (executeDelete secondFails confirmed) = Some b
             /\ 0 < errorCount b)
  /\ rescanScheduled (executeDelete secondFails confirmed) = false
  /\ duplicates (afterTimeout codeUnitCompare
                   (executeDelete secondFails confirmed)
                   (listing [file "a.png" (Some "h1")]))
     = oneGroup
  /\ (exists b, batch (executeDelete allSucceed confirmed) = Some b
                /\ errorCount b = 0)
  /\ rescanScheduled (executeDelete allSucceed confirmed) = true
  /\ truthy (Some (trim (token confirmed))) = true
  /\ getRepoFiles (listing [file "a.png" (Some "h1")])
     = Normal [file "a.png" (Some "h1")]
  /\ duplicates (afterTimeout codeUnitCompare
                   (executeDelete allSucceed confirmed)
                   (listing [file "a.png" (Some "h1")]))
     = fst (findDuplicates codeUnitCompare [file "a.png" (Some "h1")]).
Proof.
  pose proof (rescan_iff_no_failure codeUnitCompare secondFails confirmed) as Hf.
  pose proof (rescan_iff_no_failure codeUnitCompare allSucceed confirmed) as Hs.
  cbv zeta in Hf, Hs. destruct Hf as [Hf _]. destruct Hs as [Hs _].
  specialize (Hf (deleteLoop secondFails oneGroup threePaths) eq_refl).
  specialize (Hs (deleteLoop allSucceed oneGroup threePaths) eq_refl).
  destruct Hf as [Hf1 [_ [_ Hf4]]]. destruct Hs as [Hs1 [_ [Hs3 _]]].
  assert (E1 : 0 < errorCount (deleteLoop secondFails oneGroup threePaths))
    by (vm_compute; lia).
  assert (E0 : errorCount (deleteLoop allSucceed oneGroup threePaths) = 0)
    by reflexivity.
  split; [eexists; split; [reflexivity | exact E1] |].
  split; [reflexivity |].
  split; [apply (Hf4 E1 (listing [file "a.png" (Some "h1")])) |].
  split; [eexists; split; [reflexivity | exact E0] |].
  split; [apply Hs1, E0 |].
  split; [reflexivity |].
  split; [reflexivity |].
  apply (Hs3 E0 (listing [file "a.png" (Some "h1")]) [file "a.png" (Some "h1")]
            eq_refl eq_refl).
Defined.

(** C6.  The content identifier of a request is the one found in the
    groups held in memory, never anything fetched.  A selected path for
    which none is found is passed over with a warning: no request is made
    for it, neither counter moves, and the loop goes on with the paths that
    follow; in the end every selected path is a success, a failure or a
    warning. *)
Theorem unresolved_path_is_skipped_not_counted
  (deleteFile : nat -> string -> string -> completion unit)
  (groups : list DuplicateGroup) :
  (forall total b p,
      truthy (lookupSha groups p) = false ->
      let b' := deleteStep deleteFile groups total b p in
      deletedCount b' = deletedCount b /\ errorCount b' = errorCount b
      /\ lastError b' = lastError b
      /\ trace b' = trace b ++ [ConsoleWarn (warning p)])
  /\ (forall total pre p post b,
        truthy (lookupSha groups p) = false ->
        fold_left (deleteStep deleteFile groups total) (pre ++ p :: post) b
        = fold_left (deleteStep deleteFile groups total) post
            (emit (ConsoleWarn (warning p))
               (fold_left (deleteStep deleteFile groups total) pre b)))
  /\ (forall paths,
        let b := deleteLoop deleteFile groups paths in
        (forall p s, In (p, s) (requests (trace b)) ->
                     In p paths /\ lookupSha groups p = Some s
                     /\ truthy (Some s) = true)
        /\ (forall p, In p paths -> truthy (lookupSha groups p) = false ->
                      forall s, ~ In (p, s) (requests (trace b)))
        /\ warnings (trace b)
           = map warning
               (filter (fun p => negb (truthy (lookupSha groups p))) paths)
        /\ deletedCount b + errorCount b + List.length (warnings (trace b))
           = List.length paths).
Proof.
  split.
  { intros total b p H. cbv zeta. rewrite step_skips by assumption.
    repeat split. }
  split.
  { intros total pre p post b H. rewrite fold_left_app. simpl.
    now rewrite step_skips. }
  intros paths b.
  pose proof (loop_invariant deleteFile groups (List.length paths) paths emptyBatch)
    as H.
  cbv zeta in H. fold (deleteLoop deleteFile groups paths) in H. fold b in H.
  simpl in H. destruct H as [H1 [H2 [H3 [_ H5]]]].
  split.
  { intros p s Hin. rewrite H1 in Hin. now apply resolvable_In. }
  split.
  { intros p Hp Hf s Hin. rewrite H1 in Hin. apply resolvable_In in Hin.
    destruct Hin as [_ [Hl Ht]]. rewrite Hl in Hf. congruence. }
  split; [exact H5 |].
  rewrite H2, H3, H5, succeeded_or_failed, outcomesFrom_length, length_map.
  apply resolvable_length.
Qed.

Lemma unresolved_path_is_skipped_not_counted_witness :
  truthy (lookupSha oneGroup "lumina-exports/ghost.png") = false
  /\ In "lumina-exports/ghost.png" withGhost
  /\ (forall s, ~ In ("lumina-exports/ghost.png", s)
                     (requests (trace (deleteLoop allSucceed oneGroup withGhost))))
  /\ requests (trace (deleteLoop allSucceed oneGroup withGhost))
     = [("lumina-exports/img.png", "h1"); ("lumina-exports/a.png", "h1")]
  /\ deletedCount (deleteLoop allSucceed oneGroup withGhost) = 2
  /\ errorCount (deleteLoop allSucceed oneGroup withGhost) = 0
  /\ warnings (trace (deleteLoop allSucceed oneGroup withGhost))
     = ["Could not find SHA for lumina-exports/ghost.png"].
Proof.
  pose proof (unresolved_path_is_skipped_not_counted allSucceed oneGroup)
    as [_ [_ H]].
  specialize (H withGhost). cbv zeta in H. destruct H as [_ [Hno [Hw _]]].
  assert (Hf : truthy (lookupSha oneGroup "lumina-exports/ghost.png") = false)
    by reflexivity.
  assert (Hin : In "lumina-exports/ghost.png" withGhost)
    by (right; left; reflexivity).
  split; [exact Hf |]. split; [exact Hin |].
  split; [exact (Hno _ Hin Hf) |].
  split; [reflexivity |]. split; [reflexivity |]. split; [reflexivity |].
  rewrite Hw. reflexivity.
Defined.

Lemma includes_scopeHint : includes scopeHint "Not Found" = true.
Proof. reflexivity. Qed.

Lemma deleteVia_message (net : nat -> completion Response)
  (n : nat) (p s : string) (e : JsError) :
  hostErrorsCarryMessage net ->
  deleteVia net n p s = Throw e -> truthy (message e) = true.
Proof.
  intros [Hfetch Hbody]. unfold deleteVia, deleteFileFromGitHub.
  destruct (net n) as [response | e'] eqn:En.
  - destruct (ok response); simpl; [discriminate |].
    destruct (json response) as [[items | msg] | e'] eqn:Ej.
    + intros H. injection H as <-. reflexivity.
    + intros H. injection H as <-. simpl.
      destruct msg as [[| c r] |]; reflexivity.
    + intros H. injection H as <-. exact (Hbody n response e' En Ej).
  - intros H. injection H as <-. exact (Hfetch n e' En).
Qed.

(** C7.  The errors that reach the [catch] clause of [executeDelete] are
    those [deleteFileFromGitHub] throws: for a refusal whose body was read,
    an error made from the remote's message or from "Failed to delete
    file"; otherwise the rejection of the request or of the body reader,
    which carry a message.  For every such failed request the failure
    counter goes up by one and the success counter stays; an error of the
    not-found shape, one whose message contains "Not Found" as the remote
    answers a token without the scope, is kept as the scope hint, which no
    other error yields; every other error is kept with its very message.
    What is kept is the last error message of the report. *)
Theorem failure_is_counted_and_classified
  (net : nat -> completion Response)
  (groups : list DuplicateGroup) (total : nat) (b : Batch) (p s : string)
  (e : JsError) :
  hostErrorsCarryMessage net ->
  lookupSha groups p = Some s -> truthy (Some s) = true ->
  deleteVia net (requestCount b) p s = Throw e ->
  let b' := deleteStep (deleteVia net) groups total b p in
  errorCount b' = errorCount b + 1
  /\ deletedCount b' = deletedCount b
  /\ (exists m,
        message e = Some m /\ m <> ""
        /\ (includes m "Not Found" = true -> lastError b' = scopeHint)
        /\ (includes m "Not Found" = false ->
            lastError b' = m /\ lastError b' <> scopeHint))
  /\ report b'
     = ("Completed with errors. Deleted: " ++ showNat (deletedCount b)
        ++ ". Failed: " ++ showNat (errorCount b + 1)
        ++ ". Last Error: " ++ lastError b')%string.
Proof.
  intros Hhost Hl Ht Hd b'. unfold b'.
  pose proof (deleteVia_message net _ p s e Hhost Hd) as Hm.
  rewrite (step_fails _ _ _ _ _ _ _ Hl Ht Hd).
  simpl. split; [reflexivity |]. split; [reflexivity |].
  split.
  { destruct (message e) as [[| c r] |] eqn:Em; try discriminate.
    exists (String c r). split; [reflexivity |]. split; [discriminate |].
    unfold classify. rewrite Em. split.
    - intros Hi. now rewrite Hi.
    - intros Hi. rewrite Hi. split; [reflexivity |].
      intros Heq. rewrite Heq, includes_scopeHint in Hi. discriminate. }
  unfold report. simpl.
  replace (0 <? errorCount b + 1)%nat with true; [reflexivity |].
  symmetry. apply Nat.ltb_lt. lia.
Qed.

Lemma refusals_carry_message (k : nat) :
  hostErrorsCarryMessage (fun n => refusals (n + k)).
Proof.
  split.
  - intros i e. unfold refusals.
    destruct (i + k =? 0)%nat; [discriminate |].
    intros H. injection H as <-. reflexivity.
  - intros i r e. unfold refusals.
    destruct (i + k =? 0)%nat; [| discriminate].
    intros H. injection H as <-. discriminate.
Qed.

Lemma failure_is_counted_and_classified_witness :
  lookupSha oneGroup "lumina-exports/img.png" = Some "h1"
  /\ truthy (Some "h1") = true
  /\ deleteVia (fun n => refusals (n + 0)) (requestCount emptyBatch)
       "lumina-exports/img.png" "h1"
     = Throw (newError "Not Found")
  /\ deleteVia (fun n => refusals (n + 1)) (requestCount emptyBatch)
       "lumina-exports/img.png" "h1"
     = Throw (newError "Failed to fetch")
  /\ lastError (deleteStep (deleteVia (fun n => refusals (n + 0))) oneGroup 3
                  emptyBatch "lumina-exports/img.png")
     = scopeHint
  /\ errorCount (deleteStep (deleteVia (fun n => refusals (n + 0))) oneGroup 3
                   emptyBatch "lumina-exports/img.png")
     = 1
  /\ lastError (deleteStep (deleteVia (fun n => refusals (n + 1))) oneGroup 3
                  emptyBatch "lumina-exports/img.png")
     = "Failed to fetch".
Proof.
  pose proof (failure_is_counted_and_classified (fun n => refusals (n + 0))
                oneGroup 3 emptyBatch "lumina-exports/img.png" "h1"
                (newError "Not Found")
                (refusals_carry_message 0) eq_refl eq_refl eq_refl) as H.
  pose proof (failure_is_counted_and_classified (fun n => refusals (n + 1))
                oneGroup 3 emptyBatch "lumina-exports/img.png" "h1"
                (newError "Failed to fetch")
                (refusals_carry_message 1) eq_refl eq_refl eq_refl) as G.
  cbv zeta in H, G.
  destruct H as [H1 [_ [[m [Hm [_ [H4 _]]]] _]]].
  destruct G as [_ [_ [[m' [Hm' [_ [_ G5]]]] _]]].
  injection Hm as <-. injection Hm' as <-.
  split; [reflexivity |]. split; [reflexivity |]. split; [reflexivity |].
  split; [reflexivity |].
  split; [apply H4; reflexivity |].
  split; [exact H1 |].
  apply G5. reflexivity.
Defined.

End Executor.

(* ===================================================================== *)
(** ** Records without a content hash                                     *)
(* ===================================================================== *)

Module MissingHash.
Import Js GitHub Cleanup Spec Sample JsFacts GroupingFacts ScanFacts Detector
       Executor.

Lemma twoPairs_well_formed (f : GitHubFile) :
  In f twoPairs -> GitHub.sha f <> None.
Proof.
  intros Hf. simpl in Hf.
  repeat (destruct Hf as [<- | Hf]; [discriminate |]). destruct Hf.
Qed.

(** C8, as the code has it.  On well-formed input, where every record
    carries a content hash as the record type declares, grouping cannot
    fail: a scan whose listing arrived ends with its groups, its selection
    and one of its two result lines; every group has the hash its members
    share, so its label can be shown; no record is left out of grouping, a
    record being in a group exactly when a second record carries its hash;
    and every path marked belongs to a record of the listing.  Of records
    without a hash nothing is said: the code has no filter for them. *)
Theorem grouping_cannot_fail_on_well_formed_input
  (localeCompare : string -> string -> Z) (files : list GitHubFile) :
  (forall f, In f files -> GitHub.sha f <> None) ->
  let dupes := fst (findDuplicates localeCompare files) in
  let toDelete := snd (findDuplicates localeCompare files) in
  (forall st fetched,
      scanRuns st -> getRepoFiles fetched = Normal files ->
      duplicates (handleScan localeCompare st fetched) = dupes
      /\ selectedToDelete (handleScan localeCompare st fetched) = toDelete
      /\ status (handleScan localeCompare st fetched)
         = Some (if (List.length dupes =? 0)%nat
                 then "No duplicates found! Your repo is clean."
                 else ("Found " ++ showNat (List.length dupes)
                       ++ " groups of duplicate images.")%string))
  /\ (forall g, In g dupes ->
        exists h, sha g = Some h
                  /\ shaLabel g = Normal (substring 0 10 h)
                  /\ forall m, In m (Cleanup.files g) ->
                               In m files /\ GitHub.sha m = Some h)
  /\ (forall f, In f files ->
        ((exists g, In g dupes /\ In f (Cleanup.files g))
         <-> 1 < List.length (membersOf (GitHub.sha f) files)))
  /\ (forall p, In p toDelete ->
        exists f, In f files /\ path f = p /\ GitHub.sha f <> None).
Proof.
  intros Hwf dupes toDelete.
  split.
  { intros st fetched Hrun Hfetch.
    destruct (handleScan_result localeCompare st fetched files Hrun Hfetch)
      as [Hd Hs].
    split; [exact Hd |]. split; [exact Hs |].
    rewrite (handleScan_runs _ st fetched Hrun), Hfetch. fold dupes.
    destruct (List.length dupes =? 0)%nat; reflexivity. }
  split.
  { intros g Hg. pose proof Hg as Hshape.
    apply group_shape in Hshape. destruct Hshape as [_ [Hk _]].
    apply in_map_iff in Hk. destruct Hk as [f [Hfk Hf]].
    destruct (sha g) as [h |] eqn:Eg; [| now destruct (Hwf f Hf)].
    exists h. split; [reflexivity |].
    split; [unfold shaLabel; now rewrite Eg |].
    intros m Hm. destruct (group_members _ _ _ _ Hg Hm) as [Hmf Hms].
    split; [assumption | congruence]. }
  split.
  { intros f Hf. split.
    - intros [g [Hg Hin]].
      destruct (group_members _ _ _ _ Hg Hin) as [_ Hk].
      apply group_shape in Hg. destruct Hg as [_ [_ Hl]].
      now rewrite Hk.
    - intros Hl.
      exists {| sha := GitHub.sha f;
                files := sort (compareFiles localeCompare)
                              (membersOf (GitHub.sha f) files) |}.
      split.
      + apply group_shape. simpl. repeat split; [| assumption].
        now apply in_map.
      + simpl. apply sort_In. now apply membersOf_In. }
  intros p Hp. apply selection_In in Hp.
  destruct Hp as [g [m [Hg [Hm Hpm]]]].
  pose proof (In_skipn _ _ _ Hm) as Hmg.
  destruct (group_members _ _ _ _ Hg Hmg) as [Hmf _].
  exists m. repeat split; auto.
Qed.

Lemma grouping_cannot_fail_on_well_formed_input_witness :
  (forall f, In f twoPairs -> GitHub.sha f <> None)
  /\ map shaLabel (fst (findDuplicates codeUnitCompare twoPairs))
     = [Normal "h1"; Normal "h2"]
  /\ In (file "aaa.png" (Some "h1")) twoPairs
  /\ (exists g, In g (fst (findDuplicates codeUnitCompare twoPairs))
                /\ In (file "aaa.png" (Some "h1")) (Cleanup.files g))
  /\ In (file "solo.png" (Some "h3")) twoPairs
  /\ ~ (exists g, In g (fst (findDuplicates codeUnitCompare twoPairs))
                  /\ In (file "solo.png" (Some "h3")) (Cleanup.files g)).
Proof.
  pose proof (grouping_cannot_fail_on_well_formed_input codeUnitCompare twoPairs
                twoPairs_well_formed) as H.
  cbv zeta in H. destruct H as [_ [_ [H _]]].
  assert (Ha : In (file "aaa.png" (Some "h1")) twoPairs)
    by (right; right; left; reflexivity).
  assert (Hs : In (file "solo.png" (Some "h3")) twoPairs)
    by (do 4 right; left; reflexivity).
  split; [exact twoPairs_well_formed |]. split; [reflexivity |].
  split; [exact Ha |].
  split; [apply (H _ Ha); vm_compute; lia |].
  split; [exact Hs |].
  intros Hg. apply (H _ Hs) in Hg. vm_compute in Hg. lia.
Defined.

(** C8 as stated fails: two records without a content hash make up a
    duplicate group, and one of them is marked for deletion.  ([None] is
    the absent property in both records.)  The label of that group cannot
    be shown. *)
Lemma hashless_records_form_a_group :
  GitHub.sha (file "bb.png" None) = None
  /\ In (file "bb.png" None) hashless
  /\ fst (findDuplicates codeUnitCompare hashless)
     = [{| sha := None; files := [file "a.png" None; file "bb.png" None] |}]
  /\ In (path (file "bb.png" None)) (snd (findDuplicates codeUnitCompare hashless))
  /\ ~ (forall f, In f hashless -> GitHub.sha f = None ->
                  (forall g, In g (fst (findDuplicates codeUnitCompare hashless)) ->
                             ~ In f (Cleanup.files g))
                  /\ ~ In (path f) (snd (findDuplicates codeUnitCompare hashless)))
  /\ (forall g, In g (fst (findDuplicates codeUnitCompare hashless)) ->
                forall label, shaLabel g <> Normal label).
Proof.
  assert (Hin : In (file "bb.png" None) hashless) by (right; left; reflexivity).
  assert (Hsel : In (path (file "bb.png" None))
                    (snd (findDuplicates codeUnitCompare hashless)))
    by (left; reflexivity).
  split; [reflexivity |]. split; [exact Hin |]. split; [reflexivity |].
  split; [exact Hsel |].
  split.
  - intros H. destruct (H _ Hin eq_refl) as [_ Hno]. now apply Hno.
  - intros g [<- | []] label. discriminate.
Qed.

End MissingHash.

(* ===================================================================== *)
(** ** The listing of image files                                         *)
(* ===================================================================== *)

Module Listing.
Import Js GitHub Spec Sample.

Lemma split_nonempty (sep : ascii) (s : string) : split sep s <> [].
Proof.
  destruct s as [| c r]; simpl; [discriminate |].
  destruct (Ascii.eqb c sep); [discriminate |].
  destruct (split sep r); discriminate.
Qed.

Lemma pop_cons {A : Type} (x : A) (l : list A) : l <> [] -> pop (x :: l) = pop l.
Proof. destruct l; [congruence | reflexivity]. Qed.

Lemma split_no_dot (s : string) : hasDot s = false -> split "." s = [s].
Proof.
  induction s as [| c r IH]; simpl; [reflexivity |].
  intros H. apply orb_false_iff in H. destruct H as [Hc Hr].
  rewrite Hc, (IH Hr). reflexivity.
Qed.

Lemma split_with_dot (s : string) :
  hasDot s = true -> exists seg x segs, split "." s = seg :: x :: segs.
Proof.
  induction s as [| c r IH]; simpl; [discriminate |].
  destruct (Ascii.eqb c ".") eqn:Hc; simpl.
  - intros _. destruct (split "." r) as [| x segs] eqn:E.
    + now destruct (split_nonempty "." r).
    + eauto.
  - intros Hr. destruct (IH Hr) as [seg [x [segs ->]]]. eauto.
Qed.

Lemma afterLastDot_no_dot (s : string) : hasDot s = false -> afterLastDot s = s.
Proof.
  destruct s as [| c r]; simpl; [reflexivity |].
  intros H. apply orb_false_iff in H. destruct H as [Hc Hr].
  now rewrite Hr, Hc.
Qed.

(** [split('.').pop()] is the text after the last dot. *)
Lemma pop_split_afterLastDot (s : string) :
  pop (split "." s) = Some (afterLastDot s).
Proof.
  induction s as [| c r IH]; [reflexivity |].
  simpl split. simpl afterLastDot.
  destruct (Ascii.eqb c ".") eqn:Hc.
  - rewrite pop_cons by apply split_nonempty. rewrite IH.
    destruct (hasDot r) eqn:Hr; [reflexivity |].
    now rewrite afterLastDot_no_dot.
  - destruct (hasDot r) eqn:Hr.
    + destruct (split_with_dot r Hr) as [seg [x [segs E]]].
      rewrite E in *. rewrite pop_cons by discriminate.
      rewrite pop_cons in IH by discriminate. exact IH.
    + now rewrite (split_no_dot r Hr).
Qed.

Lemma hasDot_app (a b : string) : hasDot (a ++ b) = (hasDot a || hasDot b)%bool.
Proof.
  induction a as [| c r IH]; simpl; [reflexivity |].
  now rewrite IH, orb_assoc.
Qed.

Lemma afterLastDot_suffix (stem ext : string) :
  hasDot ext = false -> afterLastDot (stem ++ "." ++ ext)%string = ext.
Proof.
  intros H. induction stem as [| c r IH]; simpl.
  - now rewrite H.
  - rewrite hasDot_app. simpl. rewrite orb_true_r. exact IH.
Qed.

Lemma isImageFile_spec (filename : string) :
  isImageFile filename = true <->
  In (toLowerCase (afterLastDot filename)) imageExtensions.
Proof.
  unfold isImageFile, extension. rewrite pop_split_afterLastDot. simpl option_map.
  assert (E : orElse (Some (toLowerCase (afterLastDot filename))) ""
              = toLowerCase (afterLastDot filename)).
  { destruct (toLowerCase (afterLastDot filename)); reflexivity. }
  rewrite E, existsb_exists. split.
  - intros [x [Hx He]]. apply String.eqb_eq in He. now subst.
  - intros H. eexists. split; [exact H | apply String.eqb_refl].
Qed.

(** C10.  From a listing that arrived as an array, [getRepoFiles] returns,
    in their order, exactly the entries whose type is 'file' and whose
    extension is one of jpg, jpeg, png, gif, webp, bmp, svg, the extension
    being the lowercased text after the last dot of the name (the whole name
    when it has no dot); from an answer that is not an array it returns the
    empty list.  No directory and no other file reaches the detector. *)
Theorem getRepoFiles_returns_image_files_only :
  (forall t data,
      exists files,
        getRepoFiles (Normal {| ok := true; statusText := t;
                                json := Normal (JArray data) |})
        = Normal files
        /\ files = filter (fun f => (String.eqb (type f) "file"
                                     && isImageFile (name f))%bool) data
        /\ forall f, In f files <->
                     In f data /\ type f = "file"
                     /\ In (toLowerCase (afterLastDot (name f))) imageExtensions)
  /\ (forall t msg,
        getRepoFiles (Normal {| ok := true; statusText := t;
                                json := Normal (JObject msg) |})
        = Normal [])
  /\ (forall filename, extension filename = Some (toLowerCase (afterLastDot filename)))
  /\ (forall stem ext, hasDot ext = false ->
                       afterLastDot (stem ++ "." ++ ext)%string = ext)
  /\ (forall filename, hasDot filename = false -> afterLastDot filename = filename)
  /\ getRepoFiles
       (listing [file "a.PNG" (Some "h1");
                 {| name := "sub.png"; type := "dir"; download_url := "";
                    GitHub.sha := Some "h2"; path := "lumina-exports/sub.png" |};
                 file "notes.txt" (Some "h3"); file "b.tar.jpeg" (Some "h4")])
     = Normal [file "a.PNG" (Some "h1"); file "b.tar.jpeg" (Some "h4")].
Proof.
  split.
  { intros t data. eexists. split; [reflexivity |]. split; [reflexivity |].
    intros f. rewrite filter_In, andb_true_iff, String.eqb_eq, isImageFile_spec.
    reflexivity. }
  split; [reflexivity |].
  split.
  { intros filename. unfold extension. now rewrite pop_split_afterLastDot. }
  split; [apply afterLastDot_suffix |].
  split; [apply afterLastDot_no_dot |].
  reflexivity.
Qed.

Lemma getRepoFiles_returns_image_files_only_witness :
  hasDot "jpeg" = false
  /\ afterLastDot "b.tar.jpeg" = "jpeg"
  /\ hasDot "README" = false
  /\ afterLastDot "README" = "README"
  /\ getRepoFiles (listing [file "README" (Some "h1"); file "b.tar.jpeg" (Some "h4")])
     = Normal [file "b.tar.jpeg" (Some "h4")].
Proof.
  pose proof getRepoFiles_returns_image_files_only as [H1 [_ [_ [H4 [H5 _]]]]].
  destruct (H1 "OK" [file "README" (Some "h1"); file "b.tar.jpeg" (Some "h4")])
    as [files [Hf [Hfiles _]]].
  split; [reflexivity |].
  split; [exact (H4 "b.tar" "jpeg" eq_refl) |].
  split; [reflexivity |].
  split; [exact (H5 "README" eq_refl) |].
  unfold listing. rewrite Hf, Hfiles. reflexivity.
Defined.

End Listing.

(* ===================================================================== *)
(** ** The repair of a generated scene                                    *)
(* ===================================================================== *)

Module SceneRepair.
Import Js Babylon BabylonScene SceneSpec Sample.

Lemma runUserCode_scene (program : Program) (r : Refs) :
  sceneRef (fst (runUserCode program r)) = Some (fst (settle (program newScene))).
Proof.
  unfold runUserCode. destruct (settle (program newScene)). reflexivity.
Qed.

(** C9 against the code.  The repair of camera and light is done only
    after a program that returned.  A program that makes a mesh and then
    throws is left with its mesh alone: no active camera and no light, so
    nothing of the scene can be displayed.  A program that throws at once
    gets the marker and the fixed camera but no light.  A program that
    throws [null] gets nothing at all, the [catch] clause failing before
    its fallback.  The same programs, had they returned, would have been
    given both camera and light. *)
Lemma thrown_program_gets_no_light :
  snd (meshThenThrow newScene) = Throws (ThrownValue (newError "boom"))
  /\ option_map activeCamera (sceneRef (fst (runUserCode meshThenThrow ready)))
     = Some None
  /\ option_map lights (sceneRef (fst (runUserCode meshThenThrow ready)))
     = Some []
  /\ snd (throwsAtOnce newScene) = Throws (ThrownValue (newError "boom"))
  /\ option_map meshes (sceneRef (fst (runUserCode throwsAtOnce ready)))
     = Some [errorBox]
  /\ option_map activeCamera (sceneRef (fst (runUserCode throwsAtOnce ready)))
     = Some (Some (fixedCamera "ErrorCam"))
  /\ option_map lights (sceneRef (fst (runUserCode throwsAtOnce ready))) = Some []
  /\ snd (throwsNull newScene) = Throws ThrownNullish
  /\ sceneRef (fst (runUserCode throwsNull ready)) = Some newScene
  /\ snd (runUserCode throwsNull ready) = [ConsoleError ThrownNullish]
  /\ option_map activeCamera (sceneRef (fst (runUserCode emptyProgram ready)))
     = Some (Some (fixedCamera "FallbackCamera"))
  /\ option_map lights (sceneRef (fst (runUserCode emptyProgram ready)))
     = Some [fallbackLight].
Proof. repeat split. Qed.

End SceneRepair.

(* ===================================================================== *)
(** ** Facts about splitting, joining and trimming                        *)
(* ===================================================================== *)

Module TextFacts.
Import Js JsText.

Lemma split_not_nil (sep : ascii) (s : string) : split sep s <> [].
Proof.
  destruct s as [| c r]; simpl; [discriminate |].
  destruct (Ascii.eqb c sep); [discriminate |].
  destruct (split sep r); discriminate.
Qed.

Lemma split_no_sep (sep : ascii) (s : string) :
  hasChar sep s = false -> split sep s = [s].
Proof.
  induction s as [| c r IH]; simpl; [reflexivity |].
  intros H. apply orb_false_iff in H. destruct H as [Hc Hr].
  rewrite Hc, (IH Hr). reflexivity.
Qed.

Lemma split_app_sep (sep : ascii) (a b : string) :
  hasChar sep a = false ->
  split sep (a ++ String sep b) = a :: split sep b.
Proof.
  induction a as [| c r IH]; simpl.
  - intros _. now rewrite Ascii.eqb_refl.
  - intros H. apply orb_false_iff in H. destruct H as [Hc Hr].
    rewrite Hc, (IH Hr). reflexivity.
Qed.

Lemma split_clean (sep : ascii) (s : string) :
  Forall (fun seg => hasChar sep seg = false) (split sep s).
Proof.
  induction s as [| c r IH]; simpl.
  - constructor; [reflexivity | constructor].
  - destruct (Ascii.eqb c sep) eqn:Hc.
    + constructor; [reflexivity | assumption].
    + destruct (split sep r) as [| seg segs].
      * constructor; [simpl; now rewrite Hc | constructor].
      * inversion IH; subst. constructor; [simpl; now rewrite Hc | assumption].
Qed.

Lemma join_cons (sep x : string) (y : string) (l : list string) :
  join sep (x :: y :: l) = (x ++ sep ++ join sep (y :: l))%string.
Proof. reflexivity. Qed.

(** Joining what was split gives the text back. *)
Lemma join_split (sep : ascii) (s : string) :
  join (String sep "") (split sep s) = s.
Proof.
  induction s as [| c r IH]; simpl; [reflexivity |].
  destruct (Ascii.eqb c sep) eqn:Hc.
  - apply Ascii.eqb_eq in Hc. subst c.
    destruct (split sep r) as [| y l] eqn:E.
    + now destruct (split_not_nil sep r).
    + rewrite join_cons, IH. reflexivity.
  - destruct (split sep r) as [| seg segs] eqn:E.
    + now destruct (split_not_nil sep r).
    + destruct segs as [| y l].
      * simpl in *. now rewrite IH.
      * rewrite join_cons in *. simpl in *. now rewrite IH.
Qed.

(** Splitting what was joined gives the segments back. *)
Lemma split_join (sep : ascii) (segs : list string) :
  segs <> [] -> Forall (fun seg => hasChar sep seg = false) segs ->
  split sep (join (String sep "") segs) = segs.
Proof.
  induction segs as [| x l IH]; [congruence |].
  intros _ H. inversion H as [| ? ? Hx Hl]; subst.
  destruct l as [| y l'].
  - simpl. now apply split_no_sep.
  - rewrite join_cons. simpl append. rewrite split_app_sep by assumption.
    f_equal. apply IH; [discriminate | assumption].
Qed.

Lemma hasChar_app (c : ascii) (a b : string) :
  hasChar c (a ++ b) = (hasChar c a || hasChar c b)%bool.
Proof.
  induction a as [| x r IH]; simpl; [reflexivity |].
  now rewrite IH, orb_assoc.
Qed.

Lemma split_length (sep : ascii) (s : string) :
  List.length (split sep s) = S (occurrences sep s).
Proof.
  induction s as [| c r IH]; simpl; [reflexivity |].
  destruct (Ascii.eqb c sep); simpl.
  - now rewrite IH.
  - destruct (split sep r); simpl in *; lia.
Qed.

Lemma occurrences_app (c : ascii) (a b : string) :
  occurrences c (a ++ b) = occurrences c a + occurrences c b.
Proof.
  induction a as [| x r IH]; simpl; [reflexivity |]. rewrite IH. lia.
Qed.

Lemma append_nil_r (s : string) : (s ++ "")%string = s.
Proof. induction s as [| c r IH]; simpl; [reflexivity | now rewrite IH]. Qed.

Lemma append_assoc (a b c : string) :
  ((a ++ b) ++ c)%string = (a ++ (b ++ c))%string.
Proof. induction a as [| x r IH]; simpl; [reflexivity | now rewrite IH]. Qed.

Lemma trimEnd_idem (s : string) : trimEnd (trimEnd s) = trimEnd s.
Proof.
  induction s as [| c r IH]; simpl; [reflexivity |].
  destruct (trimEnd r) as [| c' r'] eqn:E.
  - destruct (isSpace c) eqn:Hc; simpl; [reflexivity |]. now rewrite Hc.
  - simpl in *. now rewrite IH.
Qed.

Lemma trimEnd_head (c : ascii) (r : string) :
  isSpace c = false -> exists r', trimEnd (String c r) = String c r'.
Proof.
  intros H. simpl. destruct (trimEnd r); rewrite ?H; eauto.
Qed.

Lemma trimStart_result (s : string) :
  trimStart s = EmptyString
  \/ exists c r, trimStart s = String c r /\ isSpace c = false.
Proof.
  induction s as [| c r IH]; simpl; [now left |].
  destruct (isSpace c) eqn:Hc; [assumption |]. right. eauto.
Qed.

Lemma trim_idem (s : string) : trim (trim s) = trim s.
Proof.
  unfold trim. destruct (trimStart_result s) as [E | [c [r [E Hc]]]]; rewrite E.
  - reflexivity.
  - destruct (trimEnd_head c r Hc) as [r' E']. rewrite E'.
    simpl trimStart. rewrite Hc. rewrite <- E'. apply trimEnd_idem.
Qed.

End TextFacts.

(* ===================================================================== *)
(** ** More about the cleanup dialog                                      *)
(* ===================================================================== *)

Module CleanupMore.
Import Js JsText GitHub Cleanup Spec MoreSpec Sample JsFacts GroupingFacts
       ScanFacts Detector Executor MissingHash TextFacts.

Lemma truthy_nonempty (s : string) : truthy (Some s) = true <-> s <> "".
Proof. destruct s; simpl; split; congruence. Qed.

(** [parseRepo] accepts exactly the texts with one slash and something but
    white space on either side of it, and returns the two sides trimmed;
    a text without a slash, or with more than one, is refused.  What it
    returns it accepts again, unchanged. *)
Theorem parseRepo_accepts_owner_slash_repo (str : string) :
  (forall owner repo,
      parseRepo str = Some (owner, repo) ->
      exists a b,
        str = (a ++ "/" ++ b)%string
        /\ hasChar "/" a = false /\ hasChar "/" b = false
        /\ owner = trim a /\ repo = trim b
        /\ owner <> "" /\ repo <> ""
        /\ trim owner = owner /\ trim repo = repo)
  /\ (forall a b,
        hasChar "/" a = false -> hasChar "/" b = false ->
        trim a <> "" -> trim b <> "" ->
        parseRepo (a ++ "/" ++ b) = Some (trim a, trim b))
  /\ (hasChar "/" str = false -> parseRepo str = None)
  /\ (forall a b c, parseRepo (a ++ "/" ++ b ++ "/" ++ c) = None)
  /\ (forall owner repo,
        parseRepo str = Some (owner, repo) ->
        hasChar "/" owner = false -> hasChar "/" repo = false ->
        parseRepo (owner ++ "/" ++ repo) = Some (owner, repo)).
Proof.
  assert (Hsome : forall owner repo,
             parseRepo str = Some (owner, repo) ->
             exists a b,
               str = (a ++ "/" ++ b)%string
               /\ hasChar "/" a = false /\ hasChar "/" b = false
               /\ owner = trim a /\ repo = trim b
               /\ owner <> "" /\ repo <> ""
               /\ trim owner = owner /\ trim repo = repo).
  { intros owner repo. unfold parseRepo.
    pose proof (join_split "/" str) as Hj. pose proof (split_clean "/" str) as Hc.
    destruct (split "/" str) as [| p0 [| p1 [| p2 l]]]; try discriminate.
    destruct (truthy (Some (trim p0))) eqn:T0; [| discriminate].
    destruct (truthy (Some (trim p1))) eqn:T1; [| discriminate].
    simpl. intros H. injection H as <- <-.
    pose proof (Forall_inv Hc) as C0.
    pose proof (Forall_inv (Forall_inv_tail Hc)) as C1. simpl in C0, C1.
    exists p0, p1. rewrite <- Hj. rewrite !trim_idem.
    apply truthy_nonempty in T0, T1. repeat split; assumption. }
  assert (Hpair : forall a b,
             hasChar "/" a = false -> hasChar "/" b = false ->
             trim a <> "" -> trim b <> "" ->
             parseRepo (a ++ "/" ++ b) = Some (trim a, trim b)).
  { intros a b Ha Hb Ta Tb. unfold parseRepo.
    change (a ++ "/" ++ b)%string with (a ++ String "/" b)%string.
    rewrite split_app_sep, (split_no_sep "/" b) by assumption.
    apply truthy_nonempty in Ta, Tb. now rewrite Ta, Tb. }
  split; [exact Hsome |]. split; [exact Hpair |].
  split.
  { intros H. unfold parseRepo. now rewrite split_no_sep. }
  split.
  { intros a b c. unfold parseRepo.
    assert (Ho : 2 <= occurrences "/" (a ++ "/" ++ b ++ "/" ++ c)).
    { rewrite !occurrences_app. simpl. lia. }
    pose proof (split_length "/" (a ++ "/" ++ b ++ "/" ++ c)) as Hl.
    destruct (split "/" (a ++ "/" ++ b ++ "/" ++ c)) as [| p0 [| p1 [| p2 l]]];
      try reflexivity. simpl List.length in Hl. lia. }
  intros owner repo H Ho Hr.
  destruct (Hsome owner repo H) as [a [b [_ [_ [_ [_ [_ [No [Nr [To Tr]]]]]]]]]].
  rewrite <- To at 2. rewrite <- Tr at 2.
  apply Hpair; try assumption; congruence.
Qed.

Lemma parseRepo_accepts_owner_slash_repo_witness :
  hasChar "/" " jaymacmac " = false /\ hasChar "/" " pics" = false
  /\ trim " jaymacmac " <> "" /\ trim " pics" <> ""
  /\ parseRepo " jaymacmac / pics" = Some ("jaymacmac", "pics")
  /\ hasChar "/" "jaymacmac" = false
  /\ parseRepo "jaymacmac" = None
  /\ parseRepo "jaymacmac/pics" = Some ("jaymacmac", "pics").
Proof.
  pose proof (parseRepo_accepts_owner_slash_repo " jaymacmac / pics")
    as [_ [H2 [_ [_ H5]]]].
  pose proof (parseRepo_accepts_owner_slash_repo "jaymacmac") as [_ [_ [H3 _]]].
  assert (T1 : trim " jaymacmac " <> "") by (vm_compute; discriminate).
  assert (T2 : trim " pics" <> "") by (vm_compute; discriminate).
  split; [reflexivity |]. split; [reflexivity |].
  split; [exact T1 |]. split; [exact T2 |].
  split; [exact (H2 " jaymacmac " " pics" eq_refl eq_refl T1 T2) |].
  split; [reflexivity |].
  split; [exact (H3 eq_refl) |].
  exact (H5 "jaymacmac" "pics" (H2 " jaymacmac " " pics" eq_refl eq_refl T1 T2)
           eq_refl eq_refl).
Defined.

Lemma set_has_add (p q : string) (s : StringSet) :
  set_has q (set_add p s) = (String.eqb q p || set_has q s)%bool.
Proof.
  apply eq_true_iff_eq. rewrite orb_true_iff, !set_has_In, set_add_In.
  now rewrite String.eqb_eq.
Qed.

Lemma set_has_delete (p q : string) (s : StringSet) :
  set_has q (set_delete p s) = (negb (String.eqb q p) && set_has q s)%bool.
Proof.
  apply eq_true_iff_eq. rewrite andb_true_iff, negb_true_iff, !set_has_In.
  unfold set_delete. rewrite filter_In, negb_true_iff, String.eqb_sym. tauto.
Qed.

Lemma set_delete_absent (p : string) (s : StringSet) :
  set_has p s = false -> set_delete p s = s.
Proof.
  intros H. unfold set_delete. induction s as [| x r IH]; [reflexivity |].
  simpl in *. apply orb_false_iff in H. destruct H as [Hx Hr].
  rewrite String.eqb_sym in Hx. rewrite String.eqb_sym, Hx. simpl.
  rewrite String.eqb_sym in Hx. f_equal. now apply IH.
Qed.

Lemma set_delete_snoc (p : string) (s : StringSet) :
  set_has p s = false -> set_delete p (s ++ [p]) = s.
Proof.
  intros H. unfold set_delete. rewrite filter_app. simpl.
  rewrite String.eqb_refl. simpl. rewrite app_nil_r.
  now apply set_delete_absent.
Qed.

(** Toggling a path flips its membership in the selection and that of no
    other path, whatever group they belong to; the groups are not touched;
    it keeps the selection free of repetitions; toggling twice gives back
    the same selected paths, and the very same state when the path was not
    selected before. *)
Theorem toggleSelection_flips_one_path (p : string) (st : State) :
  let st' := toggleSelection p st in
  set_has p (selectedToDelete st') = negb (set_has p (selectedToDelete st))
  /\ (forall q, q <> p ->
        set_has q (selectedToDelete st') = set_has q (selectedToDelete st))
  /\ duplicates st' = duplicates st
  /\ (NoDup (selectedToDelete st) -> NoDup (selectedToDelete st'))
  /\ (forall q, set_has q (selectedToDelete (toggleSelection p st'))
                = set_has q (selectedToDelete st))
  /\ (set_has p (selectedToDelete st) = false -> toggleSelection p st' = st).
Proof.
  assert (Hflip : forall s q,
             set_has q (if set_has p s then set_delete p s else set_add p s)
             = if String.eqb q p then negb (set_has p s) else set_has q s).
  { intros s q. destruct (set_has p s) eqn:E.
    - rewrite set_has_delete. destruct (String.eqb q p) eqn:Q; reflexivity.
    - rewrite set_has_add. destruct (String.eqb q p) eqn:Q; [reflexivity |].
      reflexivity. }
  cbv zeta. unfold toggleSelection. simpl.
  split.
  { rewrite Hflip. now rewrite String.eqb_refl. }
  split.
  { intros q Hq. rewrite Hflip. apply String.eqb_neq in Hq. now rewrite Hq. }
  split; [reflexivity |].
  split.
  { intros Hnd. destruct (set_has p (selectedToDelete st)).
    - now apply NoDup_filter.
    - now apply set_add_NoDup. }
  split.
  { intros q. rewrite !Hflip. destruct (String.eqb q p) eqn:Q.
    - apply String.eqb_eq in Q. subst q. rewrite String.eqb_refl.
      apply negb_involutive.
    - reflexivity. }
  intros H. rewrite H. unfold set_add at 1. rewrite H.
  assert (Hin : set_has p (selectedToDelete st ++ [p]) = true).
  { apply set_has_In. apply in_app_iff. right. now left. }
  unfold set_add. rewrite H, Hin, (set_delete_snoc p _ H).
  destruct st. reflexivity.
Qed.

Lemma toggleSelection_flips_one_path_witness :
  NoDup (selectedToDelete confirmed)
  /\ NoDup (selectedToDelete (toggleSelection "lumina-exports/a.png" confirmed))
  /\ set_has "lumina-exports/ghost.png" (selectedToDelete confirmed) = false
  /\ toggleSelection "lumina-exports/ghost.png"
       (toggleSelection "lumina-exports/ghost.png" confirmed) = confirmed
  /\ set_has "lumina-exports/img.png"
       (selectedToDelete (toggleSelection "lumina-exports/a.png" confirmed))
     = set_has "lumina-exports/img.png" (selectedToDelete confirmed).
Proof.
  pose proof (toggleSelection_flips_one_path "lumina-exports/a.png" confirmed)
    as [_ [H2 [_ [H4 _]]]].
  pose proof (toggleSelection_flips_one_path "lumina-exports/ghost.png" confirmed)
    as [_ [_ [_ [_ [_ H6]]]]].
  assert (Hnd : NoDup (selectedToDelete confirmed)).
  { repeat (constructor; [simpl; intuition discriminate |]). constructor. }
  split; [exact Hnd |]. split; [exact (H4 Hnd) |].
  split; [reflexivity |]. split; [exact (H6 eq_refl) |].
  apply H2. discriminate.
Defined.

Lemma membersOf_cons (k : option string) (f : GitHubFile) (l : list GitHubFile) :
  membersOf k (f :: l) =
  if sameValueZero (GitHub.sha f) k then f :: membersOf k l else membersOf k l.
Proof. reflexivity. Qed.

(** The hashes of a listing are pairwise distinct exactly when no hash has
    more than one record. *)
Lemma distinct_hashes_singletons (files : list GitHubFile) :
  NoDup (map GitHub.sha files) <->
  forall k, List.length (membersOf k files) <= 1.
Proof.
  induction files as [| f r IH]; simpl map.
  - split; [intros _ k; simpl; lia | intros _; constructor].
  - rewrite NoDup_cons_iff, IH. split.
    + intros [Hf Hr] k. rewrite membersOf_cons.
      destruct (sameValueZero (GitHub.sha f) k) eqn:E; [| apply Hr].
      apply sameValueZero_eq in E. subst k.
      rewrite (membersOf_unseen _ r Hf). simpl. lia.
    + intros H. split.
      * intros Hin. apply in_map_iff in Hin. destruct Hin as [f' [Hs Hf']].
        specialize (H (GitHub.sha f)). rewrite membersOf_cons in H.
        rewrite sameValueZero_refl in H.
        assert (Hm : In f' (membersOf (GitHub.sha f) r))
          by (apply membersOf_In; auto).
        destruct (membersOf (GitHub.sha f) r); [destruct Hm | simpl in H; lia].
      * intros k. specialize (H k). rewrite membersOf_cons in H.
        destruct (sameValueZero (GitHub.sha f) k); simpl in H; lia.
Qed.

Lemma populous_hash_is_listed (files : list GitHubFile) (k : option string) :
  0 < List.length (membersOf k files) -> In k (map GitHub.sha files).
Proof.
  intros H. destruct (membersOf k files) as [| f r] eqn:E; [simpl in H; lia |].
  assert (Hf : In f (membersOf k files)) by (rewrite E; now left).
  apply membersOf_In in Hf. destruct Hf as [Hf <-]. now apply in_map.
Qed.

Section Scans.
Variable localeCompare : string -> string -> Z.

Lemma group_of_populous_hash (files : list GitHubFile) (k : option string) :
  1 < List.length (membersOf k files) ->
  In {| sha := k;
        files := sort (compareFiles localeCompare) (membersOf k files) |}
     (fst (findDuplicates localeCompare files)).
Proof.
  intros H. apply group_shape. simpl. repeat split; [| assumption].
  apply populous_hash_is_listed. lia.
Qed.

Lemma no_groups_iff (files : list GitHubFile) :
  fst (findDuplicates localeCompare files) = [] <->
  NoDup (map GitHub.sha files).
Proof.
  rewrite distinct_hashes_singletons. split.
  - intros H k. destruct (Nat.le_gt_cases (List.length (membersOf k files)) 1)
      as [Hle | Hgt]; [assumption |].
    pose proof (group_of_populous_hash files k Hgt) as Hin.
    rewrite H in Hin. destruct Hin.
  - intros H. destruct (fst (findDuplicates localeCompare files)) as [| g l] eqn:E;
      [reflexivity |].
    assert (Hg : In g (fst (findDuplicates localeCompare files)))
      by (rewrite E; now left).
    apply group_shape in Hg. destruct Hg as [_ [_ Hl]].
    specialize (H (sha g)). lia.
Qed.

(** A listing's hashes are pairwise distinct exactly when the scan finds no
    group; then nothing is selected and the scan reports a clean repo.
    With any repeated hash there is a group and the report counts them. *)
Theorem no_groups_iff_distinct_hashes (files : list GitHubFile) :
  (fst (findDuplicates localeCompare files) = [] <->
   NoDup (map GitHub.sha files))
  /\ (NoDup (map GitHub.sha files) ->
      findDuplicates localeCompare files = ([], [])
      /\ forall st fetched,
          scanRuns st -> getRepoFiles fetched = Normal files ->
          duplicates (handleScan localeCompare st fetched) = []
          /\ selectedToDelete (handleScan localeCompare st fetched) = []
          /\ status (handleScan localeCompare st fetched)
             = Some "No duplicates found! Your repo is clean.")
  /\ (~ NoDup (map GitHub.sha files) ->
      forall st fetched,
        scanRuns st -> getRepoFiles fetched = Normal files ->
        status (handleScan localeCompare st fetched)
        = Some ("Found "
                ++ showNat (List.length (fst (findDuplicates localeCompare files)))
                ++ " groups of duplicate images.")%string
        /\ 0 < List.length (fst (findDuplicates localeCompare files))).
Proof.
  split; [apply no_groups_iff |].
  split.
  - intros Hnd. apply no_groups_iff in Hnd.
    assert (Hsel : snd (findDuplicates localeCompare files) = []).
    { rewrite findDuplicates_selection, Hnd. reflexivity. }
    split.
    + rewrite (surjective_pairing (findDuplicates localeCompare files)).
      now rewrite Hnd, Hsel.
    + intros st fetched Hrun Hf.
      rewrite (handleScan_runs _ st fetched Hrun), Hf, Hnd, Hsel. simpl.
      repeat split.
  - intros Hd st fetched Hrun Hf.
    rewrite (handleScan_runs _ st fetched Hrun), Hf.
    destruct (fst (findDuplicates localeCompare files)) as [| g l] eqn:E.
    + exfalso. apply Hd. now apply no_groups_iff.
    + simpl. split; [reflexivity | lia].
Qed.

Lemma two_distinct_members {A : Type} (l : list A) (a b : A) :
  In a l -> In b l -> a <> b -> 1 < List.length l.
Proof.
  destruct l as [| x [| y r]]; simpl; intros Ha Hb Hne; [destruct Ha | | lia].
  destruct Ha as [<- | []], Hb as [<- | []]. congruence.
Qed.

Lemma GitHubFile_eq_dec (a b : GitHubFile) : {a = b} + {a <> b}.
Proof.
  decide equality; try apply string_dec.
  decide equality. apply string_dec.
Qed.

Lemma another_member (l : list GitHubFile) (a : GitHubFile) :
  NoDup l -> 1 < List.length l -> exists b, In b l /\ b <> a.
Proof.
  destruct l as [| x [| y r]]; simpl; try lia.
  intros Hnd _. inversion Hnd as [| ? ? Hx _]; subst.
  destruct (GitHubFile_eq_dec x a) as [-> | Hxa].
  - exists y. split; [auto |]. intros ->. apply Hx. now left.
  - exists x. auto.
Qed.

(** A record of the listing is in a duplicate group exactly when another
    record of the listing has the same content hash; the group it is in is
    the one of its hash, it is in no other, and every member of a group is
    a record of the listing with the group's hash. *)
Theorem in_a_group_iff_it_has_a_twin (files : list GitHubFile) (f : GitHubFile) :
  NoDup files -> In f files ->
  ((exists g, In g (fst (findDuplicates localeCompare files))
              /\ In f (Cleanup.files g))
   <-> exists f', In f' files /\ f' <> f /\ GitHub.sha f' = GitHub.sha f)
  /\ (forall g g',
        In g (fst (findDuplicates localeCompare files)) ->
        In g' (fst (findDuplicates localeCompare files)) ->
        In f (Cleanup.files g) -> In f (Cleanup.files g') -> g = g')
  /\ (forall g m,
        In g (fst (findDuplicates localeCompare files)) ->
        In m (Cleanup.files g) -> In m files /\ GitHub.sha m = sha g)
  /\ NoDup (map sha (fst (findDuplicates localeCompare files))).
Proof.
  intros Hnd Hf. split.
  { split.
    - intros [g [Hg Hin]].
      destruct (group_members _ _ _ _ Hg Hin) as [_ Hk].
      apply group_shape in Hg. destruct Hg as [_ [_ Hl]].
      destruct (another_member (membersOf (sha g) files) f) as [b [Hb Hne]];
        [now apply NoDup_filter | assumption |].
      apply membersOf_In in Hb. destruct Hb as [Hb Hs].
      exists b. repeat split; congruence.
    - intros [f' [Hf' [Hne Hs]]].
      exists {| sha := GitHub.sha f;
                files := sort (compareFiles localeCompare)
                           (membersOf (GitHub.sha f) files) |}.
      split.
      + apply group_of_populous_hash.
        apply (two_distinct_members _ f' f); [| | assumption];
          apply membersOf_In; auto.
      + simpl. apply sort_In. apply membersOf_In. auto. }
  split.
  { intros g g' Hg Hg' Hin Hin'. eapply group_by_key; eauto.
    destruct (group_members _ _ _ _ Hg Hin) as [_ <-].
    destruct (group_members _ _ _ _ Hg' Hin') as [_ <-]. reflexivity. }
  split.
  { intros g m Hg Hm. eapply group_members; eauto. }
  rewrite findDuplicates_groups. unfold duplicateGroups.
  rewrite map_map. simpl. rewrite map_id.
  apply NoDup_filter, firstSeen_NoDup.
Qed.

End Scans.

Lemma twoPairs_NoDup : NoDup twoPairs.
Proof.
  apply (NoDup_map_inv path).
  repeat (constructor; [simpl; intuition discriminate |]). constructor.
Qed.

Lemma no_groups_iff_distinct_hashes_witness :
  NoDup (map GitHub.sha [file "a.png" (Some "h1"); file "b.png" (Some "h2")])
  /\ findDuplicates codeUnitCompare
       [file "a.png" (Some "h1"); file "b.png" (Some "h2")] = ([], [])
  /\ ~ NoDup (map GitHub.sha twoPairs)
  /\ scanRuns (idle [] [])
  /\ getRepoFiles (listing twoPairs) = Normal twoPairs
  /\ status (handleScan codeUnitCompare (idle [] []) (listing twoPairs))
     = Some "Found 2 groups of duplicate images.".
Proof.
  pose proof (no_groups_iff_distinct_hashes codeUnitCompare
                [file "a.png" (Some "h1"); file "b.png" (Some "h2")])
    as [_ [H2 _]].
  pose proof (no_groups_iff_distinct_hashes codeUnitCompare twoPairs)
    as [_ [_ H3]].
  assert (N1 : NoDup (map GitHub.sha
                        [file "a.png" (Some "h1"); file "b.png" (Some "h2")])).
  { repeat (constructor; [simpl; intuition discriminate |]). constructor. }
  assert (N2 : ~ NoDup (map GitHub.sha twoPairs)).
  { intros H. apply (no_groups_iff codeUnitCompare) in H. discriminate H. }
  assert (Hrun : scanRuns (idle [] [])).
  { split; [reflexivity | vm_compute; discriminate]. }
  split; [exact N1 |]. split; [exact (proj1 (H2 N1)) |].
  split; [exact N2 |]. split; [exact Hrun |]. split; [reflexivity |].
  exact (proj1 (H3 N2 (idle [] []) (listing twoPairs) Hrun eq_refl)).
Defined.

Lemma in_a_group_iff_it_has_a_twin_witness :
  NoDup twoPairs
  /\ In (file "bbb.png" (Some "h1")) twoPairs
  /\ (exists g, In g (fst (findDuplicates codeUnitCompare twoPairs))
                /\ In (file "bbb.png" (Some "h1")) (Cleanup.files g)).
Proof.
  assert (Hin : In (file "bbb.png" (Some "h1")) twoPairs) by (left; reflexivity).
  pose proof (in_a_group_iff_it_has_a_twin codeUnitCompare twoPairs
                (file "bbb.png" (Some "h1")) twoPairs_NoDup Hin) as [H _].
  split; [exact twoPairs_NoDup |]. split; [exact Hin |].
  apply H. exists (file "aaa.png" (Some "h1")).
  split; [right; right; left; reflexivity |].
  split; [discriminate | reflexivity].
Defined.

Lemma lookupSha_found (groups : list DuplicateGroup) (g : DuplicateGroup)
  (f : GitHubFile) :
  In g groups -> In f (files g) ->
  exists g' m, In g' groups /\ In m (files g') /\ path m = path f
               /\ lookupSha groups (path f) = GitHub.sha m.
Proof.
  induction groups as [| g0 r IH]; simpl; [intros [] |].
  intros Hg Hf.
  destruct (find (fun x => String.eqb (path x) (path f)) (files g0)) as [m |] eqn:E.
  - apply find_some in E. destruct E as [Hm Hp]. apply String.eqb_eq in Hp.
    exists g0, m. auto.
  - destruct Hg as [-> | Hg].
    + pose proof (find_none _ _ E f Hf) as H. simpl in H.
      rewrite String.eqb_refl in H. discriminate.
    + destruct (IH Hg Hf) as [g' [m [Hg' [Hm [Hp Hl]]]]].
      exists g', m. auto.
Qed.

Lemma add_all_fresh {A : Type} (f : A -> string) (l : list A) (s : StringSet) :
  NoDup (s ++ map f l) ->
  fold_left (fun s a => set_add (f a) s) l s = s ++ map f l.
Proof.
  revert s. induction l as [| a r IH]; intros s H; simpl.
  - now rewrite app_nil_r.
  - assert (Ha : set_has (f a) s = false).
    { destruct (set_has (f a) s) eqn:E; [| reflexivity].
      apply set_has_In in E. simpl in H. apply NoDup_remove_2 in H.
      exfalso. apply H. apply in_app_iff. now left. }
    unfold set_add at 2. rewrite Ha. rewrite IH.
    + now rewrite <- app_assoc.
    + now rewrite <- app_assoc.
Qed.

Lemma NoDup_map_on {A B : Type} (f : A -> B) (l : list A) :
  NoDup l -> (forall a b, In a l -> In b l -> f a = f b -> a = b) ->
  NoDup (map f l).
Proof.
  induction 1 as [| x r Hx Hr IH]; intros Hinj; simpl; constructor.
  - intros Hin. apply in_map_iff in Hin. destruct Hin as [y [Hy Hin]].
    assert (y = x) by (apply Hinj; [now right | now left | assumption]).
    subst y. contradiction.
  - apply IH. intros a b Ha Hb. apply Hinj; now right.
Qed.

Lemma NoDup_flat_map {A B : Type} (F : A -> list B) (ks : list A) :
  NoDup ks -> (forall k, In k ks -> NoDup (F k)) ->
  (forall k k' x, In k ks -> In k' ks -> In x (F k) -> In x (F k') -> k = k') ->
  NoDup (flat_map F ks).
Proof.
  induction 1 as [| k r Hk Hr IH]; intros Hnd Hdisj; simpl; [constructor |].
  apply NoDup_app.
  - apply Hnd. now left.
  - apply IH.
    + intros k' Hk'. apply Hnd. now right.
    + intros a b x Ha Hb. apply Hdisj; now right.
  - intros x Hx Hin. apply in_flat_map in Hin. destruct Hin as [k' [Hk' Hx']].
    assert (k = k') by (apply (Hdisj k k' x); auto; [now left | now right]).
    subst k'. contradiction.
Qed.

Lemma NoDup_skipn {A : Type} (n : nat) (l : list A) : NoDup l -> NoDup (skipn n l).
Proof.
  revert l. induction n as [| n IH]; intros l H; [assumption |].
  destruct l as [| x r]; [constructor |]. simpl. apply IH. now inversion H.
Qed.

Section Batches.
Variable localeCompare : string -> string -> Z.

Lemma group_NoDup (files : list GitHubFile) (g : DuplicateGroup) :
  NoDup files -> In g (fst (findDuplicates localeCompare files)) ->
  NoDup (Cleanup.files g).
Proof.
  intros Hnd Hg. apply group_shape in Hg. destruct Hg as [-> _]. simpl.
  eapply Permutation_NoDup; [symmetry; apply sort_perm |].
  now apply NoDup_filter.
Qed.

Lemma redundant_In (files : list GitHubFile) (m : GitHubFile) :
  In m (redundant (fst (findDuplicates localeCompare files))) ->
  exists g, In g (fst (findDuplicates localeCompare files))
            /\ In m (deleteCandidates g) /\ In m (Cleanup.files g)
            /\ In m files /\ GitHub.sha m = sha g.
Proof.
  unfold redundant. intros H. apply in_flat_map in H.
  destruct H as [g [Hg Hm]]. exists g.
  pose proof (In_skipn _ _ _ Hm) as Hmg.
  destruct (group_members _ _ _ _ Hg Hmg). auto.
Qed.

Lemma redundant_NoDup (files : list GitHubFile) :
  NoDup files -> NoDup (redundant (fst (findDuplicates localeCompare files))).
Proof.
  intros Hnd. unfold redundant. apply NoDup_flat_map.
  - rewrite findDuplicates_groups. unfold duplicateGroups.
    apply NoDup_map_on.
    + apply NoDup_filter, firstSeen_NoDup.
    + intros a b _ _ H. now injection H.
  - intros g Hg. apply NoDup_skipn. now apply group_NoDup with (files := files).
  - intros g g' x Hg Hg' Hx Hx'.
    destruct (group_members _ _ _ _ Hg (In_skipn _ _ _ Hx)) as [_ E].
    destruct (group_members _ _ _ _ Hg' (In_skipn _ _ _ Hx')) as [_ E'].
    eapply group_by_key; eauto. congruence.
Qed.

Lemma selection_is_redundant_paths (files : list GitHubFile) :
  NoDup (map path files) ->
  snd (findDuplicates localeCompare files)
  = map path (redundant (fst (findDuplicates localeCompare files))).
Proof.
  intros Hnd. rewrite findDuplicates_selection.
  rewrite add_all_fresh; [reflexivity |]. simpl.
  apply NoDup_map_on.
  - apply redundant_NoDup. eapply NoDup_map_inv; eassumption.
  - intros a b Ha Hb Hp.
    destruct (redundant_In _ _ Ha) as [_ [_ [_ [_ [Ha' _]]]]].
    destruct (redundant_In _ _ Hb) as [_ [_ [_ [_ [Hb' _]]]]].
    eapply In_same_image; eauto.
Qed.

Lemma lookupSha_member (files : list GitHubFile) (g : DuplicateGroup)
  (f : GitHubFile) :
  NoDup (map path files) ->
  In g (fst (findDuplicates localeCompare files)) -> In f (Cleanup.files g) ->
  lookupSha (fst (findDuplicates localeCompare files)) (path f) = GitHub.sha f.
Proof.
  intros Hnd Hg Hf.
  destruct (lookupSha_found _ _ _ Hg Hf) as [g' [m [Hg' [Hm [Hp ->]]]]].
  destruct (group_members _ _ _ _ Hg Hf) as [Hff _].
  destruct (group_members _ _ _ _ Hg' Hm) as [Hmf _].
  f_equal. eapply In_same_image; eauto.
Qed.

Lemma resolvable_members (groups : list DuplicateGroup) (l : list GitHubFile) :
  (forall f, In f l -> lookupSha groups (path f) = GitHub.sha f
                       /\ truthy (GitHub.sha f) = true) ->
  resolvable groups (map path l)
  = map (fun f => (path f, show (GitHub.sha f))) l.
Proof.
  induction l as [| f r IH]; intros H; [reflexivity |].
  unfold resolvable in *. simpl.
  destruct (H f (or_introl eq_refl)) as [Hl Ht]. rewrite Hl.
  destruct (GitHub.sha f) as [[| c s] |]; try discriminate.
  simpl. f_equal. apply IH. intros x Hx. apply H. now right.
Qed.

Lemma all_resolved (groups : list DuplicateGroup) (paths : list string) :
  (forall p, In p paths -> truthy (lookupSha groups p) = true) ->
  filter (fun p => negb (truthy (lookupSha groups p))) paths = [].
Proof.
  induction paths as [| p r IH]; intros H; [reflexivity |].
  simpl. rewrite (H p (or_introl eq_refl)). simpl.
  apply IH. intros q Hq. apply H. now right.
Qed.

Lemma all_succeed_outcomes deleteFile (n : nat) (reqs : list (string * string)) :
  (forall n p s, deleteFile n p s = Normal tt) ->
  List.length (filter succeeded (outcomesFrom deleteFile n reqs)) = List.length reqs
  /\ List.length (filter failed (outcomesFrom deleteFile n reqs)) = 0.
Proof.
  intros H. revert n. induction reqs as [| [p s] r IH]; intros n; simpl.
  - auto.
  - rewrite H. unfold failed. simpl. destruct (IH (S n)) as [-> E].
    unfold failed in E. auto.
Qed.

Lemma deleteLoop_facts deleteFile (groups : list DuplicateGroup)
  (paths : list string) :
  let b := deleteLoop deleteFile groups paths in
  let outs := outcomesFrom deleteFile 0 (resolvable groups paths) in
  requests (trace b) = resolvable groups paths
  /\ deletedCount b = List.length (filter succeeded outs)
  /\ errorCount b = List.length (filter failed outs)
  /\ lastError b = lastFailure "" outs
  /\ warnings (trace b)
     = map warning (filter (fun p => negb (truthy (lookupSha groups p))) paths).
Proof.
  pose proof (loop_invariant deleteFile groups (List.length paths) paths emptyBatch)
    as H.
  cbv zeta in *. simpl in H. exact H.
Qed.

Lemma redundant_length (groups : list DuplicateGroup) :
  (forall g, In g groups -> 1 < List.length (Cleanup.files g)) ->
  List.length (redundant groups) + List.length groups
  = List.length (flat_map Cleanup.files groups).
Proof.
  induction groups as [| g r IH]; intros H; [reflexivity |].
  unfold redundant in *. simpl. rewrite !length_app.
  pose proof (H g (or_introl eq_refl)) as Hg.
  unfold deleteCandidates at 1. rewrite length_skipn.
  rewrite <- IH by (intros x Hx; apply H; now right). lia.
Qed.

(** With paths unique in the listing and a content identifier on every
    record, the selection a scan proposes is the list of the paths of the
    redundant members, and executing it sends exactly one request for each
    of them, in that order, carrying that member's own identifier; nothing
    is skipped and no keep member is ever requested.  The selection has as
    many paths as the groups have members, less one for each group; when
    every request succeeds that is the number reported as deleted. *)
Theorem default_selection_is_requested_member_by_member
  (files : list GitHubFile)
  (deleteFile : nat -> string -> string -> completion unit) :
  NoDup (map path files) ->
  (forall f, In f files -> truthy (GitHub.sha f) = true) ->
  let dupes := fst (findDuplicates localeCompare files) in
  let toDelete := snd (findDuplicates localeCompare files) in
  let b := deleteLoop deleteFile dupes toDelete in
  toDelete = map path (redundant dupes)
  /\ (forall g f, In g dupes -> In f (Cleanup.files g) ->
                  lookupSha dupes (path f) = GitHub.sha f)
  /\ requests (trace b)
     = map (fun f => (path f, show (GitHub.sha f))) (redundant dupes)
  /\ warnings (trace b) = []
  /\ (forall g k s, In g dupes -> keep g = Some k ->
                    ~ In (path k, s) (requests (trace b)))
  /\ List.length toDelete + List.length dupes
     = List.length (flat_map Cleanup.files dupes)
  /\ ((forall n p s, deleteFile n p s = Normal tt) ->
      deletedCount b = List.length toDelete /\ errorCount b = 0).
Proof.
  intros Hnd Hsha dupes toDelete b.
  assert (Hsel : toDelete = map path (redundant dupes))
    by (apply selection_is_redundant_paths; assumption).
  assert (Hlook : forall g f, In g dupes -> In f (Cleanup.files g) ->
                              lookupSha dupes (path f) = GitHub.sha f).
  { intros g f Hg Hf. now apply lookupSha_member with (g := g). }
  assert (Hred : forall f, In f (redundant dupes) ->
                           lookupSha dupes (path f) = GitHub.sha f
                           /\ truthy (GitHub.sha f) = true).
  { intros f Hf. destruct (redundant_In _ _ Hf) as [g [Hg [_ [Hfg [Hff _]]]]].
    split; [now apply Hlook with (g := g) | now apply Hsha]. }
  assert (Hres : resolvable dupes toDelete
                 = map (fun f => (path f, show (GitHub.sha f))) (redundant dupes)).
  { rewrite Hsel. now apply resolvable_members. }
  assert (Hall : forall p, In p toDelete -> truthy (lookupSha dupes p) = true).
  { intros p Hp. rewrite Hsel in Hp. apply in_map_iff in Hp.
    destruct Hp as [f [<- Hf]]. destruct (Hred f Hf) as [-> Ht]. exact Ht. }
  pose proof (deleteLoop_facts deleteFile dupes toDelete) as H.
  cbv zeta in H. fold b in H. destruct H as [H1 [H2 [H3 [_ H5]]]].
  split; [exact Hsel |]. split; [exact Hlook |].
  split; [now rewrite H1 |].
  split; [rewrite H5, all_resolved by assumption; reflexivity |].
  split.
  { intros g k s Hg Hk Hin. rewrite H1 in Hin. apply resolvable_In in Hin.
    destruct Hin as [Hp _]. revert Hp.
    now apply keep_not_selected with (g := g). }
  split.
  { rewrite Hsel, length_map. apply redundant_length.
    intros g Hg. apply group_shape in Hg. destruct Hg as [Hg [_ Hl]].
    rewrite Hg. simpl. now rewrite sort_length. }
  intros Hok.
  destruct (all_succeed_outcomes deleteFile 0 (resolvable dupes toDelete) Hok)
    as [Es Ef].
  rewrite H2, H3, Es, Ef, Hres, length_map, Hsel, length_map. auto.
Qed.

Lemma filter_swap {A : Type} (p q : A -> bool) (l : list A) :
  filter p (filter q l) = filter q (filter p l).
Proof.
  induction l as [| x r IH]; [reflexivity |]. simpl.
  destruct (p x) eqn:P, (q x) eqn:Q; simpl; rewrite ?P, ?Q, IH; reflexivity.
Qed.

Lemma filter_length_le {A : Type} (p : A -> bool) (l : list A) :
  List.length (filter p l) <= List.length l.
Proof.
  induction l as [| x r IH]; simpl; [lia |]. destruct (p x); simpl; lia.
Qed.

Lemma filter_split_length {A : Type} (p : A -> bool) (l : list A) :
  List.length (filter (fun x => negb (p x)) l) + List.length (filter p l)
  = List.length l.
Proof.
  induction l as [| x r IH]; simpl; [reflexivity |].
  destruct (p x); simpl; lia.
Qed.

Lemma all_the_same {A : Type} (l : list A) (a : A) :
  NoDup l -> (forall x, In x l -> x = a) -> List.length l <= 1.
Proof.
  destruct l as [| x [| y r]]; simpl; try lia.
  intros Hnd H. inversion Hnd as [| ? ? Hx _]; subst.
  exfalso. apply Hx. left. rewrite (H x), (H y); auto.
Qed.

Lemma remaining_members (files : list GitHubFile) (k : option string) :
  NoDup (map path files) ->
  List.length
    (membersOf k
       (filter (fun f => negb (set_has (path f)
                                 (snd (findDuplicates localeCompare files))))
               files)) <= 1.
Proof.
  intros Hnd. unfold membersOf. rewrite filter_swap.
  fold (membersOf k files).
  destruct (Nat.le_gt_cases (List.length (membersOf k files)) 1) as [Hle | Hgt].
  { etransitivity; [apply filter_length_le | exact Hle]. }
  pose proof (group_of_populous_hash localeCompare files k Hgt) as Hg.
  assert (Hfiles : NoDup files) by (eapply NoDup_map_inv; eassumption).
  pose proof (group_NoDup files _ Hfiles Hg) as Hgn. simpl in Hgn.
  destruct (sort (compareFiles localeCompare) (membersOf k files))
    as [| h t] eqn:E.
  { pose proof (sort_length (compareFiles localeCompare) (membersOf k files)) as L.
    rewrite E in L. simpl in L. lia. }
  apply (all_the_same _ h).
  - apply NoDup_filter. now apply NoDup_filter.
  - intros x Hx. apply filter_In in Hx. destruct Hx as [Hx Hkeep].
    assert (Hxs : In x (h :: t)).
    { rewrite <- E. now apply sort_In. }
    destruct Hxs as [-> | Hxt]; [reflexivity |].
    exfalso. apply negb_true_iff in Hkeep.
    assert (Hsel : set_has (path x) (snd (findDuplicates localeCompare files)) = true).
    { apply set_has_In. apply selection_In.
      eexists. exists x. split; [exact Hg |]. split; [| reflexivity].
      unfold deleteCandidates. simpl. exact Hxt. }
    congruence.
Qed.

(** Taking the proposed selection out of a listing (paths unique) leaves a
    listing in which a scan finds no duplicates, and no content is lost:
    each content hash of the listing is still there, once; every keep
    member stays; the records left and the paths selected add up to the
    listing. *)
Theorem removing_the_selection_leaves_each_hash_once (files : list GitHubFile) :
  NoDup (map path files) ->
  let dupes := fst (findDuplicates localeCompare files) in
  let toDelete := snd (findDuplicates localeCompare files) in
  let remaining := filter (fun f => negb (set_has (path f) toDelete)) files in
  findDuplicates localeCompare remaining = ([], [])
  /\ NoDup (map GitHub.sha remaining)
  /\ (forall k, In k (map GitHub.sha files) <-> In k (map GitHub.sha remaining))
  /\ (forall g k, In g dupes -> keep g = Some k -> In k remaining)
  /\ List.length remaining + List.length toDelete = List.length files.
Proof.
  intros Hnd dupes toDelete remaining.
  assert (Hfiles : NoDup files) by (eapply NoDup_map_inv; eassumption).
  assert (Hone : NoDup (map GitHub.sha remaining)).
  { apply distinct_hashes_singletons. intros k. now apply remaining_members. }
  assert (Hkeep : forall g k, In g dupes -> keep g = Some k -> In k remaining).
  { intros g k Hg Hk. apply filter_In. split.
    - apply (group_members localeCompare files g k Hg).
      unfold keep in Hk. destruct (Cleanup.files g); [discriminate |].
      injection Hk as ->. now left.
    - apply negb_true_iff.
      destruct (set_has (path k) toDelete) eqn:E; [| reflexivity].
      apply set_has_In in E. exfalso. revert E.
      now apply keep_not_selected with (g := g). }
  split.
  { pose proof (no_groups_iff localeCompare remaining) as [_ H].
    rewrite (surjective_pairing (findDuplicates localeCompare remaining)).
    rewrite findDuplicates_selection, (H Hone). reflexivity. }
  split; [exact Hone |].
  split.
  { intros k. split.
    - intros Hk.
      destruct (Nat.le_gt_cases (List.length (membersOf k files)) 1) as [Hle | Hgt].
      + apply in_map_iff in Hk. destruct Hk as [f [Hs Hf]].
        apply in_map_iff. exists f. split; [assumption |].
        apply filter_In. split; [assumption |]. apply negb_true_iff.
        destruct (set_has (path f) toDelete) eqn:E; [| reflexivity].
        apply set_has_In in E. apply selection_In in E.
        destruct E as [g [m [Hg [Hm Hp]]]].
        destruct (group_members _ _ _ _ Hg (In_skipn _ _ _ Hm)) as [Hmf Hms].
        assert (m = f) by (apply (In_same_image path files); assumption). subst m.
        apply group_shape in Hg. destruct Hg as [_ [_ Hl]].
        rewrite <- Hms, Hs in Hl. lia.
      + pose proof (group_of_populous_hash localeCompare files k Hgt) as Hg.
        destruct (sort (compareFiles localeCompare) (membersOf k files))
          as [| h t] eqn:E.
        { pose proof (sort_length (compareFiles localeCompare) (membersOf k files))
            as L. rewrite E in L. simpl in L. lia. }
        assert (Hh : In h remaining).
        { apply (Hkeep _ h Hg). reflexivity. }
        apply in_map_iff. exists h. split; [| assumption].
        assert (Hhm : In h (membersOf k files)).
        { apply (sort_In (compareFiles localeCompare)). rewrite E. now left. }
        now apply membersOf_In in Hhm.
    - intros Hk. apply in_map_iff in Hk. destruct Hk as [f [Hs Hf]].
      apply filter_In in Hf. apply in_map_iff. exists f. tauto. }
  split; [exact Hkeep |].
  unfold remaining. rewrite <- (filter_split_length
                                 (fun f => set_has (path f) toDelete) files).
  f_equal.
  assert (Hsel : toDelete = map path (redundant dupes))
    by (apply selection_is_redundant_paths; assumption).
  rewrite Hsel at 1. rewrite length_map.
  apply Permutation_length, NoDup_Permutation.
  - now apply redundant_NoDup.
  - now apply NoDup_filter.
  - intros x. rewrite filter_In, set_has_In. split.
    + intros Hx. destruct (redundant_In _ _ Hx) as [_ [_ [_ [_ [Hxf _]]]]].
      split; [assumption |]. unfold toDelete. rewrite selection_is_redundant_paths
        by assumption. now apply in_map.
    + intros [Hxf Hp]. unfold toDelete in Hp.
      rewrite selection_is_redundant_paths in Hp by assumption.
      apply in_map_iff in Hp. destruct Hp as [m [Hp Hm]].
      destruct (redundant_In _ _ Hm) as [_ [_ [_ [_ [Hmf _]]]]].
      assert (m = x) by (apply (In_same_image path files); assumption). now subst m.
Qed.

Lemma getRepoFiles_throws (fetched : completion Response) (e : JsError) :
  getRepoFiles fetched = Throw e <->
  fetched = Throw e
  \/ (exists r, fetched = Normal r /\ ok r = false
                /\ e = newError ("Failed to fetch repo contents: " ++ statusText r))
  \/ (exists r, fetched = Normal r /\ ok r = true /\ json r = Throw e).
Proof.
  unfold getRepoFiles. destruct fetched as [r | e'].
  - destruct (ok r) eqn:Hok; simpl.
    + destruct (json r) as [[items | msg] | e'] eqn:Hj; split;
        try discriminate.
      * intros [H | [[r' [H [H' _]]] | [r' [H [_ H']]]]]; try discriminate.
        -- injection H as <-. congruence.
        -- injection H as <-. congruence.
      * intros [H | [[r' [H [H' _]]] | [r' [H [_ H']]]]]; try discriminate.
        -- injection H as <-. congruence.
        -- injection H as <-. congruence.
      * intros H. injection H as <-. right. right. exists r. auto.
      * intros [H | [[r' [H [H' _]]] | [r' [H [_ H']]]]]; try discriminate.
        -- injection H as <-. congruence.
        -- injection H as <-. congruence.
    + split.
      * intros H. injection H as <-. right. left. exists r. auto.
      * intros [H | [[r' [H [_ H']]] | [r' [H [H' _]]]]]; try discriminate.
        -- injection H as <-. now subst e.
        -- injection H as <-. congruence.
  - split.
    + intros H. injection H as <-. now left.
    + intros [H | [[r' [H _]] | [r' [H _]]]]; try discriminate. congruence.
Qed.

(** A scan whose listing request fails, be it the network, a refusal of
    the remote or an unreadable answer, leaves no group and no selection on
    screen and shows the error; this holds for the refresh scan after a
    clean batch too, so a failed refresh empties the view.  The listing
    fails in exactly those three ways. *)
Theorem failed_listing_clears_the_view
  (st : State) (fetched : completion Response) (e : JsError) :
  scanRuns st -> getRepoFiles fetched = Throw e ->
  let st' := handleScan localeCompare st fetched in
  duplicates st' = [] /\ selectedToDelete st' = []
  /\ status st' = Some ("Error: " ++ show (message e))%string
  /\ isScanning st' = false /\ showConfirm st' = false
  /\ (forall deleteFile b,
        batch (executeDelete deleteFile st) = Some b -> errorCount b = 0 ->
        duplicates (afterTimeout localeCompare (executeDelete deleteFile st) fetched)
        = []
        /\ status (afterTimeout localeCompare (executeDelete deleteFile st) fetched)
           = Some ("Error: " ++ show (message e))%string)
  /\ (fetched = Throw e
      \/ (exists r, fetched = Normal r /\ ok r = false
                    /\ e = newError ("Failed to fetch repo contents: "
                                     ++ statusText r))
      \/ (exists r, fetched = Normal r /\ ok r = true /\ json r = Throw e)).
Proof.
  intros Hrun Hf st'. unfold st'.
  rewrite (handleScan_runs _ st fetched Hrun), Hf. simpl.
  repeat (split; [reflexivity |]).
  split; [| now apply getRepoFiles_throws].
  intros deleteFile b Hb He.
  destruct (executeDelete_batch _ _ _ Hb) as [Hs [Hr Hbb]].
  unfold afterTimeout. rewrite executeDelete_runs by assumption. cbv zeta.
  rewrite <- Hbb, He. simpl rescanScheduled. cbv iota. simpl state.
  rewrite handleScan_runs.
  - rewrite Hf. simpl. split; reflexivity.
  - destruct Hrun as [Ht Hp]. split; assumption.
Qed.

End Batches.

Lemma twoPairs_paths : NoDup (map path twoPairs).
Proof.
  repeat (constructor; [simpl; intuition discriminate |]). constructor.
Qed.

Lemma twoPairs_hashes : forall f, In f twoPairs -> truthy (GitHub.sha f) = true.
Proof.
  intros f [<- | [<- | [<- | [<- | [<- | []]]]]]; reflexivity.
Qed.

Lemma default_selection_is_requested_member_by_member_witness :
  NoDup (map path twoPairs)
  /\ (forall f, In f twoPairs -> truthy (GitHub.sha f) = true)
  /\ (forall n p s, allSucceed n p s = Normal tt)
  /\ requests (trace (deleteLoop allSucceed
                        (fst (findDuplicates codeUnitCompare twoPairs))
                        (snd (findDuplicates codeUnitCompare twoPairs))))
     = [("lumina-exports/bbb.png", "h1"); ("lumina-exports/dd.png", "h2")]
  /\ deletedCount (deleteLoop allSucceed
                     (fst (findDuplicates codeUnitCompare twoPairs))
                     (snd (findDuplicates codeUnitCompare twoPairs)))
     = 2.
Proof.
  pose proof (default_selection_is_requested_member_by_member codeUnitCompare
                twoPairs allSucceed twoPairs_paths twoPairs_hashes) as H.
  cbv zeta in H. destruct H as [_ [_ [H3 [_ [_ [_ H7]]]]]].
  split; [exact twoPairs_paths |]. split; [exact twoPairs_hashes |].
  split; [reflexivity |].
  split; [rewrite H3; reflexivity |].
  destruct (H7 (fun _ _ _ => eq_refl)) as [-> _]. reflexivity.
Defined.

Lemma removing_the_selection_leaves_each_hash_once_witness :
  NoDup (map path twoPairs)
  /\ findDuplicates codeUnitCompare
       (filter (fun f => negb (set_has (path f)
                                 (snd (findDuplicates codeUnitCompare twoPairs))))
               twoPairs)
     = ([], [])
  /\ List.length
       (filter (fun f => negb (set_has (path f)
                                 (snd (findDuplicates codeUnitCompare twoPairs))))
               twoPairs)
     + List.length (snd (findDuplicates codeUnitCompare twoPairs))
     = 5.
Proof.
  pose proof (removing_the_selection_leaves_each_hash_once codeUnitCompare
                twoPairs twoPairs_paths) as H.
  cbv zeta in H. destruct H as [H1 [_ [_ [_ H5]]]].
  split; [exact twoPairs_paths |]. split; [exact H1 |]. exact H5.
Defined.

Lemma failed_listing_clears_the_view_witness :
  scanRuns confirmed
  /\ getRepoFiles (Normal {| ok := false; statusText := "Unauthorized";
                             json := Normal (JObject None) |})
     = Throw (newError "Failed to fetch repo contents: Unauthorized")
  /\ duplicates (handleScan codeUnitCompare confirmed
                   (Normal {| ok := false; statusText := "Unauthorized";
                              json := Normal (JObject None) |}))
     = []
  /\ batch (executeDelete allSucceed confirmed)
     = Some (deleteLoop allSucceed oneGroup threePaths)
  /\ errorCount (deleteLoop allSucceed oneGroup threePaths) = 0
  /\ status (afterTimeout codeUnitCompare (executeDelete allSucceed confirmed)
               (Normal {| ok := false; statusText := "Unauthorized";
                          json := Normal (JObject None) |}))
     = Some "Error: Failed to fetch repo contents: Unauthorized".
Proof.
  assert (Hrun : scanRuns confirmed).
  { split; [reflexivity | vm_compute; discriminate]. }
  pose proof (failed_listing_clears_the_view codeUnitCompare confirmed
                (Normal {| ok := false; statusText := "Unauthorized";
                           json := Normal (JObject None) |})
                (newError "Failed to fetch repo contents: Unauthorized")
                Hrun eq_refl) as H.
  cbv zeta in H. destruct H as [H1 [_ [_ [_ [_ [H6 _]]]]]].
  split; [exact Hrun |]. split; [reflexivity |]. split; [exact H1 |].
  split; [reflexivity |]. split; [reflexivity |].
  exact (proj2 (H6 allSucceed _ eq_refl eq_refl)).
Defined.

(** [executeDelete] never changes the groups, the selection or the
    inputs.  With nothing selected it does nothing at all; with a repo text
    that does not parse it shows "Invalid repository format.", issues no
    request and leaves the confirmation open; in both cases no refresh is
    scheduled, whatever the remote would answer.  Whenever it got past the
    first guard it ends not deleting, and after a batch the confirmation is
    closed. *)
Theorem executeDelete_guards_and_frame
  (deleteFile : nat -> string -> string -> completion unit) (st : State) :
  let o := executeDelete deleteFile st in
  duplicates (state o) = duplicates st
  /\ selectedToDelete (state o) = selectedToDelete st
  /\ token (state o) = token st /\ repoStr (state o) = repoStr st
  /\ folderPath (state o) = folderPath st
  /\ isScanning (state o) = isScanning st
  /\ (selectedToDelete st = [] ->
      o = {| state := st; batch := None; rescanScheduled := false |})
  /\ (selectedToDelete st <> [] -> isDeleting (state o) = false)
  /\ (selectedToDelete st <> [] -> parseRepo (repoStr st) = None ->
      batch o = None /\ rescanScheduled o = false
      /\ status (state o) = Some "Invalid repository format."
      /\ showConfirm (state o) = showConfirm st)
  /\ (batch o = None -> forall deleteFile', executeDelete deleteFile' st = o)
  /\ (forall b, batch o = Some b ->
                showConfirm (state o) = false
                /\ status (state o) = Some (report b)).
Proof.
  cbv zeta. unfold executeDelete.
  destruct (selectedToDelete st) as [| p r] eqn:Hs; simpl.
  - repeat split; intros; try reflexivity; try congruence; try discriminate.
  - destruct (parseRepo (repoStr st)) as [[owner repo] |] eqn:Hp; simpl;
      repeat split; intros; try reflexivity; try congruence; try discriminate.
Qed.

Lemma executeDelete_guards_and_frame_witness :
  selectedToDelete (idle oneGroup []) = []
  /\ executeDelete secondFails (idle oneGroup [])
     = {| state := idle oneGroup []; batch := None; rescanScheduled := false |}
  /\ selectedToDelete (setStatus "x" confirmed) <> []
  /\ isDeleting (state (executeDelete secondFails (setStatus "x" confirmed))) = false
  /\ batch (executeDelete secondFails confirmed)
     = Some (deleteLoop secondFails oneGroup threePaths)
  /\ showConfirm (state (executeDelete secondFails confirmed)) = false.
Proof.
  pose proof (executeDelete_guards_and_frame secondFails (idle oneGroup []))
    as [_ [_ [_ [_ [_ [_ [H7 _]]]]]]].
  pose proof (executeDelete_guards_and_frame secondFails (setStatus "x" confirmed))
    as [_ [_ [_ [_ [_ [_ [_ [H8 _]]]]]]]].
  pose proof (executeDelete_guards_and_frame secondFails confirmed)
    as [_ [_ [_ [_ [_ [_ [_ [_ [_ [_ H11]]]]]]]]]].
  assert (N : selectedToDelete (setStatus "x" confirmed) <> []) by discriminate.
  split; [reflexivity |]. split; [exact (H7 eq_refl) |].
  split; [exact N |]. split; [exact (H8 N) |].
  split; [reflexivity |]. exact (proj1 (H11 _ eq_refl)).
Defined.

Lemma succeeded_accepted (answer : completion Response) :
  succeeded (deleteFileFromGitHub answer) = accepted answer.
Proof.
  destruct answer as [r | e]; simpl; [| reflexivity].
  destruct (ok r); simpl; [reflexivity |].
  destruct (json r) as [[items | msg] | e]; reflexivity.
Qed.

Lemma outcomes_via (net : nat -> completion Response) (k : nat)
  (reqs : list (string * string)) :
  outcomesFrom (deleteVia net) k reqs
  = map (fun i => deleteFileFromGitHub (net i)) (seq k (List.length reqs)).
Proof.
  revert k. induction reqs as [| [p s] r IH]; intros k; simpl; [reflexivity |].
  now rewrite IH.
Qed.

Lemma filter_map_length {A B : Type} (f : A -> B) (p : B -> bool) (l : list A) :
  List.length (filter p (map f l)) = List.length (filter (fun x => p (f x)) l).
Proof.
  induction l as [| x r IH]; simpl; [reflexivity |].
  destruct (p (f x)); simpl; now rewrite IH.
Qed.

(** In a batch run through [deleteFileFromGitHub] the deletions counted are
    the requests answered with an ok status and the failures are all the
    others.  A refusal whose body is read as an object is thrown with the
    message of the remote, or with "Failed to delete file" when it gives
    none or an empty one, as is a body that is an array; a "Not Found" of
    the remote becomes the scope hint.  A refusal whose body cannot be read
    passes the reader's error on, and a request that fails its own.  So an
    error without a message, the one reported as "Unknown error", can only
    be one of these two, and there is none when the host's errors carry a
    message. *)
Theorem refused_delete_surfaces_the_remote_message
  (net : nat -> completion Response) (groups : list DuplicateGroup)
  (paths : list string) :
  let b := deleteLoop (deleteVia net) groups paths in
  let n := List.length (resolvable groups paths) in
  deletedCount b = List.length (filter (fun i => accepted (net i)) (seq 0 n))
  /\ errorCount b
     = List.length (filter (fun i => negb (accepted (net i))) (seq 0 n))
  /\ (forall response msg,
        ok response = false -> json response = Normal (JObject msg) ->
        let m := orElse msg "Failed to delete file" in
        deleteFileFromGitHub (Normal response) = Throw (newError m)
        /\ m <> ""
        /\ classify (newError m)
           = (if includes m "Not Found" then scopeHint else m)
        /\ (msg = Some "Not Found" -> classify (newError m) = scopeHint)
        /\ (msg = None -> classify (newError m) = "Failed to delete file"))
  /\ (forall response,
        ok response = true -> deleteFileFromGitHub (Normal response) = Normal tt)
  /\ (forall response items,
        ok response = false -> json response = Normal (JArray items) ->
        deleteFileFromGitHub (Normal response)
        = Throw (newError "Failed to delete file"))
  /\ (forall response e,
        ok response = false -> json response = Throw e ->
        deleteFileFromGitHub (Normal response) = Throw e)
  /\ (forall e, deleteFileFromGitHub (Throw e) = Throw e)
  /\ (forall fetched e,
        deleteFileFromGitHub fetched = Throw e ->
        truthy (message e) = false ->
        classify e = "Unknown error"
        /\ (fetched = Throw e
            \/ exists response,
                 fetched = Normal response /\ ok response = false
                 /\ json response = Throw e))
  /\ (hostErrorsCarryMessage net ->
      forall i p s e,
        deleteVia net i p s = Throw e ->
        exists m,
          message e = Some m /\ m <> ""
          /\ classify e = (if includes m "Not Found" then scopeHint else m)).
Proof.
  intros b n.
  pose proof (deleteLoop_facts (deleteVia net) groups paths) as H.
  cbv zeta in H. fold b in H. destruct H as [_ [H2 [H3 _]]].
  rewrite outcomes_via in H2, H3. fold n in H2, H3.
  split.
  { rewrite H2, filter_map_length. f_equal. apply filter_ext.
    intros i. apply succeeded_accepted. }
  split.
  { rewrite H3, filter_map_length. f_equal. apply filter_ext.
    intros i. unfold failed. now rewrite succeeded_accepted. }
  split.
  { intros response msg Hok Hj m. unfold deleteFileFromGitHub.
    rewrite Hok, Hj. simpl.
    assert (Hm : m <> "").
    { unfold m. destruct msg as [[| c r] |]; discriminate. }
    split; [reflexivity |]. split; [exact Hm |].
    assert (Hc : classify (newError m)
                 = if includes m "Not Found" then scopeHint else m).
    { unfold classify. simpl. destruct m; [congruence | reflexivity]. }
    split; [exact Hc |]. split.
    - intros ->. reflexivity.
    - intros ->. reflexivity. }
  split.
  { intros response Hok. unfold deleteFileFromGitHub. now rewrite Hok. }
  split.
  { intros response items Hok Hj. unfold deleteFileFromGitHub.
    now rewrite Hok, Hj. }
  split.
  { intros response e Hok Hj. unfold deleteFileFromGitHub.
    now rewrite Hok, Hj. }
  split; [reflexivity |].
  split.
  { intros fetched e Hd Hm. split.
    - unfold classify. destruct (message e) as [[| c r] |];
        reflexivity || discriminate.
    - unfold deleteFileFromGitHub in Hd.
      destruct fetched as [response | e']; [| left; congruence].
      destruct (ok response) eqn:Hok; simpl in Hd; [discriminate |].
      destruct (json response) as [[items | msg] | e'] eqn:Hj.
      + injection Hd as <-. discriminate.
      + injection Hd as <-. simpl in Hm.
        destruct msg as [[| c r] |]; discriminate.
      + injection Hd as <-. right. exists response. auto. }
  intros Hhost i p s e Hd.
  pose proof (deleteVia_message net i p s e Hhost Hd) as Hm.
  destruct (message e) as [[| c r] |] eqn:Em; try discriminate.
  exists (String c r). split; [reflexivity |]. split; [discriminate |].
  unfold classify. now rewrite Em.
Qed.

Lemma refused_delete_surfaces_the_remote_message_witness :
  ok {| ok := false; statusText := "Not Found";
        json := Normal (JObject (Some "Not Found")) |} = false
  /\ deleteFileFromGitHub
       (Normal {| ok := false; statusText := "Not Found";
                  json := Normal (JObject (Some "Not Found")) |})
     = Throw (newError "Not Found")
  /\ classify (newError "Not Found") = scopeHint
  /\ ok {| ok := true; statusText := "OK"; json := Throw (newError "no body") |}
     = true
  /\ deleteFileFromGitHub
       (Normal {| ok := true; statusText := "OK";
                  json := Throw (newError "no body") |})
     = Normal tt
  /\ deleteFileFromGitHub
       (Normal {| ok := false; statusText := "Bad Gateway";
                  json := Throw (newError "Unexpected token <") |})
     = Throw (newError "Unexpected token <").
Proof.
  pose proof (refused_delete_surfaces_the_remote_message
                (fun _ => Throw (newError "offline")) oneGroup threePaths) as H.
  cbv zeta in H. destruct H as [_ [_ [H3 [H4 [_ [H6 _]]]]]].
  destruct (H3 {| ok := false; statusText := "Not Found";
                  json := Normal (JObject (Some "Not Found")) |}
               (Some "Not Found") eq_refl eq_refl) as [E1 [_ [_ [E4 _]]]].
  split; [reflexivity |]. split; [exact E1 |]. split; [exact (E4 eq_refl) |].
  split; [reflexivity |].
  split; [exact (H4 {| ok := true; statusText := "OK";
                       json := Throw (newError "no body") |} eq_refl) |].
  exact (H6 {| ok := false; statusText := "Bad Gateway";
               json := Throw (newError "Unexpected token <") |}
            (newError "Unexpected token <") eq_refl eq_refl).
Defined.

End CleanupMore.

(* ===================================================================== *)
(** ** The import of a GitHub page                                        *)
(* ===================================================================== *)

Module ImportFacts.
Import Js JsText GitHub GitHubService ImportSpec Sample TextFacts.

Lemma filterBoolean_parts (parts : list string) :
  Forall isPart parts -> filterBoolean parts = parts.
Proof.
  induction 1 as [| s r [Hs _] Hr IH]; [reflexivity |].
  unfold filterBoolean in *. simpl. destruct s; [congruence |].
  simpl. f_equal. exact IH.
Qed.

Lemma filterBoolean_empty (l : list string) :
  filterBoolean ("" :: l) = filterBoolean l.
Proof. reflexivity. Qed.

Lemma pathname_parts (parts : list string) :
  Forall isPart parts ->
  filterBoolean (split "/" ("/" ++ join "/" parts)) = parts.
Proof.
  intros H.
  change ("/" ++ join "/" parts)%string with ("" ++ String "/" (join "/" parts))%string.
  rewrite (split_app_sep "/" "" (join "/" parts) eq_refl), filterBoolean_empty.
  destruct parts as [| s r].
  - reflexivity.
  - rewrite split_join.
    + now apply filterBoolean_parts.
    + discriminate.
    + eapply Forall_impl; [| exact H]. intros a [_ Ha]. exact Ha.
Qed.

(** The request the import makes.  For the path name of a tree page,
    /owner/repo/tree/ref/dir..., it asks for the contents of dir... at that
    ref; for any other page of a repository, a blob page included, it asks
    for the contents of the repository root, without ref, whatever follows
    the repository in the address. *)
Theorem contents_request_address (owner repo : string) :
  (forall ref dirs,
      Forall isPart (owner :: repo :: "tree" :: ref :: dirs) ->
      contentsApiUrl
        (filterBoolean
           (split "/" ("/" ++ join "/" (owner :: repo :: "tree" :: ref :: dirs))))
      = ("https://api.github.com/repos/" ++ owner ++ "/" ++ repo ++ "/contents/"
         ++ join "/" dirs ++ "?ref=" ++ ref)%string)
  /\ (forall kind rest,
        kind <> "tree" ->
        contentsApiUrl (owner :: repo :: kind :: rest)
        = ("https://api.github.com/repos/" ++ owner ++ "/" ++ repo
           ++ "/contents/")%string)
  /\ contentsApiUrl [owner; repo]
     = ("https://api.github.com/repos/" ++ owner ++ "/" ++ repo
        ++ "/contents/")%string
  /\ contentsApiUrl [owner; repo; "tree"]
     = ("https://api.github.com/repos/" ++ owner ++ "/" ++ repo
        ++ "/contents/")%string.
Proof.
  split.
  { intros ref dirs H. rewrite pathname_parts by assumption.
    assert (Hr : ref <> "").
    { inversion H as [| ? ? _ H1]; subst. inversion H1 as [| ? ? _ H2]; subst.
      inversion H2 as [| ? ? _ H3]; subst. inversion H3 as [| ? ? [Hr _] _]; subst.
      exact Hr. }
    unfold contentsApiUrl. cbn [nth nth_error skipn].
    rewrite String.eqb_refl.
    destruct ref as [| c r]; [congruence |]. cbn [truthy show].
    rewrite !append_assoc. reflexivity. }
  split.
  { intros kind rest Hk. unfold contentsApiUrl. simpl.
    apply String.eqb_neq in Hk. rewrite Hk. simpl. rewrite ?append_nil_r; reflexivity. }
  split.
  - unfold contentsApiUrl. simpl. rewrite ?append_nil_r; reflexivity.
  - unfold contentsApiUrl. simpl. rewrite ?append_nil_r; reflexivity.
Qed.

(** From a directory listing the import returns, in order, the download
    addresses of exactly the entries the duplicate scan would keep: files
    with an image extension; from the object of a single file its address
    or nothing.  The address the user gave plays no part in either.  A path
    name with fewer than two parts gives nothing, without any request. *)
Theorem import_returns_the_addresses_of_the_image_files
  (url pn : string) (fetch : string -> completion ContentsResponse) :
  let parts := filterBoolean (split "/" pn) in
  (forall data,
      2 <= List.length parts ->
      fetch (contentsApiUrl parts)
      = Normal {| cok := true; cjson := Normal (CArray data) |} ->
      let urls := getImagesFromGitHub url (Normal pn) fetch in
      urls = map download_url (filter isImageEntry data)
      /\ (forall t,
            getRepoFiles (Normal {| ok := true; statusText := t;
                                    json := Normal (JArray data) |})
            = Normal (filter isImageEntry data))
      /\ (forall u, In u urls <->
                    exists f, In f data /\ type f = "file"
                              /\ isImageFile (name f) = true
                              /\ download_url f = u)
      /\ List.length urls <= List.length data)
  /\ (forall data,
        2 <= List.length parts ->
        fetch (contentsApiUrl parts)
        = Normal {| cok := true; cjson := Normal (CFile data) |} ->
        getImagesFromGitHub url (Normal pn) fetch
        = if isImageEntry data then [download_url data] else [])
  /\ (List.length parts < 2 ->
      forall anyFetch, getImagesFromGitHub url (Normal pn) anyFetch = []).
Proof.
  intros parts. split.
  { intros data Hlen Hfetch urls. unfold urls, getImagesFromGitHub.
    fold parts. apply Nat.ltb_ge in Hlen. rewrite Hlen, Hfetch. simpl.
    fold isImageEntry.
    split; [reflexivity |]. split; [reflexivity |].
    split.
    - intros u. rewrite in_map_iff. split.
      + intros [f [Hu Hf]]. apply filter_In in Hf. destruct Hf as [Hf Hi].
        unfold isImageEntry in Hi. apply andb_true_iff in Hi.
        destruct Hi as [Ht Hi]. apply String.eqb_eq in Ht. eauto 6.
      + intros [f [Hf [Ht [Hi Hu]]]]. exists f. split; [assumption |].
        apply filter_In. split; [assumption |]. unfold isImageEntry.
        rewrite Hi. apply String.eqb_eq in Ht. now rewrite Ht.
    - rewrite length_map. clear. induction data as [| f r IH]; simpl; [lia |].
      destruct (isImageEntry f); simpl; lia. }
  split.
  { intros data Hlen Hfetch. unfold getImagesFromGitHub.
    fold parts. apply Nat.ltb_ge in Hlen. rewrite Hlen, Hfetch. reflexivity. }
  intros Hlen anyFetch. unfold getImagesFromGitHub. fold parts.
  apply Nat.ltb_lt in Hlen. now rewrite Hlen.
Qed.

Lemma getImagesFromGitHub_fallback
  (url : string) (pathname : completion string)
  (fetch : string -> completion ContentsResponse) :
  importFails pathname fetch ->
  getImagesFromGitHub url pathname fetch = blobFallback url.
Proof.
  intros H. unfold getImagesFromGitHub, importFails in *.
  destruct pathname as [pn | e]; [| reflexivity].
  destruct H as [Hlen H]. apply Nat.ltb_ge in Hlen. rewrite Hlen.
  destruct (fetch (contentsApiUrl (filterBoolean (split "/" pn))))
    as [response | e]; [| reflexivity].
  destruct (cok response) eqn:Hok; simpl.
  - destruct H as [H | H]; [discriminate |].
    destruct (cjson response) as [[items | data | |] | e];
      try reflexivity; destruct H.
  - unfold blobFallback. destruct (includes url "/blob/"); reflexivity.
Qed.

(** However the import fails before it has a listing, it does not reject:
    it returns the raw-content form of the address when the address points
    into a blob, and nothing otherwise. *)
Theorem import_failure_falls_back_to_the_raw_address
  (url : string) (pathname : completion string)
  (fetch : string -> completion ContentsResponse) :
  importFails pathname fetch ->
  getImagesFromGitHub url pathname fetch = blobFallback url
  /\ (includes url "/blob/" = true ->
      getImagesFromGitHub url pathname fetch = [rawUrl url])
  /\ (includes url "/blob/" = false ->
      getImagesFromGitHub url pathname fetch = [])
  /\ List.length (getImagesFromGitHub url pathname fetch) <= 1.
Proof.
  intros H. rewrite (getImagesFromGitHub_fallback url pathname fetch H).
  unfold blobFallback.
  destruct (includes url "/blob/"); repeat split; try discriminate; simpl; lia.
Qed.

Lemma import_returns_the_addresses_of_the_image_files_witness :
  2 <= List.length (filterBoolean (split "/" "/jaymacmac/pics/tree/main/lumina-exports"))
  /\ getImagesFromGitHub "https://github.com/jaymacmac/pics/tree/main/lumina-exports"
       (Normal "/jaymacmac/pics/tree/main/lumina-exports")
       (fun _ => Normal {| cok := true;
                           cjson := Normal (CArray [file "a.png" (Some "h1");
                                                    file "notes.txt" (Some "h2")]) |})
     = ["https://raw/a.png"]
  /\ List.length (filterBoolean (split "/" "/jaymacmac")) < 2
  /\ getImagesFromGitHub "https://github.com/jaymacmac" (Normal "/jaymacmac")
       (fun _ => Throw (newError "unused"))
     = [].
Proof.
  pose proof (import_returns_the_addresses_of_the_image_files
                "https://github.com/jaymacmac/pics/tree/main/lumina-exports"
                "/jaymacmac/pics/tree/main/lumina-exports"
                (fun _ => Normal {| cok := true;
                                    cjson := Normal (CArray [file "a.png" (Some "h1");
                                                             file "notes.txt" (Some "h2")]) |}))
    as [H1 _].
  pose proof (import_returns_the_addresses_of_the_image_files
                "https://github.com/jaymacmac" "/jaymacmac"
                (fun _ => Throw (newError "unused"))) as [_ [_ H3]].
  assert (L1 : 2 <= List.length
                      (filterBoolean (split "/" "/jaymacmac/pics/tree/main/lumina-exports")))
    by (vm_compute; lia).
  assert (L2 : List.length (filterBoolean (split "/" "/jaymacmac")) < 2)
    by (vm_compute; lia).
  split; [exact L1 |].
  split; [rewrite (proj1 (H1 _ L1 eq_refl)); reflexivity |].
  split; [exact L2 |]. exact (H3 L2 _).
Defined.

Lemma import_failure_falls_back_to_the_raw_address_witness :
  importFails (Normal "/jaymacmac/pics/blob/main/a.png")
    (fun _ => Normal {| cok := false; cjson := Normal COther |})
  /\ includes "https://github.com/jaymacmac/pics/blob/main/a.png" "/blob/" = true
  /\ getImagesFromGitHub "https://github.com/jaymacmac/pics/blob/main/a.png"
       (Normal "/jaymacmac/pics/blob/main/a.png")
       (fun _ => Normal {| cok := false; cjson := Normal COther |})
     = ["https://raw.githubusercontent.com/jaymacmac/pics/main/a.png"]
  /\ importFails (Throw (newError "Invalid URL")) (fun _ => Throw (newError "x"))
  /\ includes "not an address" "/blob/" = false
  /\ getImagesFromGitHub "not an address" (Throw (newError "Invalid URL"))
       (fun _ => Throw (newError "x"))
     = [].
Proof.
  assert (F1 : importFails (Normal "/jaymacmac/pics/blob/main/a.png")
                 (fun _ => Normal {| cok := false; cjson := Normal COther |})).
  { split; [vm_compute; lia | left; reflexivity]. }
  assert (F2 : importFails (Throw (newError "Invalid URL"))
                 (fun _ => Throw (newError "x"))) by exact I.
  pose proof (import_failure_falls_back_to_the_raw_address
                "https://github.com/jaymacmac/pics/blob/main/a.png" _ _ F1)
    as [_ [H2 _]].
  pose proof (import_failure_falls_back_to_the_raw_address
                "not an address" _ _ F2) as [_ [_ [H3 _]]].
  split; [exact F1 |]. split; [reflexivity |].
  split; [rewrite (H2 eq_refl); reflexivity |].
  split; [exact F2 |]. split; [reflexivity |]. exact (H3 eq_refl).
Defined.

Lemma contents_request_address_witness :
  Forall isPart ["jaymacmac"; "pics"; "tree"; "main"; "lumina-exports"; "old"]
  /\ contentsApiUrl
       (filterBoolean (split "/" "/jaymacmac/pics/tree/main/lumina-exports/old"))
     = "https://api.github.com/repos/jaymacmac/pics/contents/lumina-exports/old?ref=main"
  /\ "blob" <> "tree"
  /\ contentsApiUrl ["jaymacmac"; "pics"; "blob"; "main"; "a.png"]
     = "https://api.github.com/repos/jaymacmac/pics/contents/".
Proof.
  pose proof (contents_request_address "jaymacmac" "pics") as [H1 [H2 _]].
  assert (P : Forall isPart
                ["jaymacmac"; "pics"; "tree"; "main"; "lumina-exports"; "old"]).
  { repeat (constructor; [split; [discriminate | reflexivity] |]). constructor. }
  assert (N : "blob" <> "tree") by discriminate.
  split; [exact P |].
  split; [exact (H1 "main" ["lumina-exports"; "old"] P) |].
  split; [exact N |]. exact (H2 "blob" ["main"; "a.png"] N).
Defined.

Lemma prefix_app_inv (p s : string) :
  String.prefix p s = true -> exists w, s = (p ++ w)%string.
Proof.
  revert s. induction p as [| a p IH]; intros s H.
  - now exists s.
  - destruct s as [| b s]; simpl in H; [discriminate |].
    destruct (ascii_dec a b) as [-> | _]; [| discriminate].
    destruct (IH s H) as [w ->]. now exists w.
Qed.

Lemma first_separator (c : ascii) (a b y w : string) :
  hasChar c a = false -> hasChar c b = false ->
  (a ++ String c y)%string = (b ++ String c w)%string -> a = b.
Proof.
  revert b. induction a as [| x a IH]; intros [| z b]; simpl; intros Ha Hb E.
  - reflexivity.
  - injection E as E _. subst z. now rewrite Ascii.eqb_refl in Hb.
  - injection E as E _. subst x. now rewrite Ascii.eqb_refl in Ha.
  - apply orb_false_iff in Ha, Hb. destruct Ha as [_ Ha], Hb as [_ Hb].
    injection E as -> E. f_equal. now apply IH.
Qed.

Lemma prefix_append (p z : string) : String.prefix p (p ++ z) = true.
Proof.
  induction p as [| a p IH]; simpl.
  - destruct z; reflexivity.
  - destruct (ascii_dec a a); [assumption | congruence].
Qed.

Lemma drop_append (p z : string) : drop (String.length p) (p ++ z) = z.
Proof. induction p as [| a p IH]; simpl; [reflexivity | assumption]. Qed.

Lemma includes_eq (hay needle : string) :
  includes hay needle
  = if String.prefix needle hay then true
    else match hay with
         | EmptyString => false
         | String _ r => includes r needle
         end.
Proof. destruct hay; reflexivity. Qed.

Lemma replaceFirst_eq (pat rep s : string) :
  replaceFirst pat rep s
  = if String.prefix pat s then (rep ++ drop (String.length pat) s)%string
    else match s with
         | EmptyString => EmptyString
         | String c r => String c (replaceFirst pat rep r)
         end.
Proof. destruct s; reflexivity. Qed.

Lemma replaceFirst_hit (pat rep s : string) :
  String.prefix pat s = true ->
  replaceFirst pat rep s = (rep ++ drop (String.length pat) s)%string.
Proof. intros H. now rewrite replaceFirst_eq, H. Qed.

Lemma replaceFirst_miss (pat rep : string) (c : ascii) (r : string) :
  String.prefix pat (String c r) = false ->
  replaceFirst pat rep (String c r) = String c (replaceFirst pat rep r).
Proof. intros H. now rewrite replaceFirst_eq, H. Qed.

Lemma replaceFirst_skip (c0 : ascii) (pat' rep a z : string) :
  hasChar c0 a = false ->
  replaceFirst (String c0 pat') rep (a ++ z)
  = (a ++ replaceFirst (String c0 pat') rep z)%string.
Proof.
  induction a as [| x a IH]; simpl append; intros H; [reflexivity |].
  simpl in H. apply orb_false_iff in H. destruct H as [Hx Ha].
  rewrite replaceFirst_miss.
  - now rewrite IH.
  - simpl. destruct (ascii_dec c0 x) as [-> | _]; [| reflexivity].
    now rewrite Ascii.eqb_refl in Hx.
Qed.

Lemma not_the_blob_marker (x y : string) :
  hasChar "/" x = false -> x <> "blob" ->
  String.prefix "/blob/" (String "/" (x ++ String "/" y)) = false.
Proof.
  intros Hx Hne.
  destruct (String.prefix "/blob/" (String "/" (x ++ String "/" y))) eqn:E;
    [| reflexivity].
  apply prefix_app_inv in E. destruct E as [w E]. simpl in E.
  injection E as E. exfalso. apply Hne.
  apply (first_separator "/" x "blob" y w Hx eq_refl E).
Qed.

(** The raw-content address.  For the blob page of a file in a repository
    whose owner and name are not themselves "blob", the host is replaced
    and the blob marker dropped; the marker sought is the first "/blob/" of
    the address, so with an owner called "blob" it is the owner that is
    dropped. *)
Theorem rawUrl_of_a_blob_page (owner repo rest : string) :
  (hasChar "/" owner = false -> hasChar "/" repo = false ->
   owner <> "blob" -> repo <> "blob" ->
   rawUrl ("https://github.com/" ++ owner ++ "/" ++ repo ++ "/blob/" ++ rest)
   = ("https://raw.githubusercontent.com/" ++ owner ++ "/" ++ repo ++ "/"
      ++ rest)%string)
  /\ rawUrl ("https://github.com/blob/" ++ repo ++ "/blob/" ++ rest)
     = ("https://raw.githubusercontent.com/" ++ repo ++ "/blob/" ++ rest)%string
  /\ (forall text, includes text "github.com" = false ->
                   includes text "/blob/" = false -> rawUrl text = text).
Proof.
  assert (Hhost : forall z,
             replaceFirst "github.com" "raw.githubusercontent.com"
               ("https://github.com" ++ z)
             = ("https://raw.githubusercontent.com" ++ z)%string).
  { intros z.
    change ("https://github.com" ++ z)%string
      with (String "h" (String "t" (String "t" (String "p" (String "s"
             (String ":" (String "/" (String "/" ("github.com" ++ z)))))))))%string.
    do 8 (rewrite replaceFirst_miss by reflexivity).
    rewrite replaceFirst_hit by apply prefix_append.
    rewrite drop_append. reflexivity. }
  assert (Hscan : forall z,
             replaceFirst "/blob/" "/" ("https://raw.githubusercontent.com" ++ z)
             = ("https://raw.githubusercontent.com"
                ++ replaceFirst "/blob/" "/" z)%string).
  { intros z. cbn [append]. repeat (rewrite replaceFirst_miss by reflexivity).
    reflexivity. }
  split.
  { intros Ho Hr No Nr. unfold rawUrl.
    change ("https://github.com/" ++ owner ++ "/" ++ repo ++ "/blob/" ++ rest)%string
      with ("https://github.com"
            ++ String "/" (owner ++ String "/" (repo ++ String "/" ("blob/" ++ rest))))%string.
    rewrite Hhost, Hscan.
    rewrite replaceFirst_miss by (now apply not_the_blob_marker).
    rewrite (replaceFirst_skip "/" "blob/" "/" owner _ Ho).
    rewrite replaceFirst_miss by (now apply not_the_blob_marker).
    rewrite (replaceFirst_skip "/" "blob/" "/" repo _ Hr).
    rewrite replaceFirst_hit by apply (prefix_append "/blob/").
    reflexivity. }
  split.
  { unfold rawUrl.
    change ("https://github.com/blob/" ++ repo ++ "/blob/" ++ rest)%string
      with ("https://github.com" ++ ("/blob/" ++ repo ++ "/blob/" ++ rest))%string.
    rewrite Hhost, Hscan.
    rewrite replaceFirst_hit by apply (prefix_append "/blob/").
    reflexivity. }
  intros text Hg Hb.
  assert (Hnone : forall pat rep s, includes s pat = false ->
                                    replaceFirst pat rep s = s).
  { intros pat rep s. induction s as [| c r IH];
      rewrite replaceFirst_eq, includes_eq.
    - destruct (String.prefix pat ""); [discriminate | reflexivity].
    - destruct (String.prefix pat (String c r)); [discriminate |].
      intros H. now rewrite IH. }
  unfold rawUrl. rewrite (Hnone _ _ text Hg). now apply Hnone.
Qed.

Lemma rawUrl_of_a_blob_page_witness :
  hasChar "/" "jaymacmac" = false /\ hasChar "/" "pics" = false
  /\ "jaymacmac" <> "blob" /\ "pics" <> "blob"
  /\ rawUrl "https://github.com/jaymacmac/pics/blob/main/lumina-exports/a.png"
     = "https://raw.githubusercontent.com/jaymacmac/pics/main/lumina-exports/a.png"
  /\ includes "https://example.com/a.png" "github.com" = false
  /\ includes "https://example.com/a.png" "/blob/" = false
  /\ rawUrl "https://example.com/a.png" = "https://example.com/a.png".
Proof.
  pose proof (rawUrl_of_a_blob_page "jaymacmac" "pics" "main/lumina-exports/a.png")
    as [H1 [_ H3]].
  assert (N1 : "jaymacmac" <> "blob") by discriminate.
  assert (N2 : "pics" <> "blob") by discriminate.
  split; [reflexivity |]. split; [reflexivity |].
  split; [exact N1 |]. split; [exact N2 |].
  split; [exact (H1 eq_refl eq_refl N1 N2) |].
  split; [reflexivity |]. split; [reflexivity |].
  exact (H3 "https://example.com/a.png" eq_refl eq_refl).
Defined.

End ImportFacts.

(* ===================================================================== *)
(** ** The addresses of the delete and upload requests                    *)
(* ===================================================================== *)

Module RequestFacts.
Import Js JsText GitHub GitHubService ImportSpec Sample TextFacts.

Lemma allChars_app (test : ascii -> bool) (a b : string) :
  allChars test (a ++ b) = (allChars test a && allChars test b)%bool.
Proof.
  induction a as [| c r IH]; simpl; [reflexivity |].
  now rewrite IH, andb_assoc.
Qed.

Lemma hexDigit_unreserved (n : nat) : isUnreserved (hexDigit n) = true.
Proof.
  do 16 (destruct n as [| n]; [reflexivity |]). destruct n; reflexivity.
Qed.

Lemma encodeUnit_escaped (c : ascii) : allChars isEscaped (encodeUnit c) = true.
Proof.
  unfold encodeUnit. destruct (isUnreserved c) eqn:E.
  - simpl. unfold isEscaped. now rewrite E.
  - destruct (nat_of_ascii c <? 128)%nat; unfold percent; cbn [allChars append];
      unfold isEscaped; rewrite !hexDigit_unreserved; reflexivity.
Qed.

Lemma encodeURIComponent_escaped (s : string) :
  allChars isEscaped (encodeURIComponent s) = true.
Proof.
  induction s as [| c r IH]; simpl; [reflexivity |].
  now rewrite allChars_app, encodeUnit_escaped, IH.
Qed.

Lemma escaped_lacks (c : ascii) (s : string) :
  isEscaped c = false -> allChars isEscaped s = true -> hasChar c s = false.
Proof.
  intros Hc. induction s as [| x r IH]; simpl; [reflexivity |].
  intros H. apply andb_true_iff in H. destruct H as [Hx Hr].
  rewrite (IH Hr), orb_false_r.
  destruct (Ascii.eqb x c) eqn:E; [| reflexivity].
  apply Ascii.eqb_eq in E. congruence.
Qed.

Lemma encodeURIComponent_unreserved (s : string) :
  allChars isUnreserved s = true -> encodeURIComponent s = s.
Proof.
  induction s as [| c r IH]; simpl; [reflexivity |].
  intros H. apply andb_true_iff in H. destruct H as [Hc Hr].
  unfold encodeUnit. rewrite Hc. simpl. now rewrite IH.
Qed.

Lemma plain_segments (s : string) :
  allChars isPlain s = true ->
  Forall (fun seg => allChars isUnreserved seg = true) (split "/" s).
Proof.
  induction s as [| c r IH]; simpl.
  - intros _. constructor; [reflexivity | constructor].
  - intros H. apply andb_true_iff in H. destruct H as [Hc Hr].
    specialize (IH Hr). destruct (Ascii.eqb c "/") eqn:E.
    + constructor; [reflexivity | assumption].
    + unfold isPlain in Hc. rewrite E, orb_false_r in Hc.
      destruct (split "/" r) as [| seg segs].
      * constructor; [simpl; now rewrite Hc | constructor].
      * inversion IH; subst. constructor; [simpl; now rewrite Hc | assumption].
Qed.

Lemma split_snoc (sep : ascii) (a b : string) :
  hasChar sep b = false ->
  split sep (a ++ String sep b) = split sep a ++ [b].
Proof.
  intros Hb. induction a as [| c r IH]; simpl.
  - rewrite Ascii.eqb_refl. now rewrite split_no_sep.
  - destruct (Ascii.eqb c sep); rewrite IH; [reflexivity |].
    destruct (split sep r) as [| seg segs] eqn:E; [| reflexivity].
    now destruct (split_not_nil sep r).
Qed.

Lemma encoded_segments (path : string) :
  split "/" (encodePath path) = map encodeURIComponent (split "/" path).
Proof.
  unfold encodePath. apply split_join.
  - destruct (split "/" path) eqn:E; [| discriminate].
    now destruct (split_not_nil "/" path).
  - apply Forall_forall. intros seg Hseg. apply in_map_iff in Hseg.
    destruct Hseg as [s [<- _]].
    apply escaped_lacks; [reflexivity | apply encodeURIComponent_escaped].
Qed.

(** The path put into the address of a delete or upload request has the
    segments of the given path, each escaped: the slashes stay the
    delimiters, and within a segment nothing is left but unreserved
    characters and percent escapes, so no space, question mark or hash.  A
    path of unreserved characters and slashes goes out unchanged.  In an
    upload the file name adds exactly one segment, even when it holds a
    slash itself, and with an empty folder it is the whole path. *)
Theorem request_path_keeps_segments_and_escapes_the_rest (path : string) :
  split "/" (encodePath path) = map encodeURIComponent (split "/" path)
  /\ (forall seg c,
        In seg (split "/" (encodePath path)) -> isEscaped c = false ->
        hasChar c seg = false)
  /\ (allChars isPlain path = true -> encodePath path = path)
  /\ (forall owner repo fileName,
        path <> "" ->
        exists tail,
          uploadImageUrl owner repo path fileName
          = ("https://api.github.com/repos/" ++ owner ++ "/" ++ repo
             ++ "/contents/" ++ tail)%string
          /\ split "/" tail
             = map encodeURIComponent (split "/" path)
               ++ [encodeURIComponent fileName])
  /\ (forall owner repo fileName,
        uploadImageUrl owner repo "" fileName
        = ("https://api.github.com/repos/" ++ owner ++ "/" ++ repo
           ++ "/contents/" ++ encodeURIComponent fileName)%string)
  /\ (forall owner repo,
        deleteFileUrl owner repo path
        = ("https://api.github.com/repos/" ++ owner ++ "/" ++ repo
           ++ "/contents/" ++ encodePath path)%string).
Proof.
  split; [apply encoded_segments |].
  split.
  { intros seg c Hseg Hc. rewrite encoded_segments in Hseg.
    apply in_map_iff in Hseg. destruct Hseg as [s [<- _]].
    apply escaped_lacks; [assumption | apply encodeURIComponent_escaped]. }
  split.
  { intros H. unfold encodePath.
    rewrite <- (join_split "/" path) at 2. f_equal.
    rewrite <- (map_id (split "/" path)) at 2.
    apply map_ext_in. intros seg Hseg.
    apply encodeURIComponent_unreserved.
    pose proof (plain_segments path H) as Hf. rewrite Forall_forall in Hf.
    now apply Hf. }
  split.
  { intros owner repo fileName Hp.
    exists (encodePath path ++ "/" ++ encodeURIComponent fileName)%string.
    split.
    - unfold uploadImageUrl. destruct path as [| c r]; [congruence |].
      cbn [truthy]. now rewrite append_assoc.
    - change (encodePath path ++ "/" ++ encodeURIComponent fileName)%string
        with (encodePath path ++ String "/" (encodeURIComponent fileName))%string.
      rewrite split_snoc, encoded_segments; [reflexivity |].
      apply escaped_lacks; [reflexivity | apply encodeURIComponent_escaped]. }
  split; reflexivity.
Qed.

Lemma request_path_keeps_segments_and_escapes_the_rest_witness :
  allChars isPlain "lumina-exports/a.png" = true
  /\ encodePath "lumina-exports/a.png" = "lumina-exports/a.png"
  /\ encodePath "my folder/a#1?.png" = "my%20folder/a%231%3F.png"
  /\ "lumina-exports" <> ""
  /\ uploadImageUrl "jaymacmac" "pics" "lumina-exports" "a/b c.png"
     = "https://api.github.com/repos/jaymacmac/pics/contents/lumina-exports/a%2Fb%20c.png"
  /\ isEscaped " " = false
  /\ hasChar " " "my%20folder" = false.
Proof.
  pose proof (request_path_keeps_segments_and_escapes_the_rest
                "lumina-exports/a.png") as [_ [_ [H3 _]]].
  pose proof (request_path_keeps_segments_and_escapes_the_rest "lumina-exports")
    as [_ [_ [_ [H4 _]]]].
  pose proof (request_path_keeps_segments_and_escapes_the_rest "my folder/a#1?.png")
    as [_ [H2 _]].
  assert (N : "lumina-exports" <> "") by discriminate.
  destruct (H4 "jaymacmac" "pics" "a/b c.png" N) as [tail [E _]].
  split; [reflexivity |]. split; [exact (H3 eq_refl) |].
  split; [reflexivity |]. split; [exact N |].
  split; [reflexivity |]. split; [reflexivity |].
  apply (H2 "my%20folder" " "%char); [left; reflexivity | reflexivity].
Defined.

End RequestFacts.

(* ===================================================================== *)
(** ** The scenes the visualizer holds                                    *)
(* ===================================================================== *)

Module SceneFacts.
Import Js Babylon BabylonScene SceneSpec SceneMore Sample.

Lemma executeDynamicCode_runs (code : string) (program : Program) (r : Refs) :
  engineRef r = true -> code <> "" ->
  executeDynamicCode code program r = runUserCode program r.
Proof.
  intros He Hc. unfold executeDynamicCode. rewrite He.
  destruct code; [congruence | reflexivity].
Qed.

Lemma executeDynamicCode_idle (code : string) (program : Program) (r : Refs) :
  engineRef r = false \/ code = "" ->
  executeDynamicCode code program r = (r, []).
Proof.
  intros [He | ->]; unfold executeDynamicCode.
  - now rewrite He.
  - simpl. now rewrite orb_true_r.
Qed.

Lemma runUserCode_refs (program : Program) (r : Refs) :
  fst (runUserCode program r)
  = {| engineRef := engineRef r;
       sceneRef := Some (fst (settle (program newScene)));
       disposed := disposed r ++ current r |}.
Proof.
  unfold runUserCode, current. destruct (settle (program newScene)). reflexivity.
Qed.

Lemma runUserCode_logs (program : Program) (r : Refs) :
  snd (runUserCode program r) = snd (settle (program newScene)).
Proof.
  unfold runUserCode. destruct (settle (program newScene)). reflexivity.
Qed.

Lemma codeChanges_refs (changes : list (string * Program)) (r : Refs)
  (logs : list Log) :
  fst (fold_left
         (fun acc change =>
            let '(r1, l1) :=
              executeDynamicCode (fst change) (snd change) (fst acc) in
            (r1, snd acc ++ l1))
         changes (r, logs))
  = fst (codeChanges changes r).
Proof.
  unfold codeChanges. generalize (@nil Log). revert r logs.
  induction changes as [| c cs IH]; intros r l2 l3; simpl; [reflexivity |].
  destruct (executeDynamicCode (fst c) (snd c) r) as [r3 l4].
  apply IH.
Qed.

Lemma codeChanges_cons (change : string * Program)
  (changes : list (string * Program)) (r : Refs) :
  fst (codeChanges (change :: changes) r)
  = fst (codeChanges changes
           (fst (executeDynamicCode (fst change) (snd change) r))).
Proof.
  unfold codeChanges at 1. simpl.
  destruct (executeDynamicCode (fst change) (snd change) r) as [r1 l1].
  apply codeChanges_refs.
Qed.

Ltac tidy H1 H2 :=
  simpl; rewrite ?H1, ?H2, ?app_nil_r; simpl; rewrite ?H1, ?H2, ?app_nil_r; simpl.

Lemma robustFallbacks_camera (s : Scene) :
  activeCamera (robustFallbacks s) <> None.
Proof.
  unfold robustFallbacks.
  destruct (activeCamera s) as [c |] eqn:Hc;
    destruct (lights s) as [| l ls] eqn:Hl; tidy Hc Hl; discriminate.
Qed.

Lemma robustFallbacks_lights (s : Scene) : lights (robustFallbacks s) <> [].
Proof.
  unfold robustFallbacks.
  destruct (activeCamera s) as [c |] eqn:Hc;
    destruct (lights s) as [| l ls] eqn:Hl; tidy Hc Hl; discriminate.
Qed.

Lemma errorFallback_meshes (s : Scene) : meshes (errorFallback s) <> [].
Proof.
  unfold errorFallback.
  destruct (meshes s) as [| m ms] eqn:Hm; tidy Hm Hm; [| discriminate].
  destruct (activeCamera s); tidy Hm Hm; discriminate.
Qed.

(** A change of [code] does nothing at all while there is no engine or the
    code is empty.  Otherwise the run keeps the engine, disposes the scene
    the component held and installs a new one, whatever the program does.
    When the program returns, the installed scene is the repaired one, with
    an active camera and a light, and success is reported once.  When it
    throws a value other than [null] and [undefined], the error goes to the
    console and to [onError], once each, and the installed scene has the
    error fallback.  When it throws [null] or [undefined] the console gets
    it, nothing else is reported and nothing is repaired; while it is
    pending nothing is reported or repaired either.  Over any sequence of
    such changes, run one after the other, every scene the component has
    ever held is either the installed one or was disposed once, in the
    order they were made. *)
Theorem each_run_disposes_the_scene_it_replaces
  (changes : list (string * Program)) (r : Refs) :
  (forall code program,
      engineRef r = false \/ code = "" ->
      executeDynamicCode code program r = (r, []))
  /\ (forall code program,
        engineRef r = true -> code <> "" ->
        let after := fst (executeDynamicCode code program r) in
        let logs := snd (executeDynamicCode code program r) in
        let made := fst (program newScene) in
        engineRef after = true
        /\ disposed after = history r
        /\ exists installed,
             sceneRef after = Some installed
             /\ installed = sceneOf (code, program)
             /\ match snd (program newScene) with
                | Returns =>
                    logs = [OnLog "Scene updated successfully."]
                    /\ installed = robustFallbacks made
                    /\ activeCamera installed <> None
                    /\ lights installed <> []
                | Throws (ThrownValue e) =>
                    logs = [ConsoleError (ThrownValue e);
                            OnError ("Runtime Error: " ++ show (message e))%string]
                    /\ installed = errorFallback made
                    /\ meshes installed <> []
                | Throws ThrownNullish =>
                    logs = [ConsoleError ThrownNullish] /\ installed = made
                | Pending => logs = [] /\ installed = made
                end)
  /\ (engineRef r = true ->
      history (fst (codeChanges changes r))
      = history r ++ map sceneOf (effective changes))
  /\ (engineRef r = false -> fst (codeChanges changes r) = r).
Proof.
  split; [intros; now apply executeDynamicCode_idle |].
  split.
  { intros code program He Hc after logs made. unfold after, logs, made.
    rewrite (executeDynamicCode_runs code program r He Hc).
    rewrite runUserCode_refs, runUserCode_logs. cbn [engineRef sceneRef disposed].
    split; [assumption |]. split; [reflexivity |].
    eexists. split; [reflexivity |]. split; [reflexivity |].
    destruct (program newScene) as [s [| [| e] |]]; cbn [fst snd settle].
    - split; [reflexivity |]. split; [reflexivity |].
      split; [apply robustFallbacks_camera | apply robustFallbacks_lights].
    - split; reflexivity.
    - split; [reflexivity |]. split; [reflexivity |]. apply errorFallback_meshes.
    - split; reflexivity. }
  split.
  - revert r. induction changes as [| [code program] cs IH]; intros r He.
    + simpl. now rewrite app_nil_r.
    + rewrite codeChanges_cons. cbn [fst snd]. destruct code as [| c code].
      * rewrite executeDynamicCode_idle by (now right). cbn [fst].
        now rewrite IH.
      * rewrite executeDynamicCode_runs by (assumption || discriminate).
        rewrite IH by (rewrite runUserCode_refs; assumption).
        rewrite runUserCode_refs. unfold effective. cbn [filter fst truthy map].
        unfold history at 1, current at 1. cbn [sceneRef disposed].
        unfold history, sceneOf. cbn [snd]. now rewrite <- !app_assoc.
  - revert r. induction changes as [| [code program] cs IH]; intros r He.
    + reflexivity.
    + rewrite codeChanges_cons. cbn [fst snd].
      rewrite executeDynamicCode_idle by (now left). cbn [fst]. now apply IH.
Qed.

Lemma each_run_disposes_the_scene_it_replaces_witness :
  engineRef ready = true
  /\ List.length (history ready) = 1
  /\ List.length (effective twoChanges) = 2
  /\ List.length (disposed (fst (codeChanges twoChanges ready))) = 2
  /\ option_map meshes (sceneRef (fst (codeChanges twoChanges ready)))
     = Some [errorBox]
  /\ fst (codeChanges twoChanges
            {| engineRef := false; sceneRef := None; disposed := [] |})
     = {| engineRef := false; sceneRef := None; disposed := [] |}.
Proof.
  pose proof (each_run_disposes_the_scene_it_replaces twoChanges ready)
    as [_ [_ [H _]]].
  pose proof (each_run_disposes_the_scene_it_replaces twoChanges
                {| engineRef := false; sceneRef := None; disposed := [] |})
    as [_ [_ [_ H0]]].
  specialize (H eq_refl).
  split; [reflexivity |]. split; [reflexivity |]. split; [reflexivity |].
  split.
  - apply (f_equal (@List.length Scene)) in H.
    rewrite length_app, length_map in H. unfold history in H at 1.
    rewrite length_app in H. simpl in H. simpl. lia.
  - split; [reflexivity | exact (H0 eq_refl)].
Defined.

Lemma robustFallbacks_settled (s : Scene) :
  activeCamera s <> None -> lights s <> [] -> robustFallbacks s = s.
Proof.
  intros Hc Hl. unfold robustFallbacks.
  destruct (activeCamera s); [| congruence].
  destruct (lights s); [congruence | reflexivity].
Qed.

Lemma errorFallback_settled (s : Scene) :
  meshes s <> [] -> errorFallback s = s.
Proof.
  intros Hm. unfold errorFallback. destruct (meshes s); [congruence | reflexivity].
Qed.

(** The repair only ever adds.  After a program that returned, the cameras
    and lights it made are still there, in order, followed by at most the
    fixed camera and the default light; meshes and materials are as the
    program left them.  After a program that threw, at most the marker box
    with its red material and the fixed camera are appended, and the lights
    are untouched.  A camera the program made active stays the active one, and
    no added camera has controls attached.  Repairing a repaired scene
    changes nothing. *)
Theorem repair_only_adds_and_is_idempotent (s : Scene) :
  (exists cs ls,
      cameras (robustFallbacks s) = cameras s ++ cs
      /\ lights (robustFallbacks s) = lights s ++ ls
      /\ incl cs [fixedCamera "FallbackCamera"]
      /\ incl ls [fallbackLight]
      /\ (List.length cs <= 1)%nat /\ (List.length ls <= 1)%nat
      /\ meshes (robustFallbacks s) = meshes s
      /\ materials (robustFallbacks s) = materials s)
  /\ (exists cs ms,
        cameras (errorFallback s) = cameras s ++ cs
        /\ meshes (errorFallback s) = meshes s ++ ms
        /\ incl cs [fixedCamera "ErrorCam"]
        /\ incl ms [errorBox]
        /\ (List.length cs <= 1)%nat /\ (List.length ms <= 1)%nat
        /\ lights (errorFallback s) = lights s)
  /\ (forall c, activeCamera s = Some c ->
        activeCamera (robustFallbacks s) = Some c
        /\ activeCamera (errorFallback s) = Some c)
  /\ robustFallbacks (robustFallbacks s) = robustFallbacks s
  /\ errorFallback (errorFallback s) = errorFallback s.
Proof.
  split.
  { unfold robustFallbacks.
    destruct (activeCamera s) as [c |] eqn:Hc;
      destruct (lights s) as [| l ls] eqn:Hl.
    - exists [], [fallbackLight]. tidy Hc Hl.
      repeat split; auto using incl_nil_l, incl_refl.
    - exists [], []. tidy Hc Hl.
      repeat split; auto using incl_nil_l.
    - exists [fixedCamera "FallbackCamera"], [fallbackLight]. tidy Hc Hl.
      repeat split; auto using incl_refl.
    - exists [fixedCamera "FallbackCamera"], []. tidy Hc Hl.
      repeat split; auto using incl_nil_l, incl_refl. }
  split.
  { unfold errorFallback.
    destruct (meshes s) as [| m ms] eqn:Hm.
    - destruct (activeCamera s) as [c |] eqn:Hc.
      + exists [], [errorBox]. tidy Hc Hm.
        repeat split; auto using incl_nil_l, incl_refl.
      + exists [fixedCamera "ErrorCam"], [errorBox]. tidy Hc Hm.
        repeat split; auto using incl_refl.
    - exists [], []. tidy Hm Hm.
      repeat split; auto using incl_nil_l. }
  split.
  { intros c Hc. unfold robustFallbacks, errorFallback. rewrite Hc.
    split.
    - destruct (List.length (lights s) =? 0)%nat; simpl; assumption.
    - destruct (List.length (meshes s) =? 0)%nat; simpl; [| assumption].
      rewrite Hc. simpl. assumption. }
  split.
  - apply robustFallbacks_settled;
      [apply robustFallbacks_camera | apply robustFallbacks_lights].
  - apply errorFallback_settled, errorFallback_meshes.
Qed.

Lemma repair_only_adds_and_is_idempotent_witness :
  activeCamera (fst (lightOnly newScene)) = None
  /\ cameras (robustFallbacks (fst (lightOnly newScene)))
     = [fixedCamera "FallbackCamera"]
  /\ lights (robustFallbacks (fst (lightOnly newScene)))
     = lights (fst (lightOnly newScene))
  /\ robustFallbacks (robustFallbacks (fst (lightOnly newScene)))
     = robustFallbacks (fst (lightOnly newScene)).
Proof.
  pose proof (repair_only_adds_and_is_idempotent (fst (lightOnly newScene)))
    as [_ [_ [_ [H _]]]].
  split; [reflexivity |]. split; [reflexivity |]. split; [reflexivity |].
  exact H.
Defined.

End SceneFacts.

(* ===================================================================== *)
(** ** The export batch                                                   *)
(* ===================================================================== *)

Module ExportFacts.
Import Js JsText ExportModal ExportSpec JsFacts TextFacts.

(** *** Decimal numerals *)

Lemma string_of_uint_digits (d : Decimal.uint) :
  allChars isDigit (NilEmpty.string_of_uint d) = true.
Proof. induction d; simpl; try rewrite IHd; reflexivity. Qed.

Lemma showNat_digits (n : nat) : allChars isDigit (showNat n) = true.
Proof. apply string_of_uint_digits. Qed.

Lemma showNat_inj (j k : nat) : showNat j = showNat k -> j = k.
Proof.
  unfold showNat. intros H.
  apply (f_equal NilEmpty.uint_of_string) in H. rewrite !NilEmpty.usu in H.
  injection H as H. apply (f_equal Nat.of_uint) in H.
  now rewrite !DecimalNat.Unsigned.of_to in H.
Qed.

Lemma digits_then_dot (a b r r' : string) :
  allChars isDigit a = true -> allChars isDigit b = true ->
  (a ++ String "." r)%string = (b ++ String "." r')%string -> a = b.
Proof.
  revert b. induction a as [| x a IH]; intros [| y b] Ha Hb H; simpl in *.
  - reflexivity.
  - injection H as Hy _. subst y. discriminate.
  - injection H as Hx _. subst x. discriminate.
  - injection H as Hx H. subst y.
    apply andb_true_iff in Ha. apply andb_true_iff in Hb.
    f_equal. now apply (IH b).
Qed.

Lemma append_cancel_l (t a b : string) :
  (t ++ a)%string = (t ++ b)%string -> a = b.
Proof. induction t as [| c t IH]; simpl; [auto | intros H; injection H; auto]. Qed.

Lemma numberedName_inj (t : string) (e : option string) (j k : nat) :
  numberedName t e j = numberedName t e k -> j = k.
Proof.
  unfold numberedName. intros H. apply append_cancel_l in H.
  simpl in H. injection H as H.
  apply showNat_inj.
  apply (digits_then_dot _ _ (show e) (show e)); auto using showNat_digits.
Qed.

Lemma baseName_not_numbered (t : string) (e : option string) (k : nat) :
  baseName t e <> numberedName t e k.
Proof.
  unfold baseName, numberedName. intros H. apply append_cancel_l in H.
  discriminate.
Qed.

(** *** The name loop *)

Lemma pickName_none (fuel : nat) (used : StringSet) (t : string)
  (e : option string) (cur : string) (c : nat) :
  pickName fuel used t e cur c = None ->
  In cur used
  /\ forall k, c <= k < c + fuel -> In (numberedName t e k) used.
Proof.
  revert cur c. induction fuel as [| fuel IH]; intros cur c; simpl;
    destruct (set_has cur used) eqn:E; try discriminate.
  - intros _. split; [now apply set_has_In | intros k Hk; lia].
  - intros H. destruct (IH _ _ H) as [H1 H2].
    split; [now apply set_has_In |].
    intros k Hk. destruct (Nat.eq_dec k c) as [-> | Hne]; [assumption |].
    apply H2. lia.
Qed.

Lemma pickName_some (fuel : nat) (used : StringSet) (t : string)
  (e : option string) (cur : string) (c : nat) (fileName : string) :
  pickName fuel used t e cur c = Some fileName ->
  ~ In fileName used
  /\ (fileName = cur \/ exists k, c <= k /\ fileName = numberedName t e k).
Proof.
  revert cur c. induction fuel as [| fuel IH]; intros cur c; simpl;
    destruct (set_has cur used) eqn:E; try discriminate.
  - intros H. injection H as <-. split; [| now left].
    intros Hin. apply set_has_In in Hin. congruence.
  - intros H. destruct (IH _ _ H) as [H1 [-> | [k [Hk ->]]]].
    + split; [assumption | right; exists c; split; [lia | reflexivity]].
    + split; [assumption | right; exists k; split; [lia | reflexivity]].
  - intros H. injection H as <-. split; [| now left].
    intros Hin. apply set_has_In in Hin. congruence.
Qed.

Lemma candidates_NoDup (t : string) (e : option string) (n : nat) :
  NoDup (baseName t e :: map (numberedName t e) (seq 1 n)).
Proof.
  constructor.
  - intros H. apply in_map_iff in H. destruct H as [k [Hk _]].
    symmetry in Hk. now apply baseName_not_numbered in Hk.
  - apply Finite.Injective_map_NoDup; [| apply seq_NoDup].
    intros j k. apply numberedName_inj.
Qed.

(** The name loop ends within as many turns as there are reserved names. *)
Lemma pickName_exits (used : StringSet) (t : string) (e : option string) :
  exists fileName,
    pickName (List.length used) used t e (baseName t e) 1 = Some fileName.
Proof.
  destruct (pickName (List.length used) used t e (baseName t e) 1)
    as [fileName |] eqn:E; [now exists fileName |].
  apply pickName_none in E. destruct E as [H0 Hk].
  pose proof (@NoDup_incl_length _ _ used
                (candidates_NoDup t e (List.length used))) as H.
  simpl in H. rewrite length_map, length_seq in H.
  assert (Hi : incl (baseName t e
                     :: map (numberedName t e) (seq 1 (List.length used))) used).
  { intros x [<- | Hx]; [assumption |].
    apply in_map_iff in Hx. destruct Hx as [k [<- Hin]].
    apply in_seq in Hin. apply Hk. lia. }
  specialize (H Hi). lia.
Qed.

(** *** The loop *)

Lemma uploadNames_snoc (events : list Event) (ev : Event) :
  uploadNames (events ++ [ev]) = uploadNames events ++ uploadNames [ev].
Proof. apply flat_map_app. Qed.

Lemma consoleErrors_snoc (events : list Event) (ev : Event) :
  consoleErrors (events ++ [ev]) = consoleErrors events ++ consoleErrors [ev].
Proof. apply flat_map_app. Qed.

Lemma uploadTargets_snoc (events : list Event) (ev : Event) :
  uploadTargets (events ++ [ev]) = uploadTargets events ++ uploadTargets [ev].
Proof. apply flat_map_app. Qed.

Lemma set_add_fresh (x : string) (s : StringSet) :
  ~ In x s -> set_add x s = s ++ [x].
Proof.
  intros H. unfold set_add. destruct (set_has x s) eqn:E; [| reflexivity].
  apply set_has_In in E. contradiction.
Qed.

Section Loop.
Variable convert : nat -> string -> completion (option string).
Variable upload : nat -> string -> option string -> completion unit.
Variables owner repo folder : string.
Variable images : list ImageItem.
Variable total : nat.

Lemma invariant_start :
  Invariant (owner, repo, folder) images 0 6 emptyRun.
Proof.
  constructor; simpl; try reflexivity; try (now constructor); lia.
Qed.

Lemma invariant_processing (line : string) (n bound : nat) (r : Run) :
  Invariant (owner, repo, folder) images n bound r ->
  Invariant (owner, repo, folder) images n 5
    {| successCount := successCount r; failCount := failCount r;
       usedNames := usedNames r; logLines := line :: firstn 4 (logLines r);
       trace := trace r |}.
Proof.
  intros [H1 H2 H3 H4 H5 H6 H7]. constructor; try assumption.
  cbn [logLines List.length].
  pose proof (firstn_le_length 4 (logLines r)) as H. lia.
Qed.

Lemma invariant_convert (address : string) (n bound : nat) (r : Run) :
  Invariant (owner, repo, folder) images n bound r ->
  Invariant (owner, repo, folder) images n bound
    (emit (ConvertRequest address) r).
Proof.
  intros [H1 H2 H3 H4 H5 H6 H7]. constructor; simpl;
    rewrite ?uploadNames_snoc, ?consoleErrors_snoc, ?uploadTargets_snoc;
    simpl; rewrite ?app_nil_r; assumption.
Qed.

Lemma invariant_caught (img : ImageItem) (err : JsError) (n : nat) (r : Run) :
  Invariant (owner, repo, folder) images n 5 r ->
  Invariant (owner, repo, folder) images (n + 1) 6 (caught img err r).
Proof.
  intros [H1 H2 H3 H4 H5 H6 H7]. unfold caught.
  change (includes (orElse (message err) "") "sha"
          || includes (orElse (message err) "") "422")%bool with (isSkip err).
  destruct (isSkip err) eqn:E; constructor; simpl;
    rewrite ?uploadNames_snoc, ?consoleErrors_snoc, ?uploadTargets_snoc;
    simpl; rewrite ?app_nil_r, ?filter_app, ?length_app; simpl;
    rewrite ?E; simpl; try assumption; lia.
Qed.

Lemma invariant_named (img : ImageItem) (fileName : string)
  (content : option string) (n bound : nat) (r : Run) :
  Invariant (owner, repo, folder) images n bound r ->
  In img images -> nameFor img fileName -> ~ In fileName (usedNames r) ->
  Invariant (owner, repo, folder) images n bound
    (emit (UploadRequest owner repo folder fileName content)
       {| successCount := successCount r; failCount := failCount r;
          usedNames := set_add fileName (usedNames r);
          logLines := logLines r; trace := trace r |}).
Proof.
  intros [H1 H2 H3 H4 H5 H6 H7] Himg Hname Hfresh. constructor; simpl;
    rewrite ?uploadNames_snoc, ?consoleErrors_snoc, ?uploadTargets_snoc;
    simpl; rewrite ?app_nil_r; try assumption.
  - rewrite set_add_fresh by assumption. now rewrite H1.
  - now apply set_add_NoDup.
  - apply Forall_app. split; [assumption |]. constructor; [reflexivity | constructor].
  - apply Forall_app. split; [assumption |].
    constructor; [| constructor]. now exists img.
Qed.

Lemma invariant_uploaded (n : nat) (r : Run) :
  Invariant (owner, repo, folder) images n 5 r ->
  Invariant (owner, repo, folder) images (n + 1) 6
    {| successCount := successCount r + 1; failCount := failCount r;
       usedNames := usedNames r; logLines := logLines r; trace := trace r |}.
Proof.
  intros [H1 H2 H3 H4 H5 H6 H7]. constructor; simpl; try assumption; lia.
Qed.

(** One turn of the loop ends and keeps the invariant. *)
Lemma exportStep_invariant (i n bound : nat) (img : ImageItem) (r : Run) :
  Invariant (owner, repo, folder) images n bound r ->
  In img images ->
  exists r1,
    exportStep convert upload owner repo folder total i img r = Some r1
    /\ Invariant (owner, repo, folder) images (n + 1) 6 r1.
Proof.
  intros Hinv Himg. unfold exportStep.
  set (line := ("Processing " ++ showNat (i + 1) ++ "/" ++ showNat total
                ++ ": " ++ title img ++ "...")%string).
  pose proof (invariant_processing line n bound r Hinv) as H0.
  set (r0 := {| successCount := successCount r; failCount := failCount r;
                usedNames := usedNames r;
                logLines := line :: firstn 4 (logLines r);
                trace := trace r |}) in *.
  assert (Hnamed : forall content r1,
             Invariant (owner, repo, folder) images n 5 r1 ->
             exists r2,
               match pickName (List.length (usedNames r1)) (usedNames r1)
                              (safeTitleOf img) (extensionOf img)
                              (baseName (safeTitleOf img) (extensionOf img)) 1
               with
               | None => None
               | Some fileName =>
                   match upload i fileName content with
                   | Normal _ =>
                       Some {| successCount :=
                                 successCount
                                   (emit (UploadRequest owner repo folder
                                            fileName content)
                                      {| successCount := successCount r1;
                                         failCount := failCount r1;
                                         usedNames :=
                                           set_add fileName (usedNames r1);
                                         logLines := logLines r1;
                                         trace := trace r1 |}) + 1;
                               failCount :=
                                 failCount
                                   (emit (UploadRequest owner repo folder
                                            fileName content)
                                      {| successCount := successCount r1;
                                         failCount := failCount r1;
                                         usedNames :=
                                           set_add fileName (usedNames r1);
                                         logLines := logLines r1;
                                         trace := trace r1 |});
                               usedNames :=
                                 usedNames
                                   (emit (UploadRequest owner repo folder
                                            fileName content)
                                      {| successCount := successCount r1;
                                         failCount := failCount r1;
                                         usedNames :=
                                           set_add fileName (usedNames r1);
                                         logLines := logLines r1;
                                         trace := trace r1 |});
                               logLines :=
                                 logLines
                                   (emit (UploadRequest owner repo folder
                                            fileName content)
                                      {| successCount := successCount r1;
                                         failCount := failCount r1;
                                         usedNames :=
                                           set_add fileName (usedNames r1);
                                         logLines := logLines r1;
                                         trace := trace r1 |});
                               trace :=
                                 trace
                                   (emit (UploadRequest owner repo folder
                                            fileName content)
                                      {| successCount := successCount r1;
                                         failCount := failCount r1;
                                         usedNames :=
                                           set_add fileName (usedNames r1);
                                         logLines := logLines r1;
                                         trace := trace r1 |}) |}
                   | Throw err =>
                       Some (caught img err
                               (emit (UploadRequest owner repo folder
                                        fileName content)
                                  {| successCount := successCount r1;
                                     failCount := failCount r1;
                                     usedNames := set_add fileName (usedNames r1);
                                     logLines := logLines r1;
                                     trace := trace r1 |}))
                   end
               end = Some r2
               /\ Invariant (owner, repo, folder) images (n + 1) 6 r2).
  { intros content r1 H1.
    destruct (pickName_exits (usedNames r1) (safeTitleOf img) (extensionOf img))
      as [fileName E].
    rewrite E. apply pickName_some in E. destruct E as [Hfresh Hform].
    assert (Hname : nameFor img fileName).
    { destruct Hform as [-> | [k [Hk ->]]]; [now left | right; now exists k]. }
    pose proof (invariant_named img fileName content n 5 r1 H1 Himg Hname Hfresh)
      as H3.
    destruct (upload i fileName content) as [u | err]; eexists; split;
      try reflexivity.
    - now apply invariant_uploaded in H3.
    - now apply invariant_caught. }
  destruct (truthy (base64Data img)).
  - apply Hnamed, H0.
  - destruct (convert i (url img)) as [content | err].
    + apply Hnamed, invariant_convert, H0.
    + eexists. split; [reflexivity |].
      apply invariant_caught, invariant_convert, H0.
Qed.

(** The loop ends and keeps the invariant. *)
Lemma exportLoop_invariant (rest : list ImageItem) (i n : nat) (r : Run) :
  Invariant (owner, repo, folder) images n 6 r ->
  incl rest images ->
  exists r1,
    exportLoop convert upload owner repo folder total i rest r = Some r1
    /\ Invariant (owner, repo, folder) images (n + List.length rest) 6 r1.
Proof.
  revert i n r. induction rest as [| img rest IH]; intros i n r Hinv Hincl.
  - exists r. split; [reflexivity |]. simpl. now rewrite Nat.add_0_r.
  - simpl.
    destruct (exportStep_invariant i n 6 img r Hinv (Hincl img (or_introl eq_refl)))
      as [r1 [E H1]].
    rewrite E.
    destruct (IH (i + 1) (n + 1) r1 H1) as [r2 [E2 H2]].
    { intros x Hx. apply Hincl. now right. }
    exists r2. split; [assumption |].
    replace (n + S (List.length rest)) with (n + 1 + List.length rest) by lia.
    assumption.
Qed.

End Loop.

(** *** The handler *)

Lemma handleExport_result
  (convert : nat -> string -> completion (option string))
  (upload : nat -> string -> option string -> completion unit)
  (images : list ImageItem) (st : State) :
  (trim (token st) = ""
   /\ handleExport convert upload images st
      = Some (refuse "Personal Access Token is required." (cleared st)))
  \/ (trim (token st) <> "" /\ repoParts st = None
      /\ handleExport convert upload images st
         = Some (refuse "Repository must be in 'username/repo' format."
                   (cleared st)))
  \/ (trim (token st) <> ""
      /\ exists owner repo r,
           repoParts st = Some (owner, repo)
           /\ split "/" (repoStr st) = [owner; repo]
           /\ Invariant (owner, repo, folderPath st) images
                (List.length images) 6 r
           /\ handleExport convert upload images st
              = Some {| state := finished r st; run := Some r |}).
Proof.
  unfold handleExport, repoParts. fold (cleared st).
  destruct (trim (token st)) as [| c t] eqn:Et; [left; now split |].
  right. change (truthy (Some (String c t))) with true. cbn [negb].
  destruct (split "/" (repoStr st)) as [| owner [| repo [| x l]]] eqn:Es;
    try (left; repeat split; (discriminate || reflexivity)).
  destruct (negb (truthy (Some owner)) || negb (truthy (Some repo)))%bool eqn:Ep;
    [left; repeat split; (discriminate || reflexivity) |].
  right. split; [discriminate |].
  destruct (exportLoop_invariant convert upload owner repo (folderPath st)
              images (List.length images) images 0 0 emptyRun
              (invariant_start owner repo (folderPath st) images)
              (incl_refl images)) as [r [E H]].
  exists owner, repo, r. rewrite E.
  split; [reflexivity | split; [reflexivity | split; [exact H | reflexivity]]].
Qed.

Lemma safeChar (c : ascii) :
  isSafe (lowerChar (if isAlnum c then c else "_"%char)) = true.
Proof. destruct c as [[] [] [] [] [] [] [] []]; reflexivity. Qed.

Lemma safeTitle_safe (s : string) :
  allChars isSafe (toLowerCase (replaceNonAlnum s)) = true.
Proof.
  induction s as [| c r IH]; simpl; [reflexivity |].
  now rewrite safeChar, IH.
Qed.

Lemma safeTitle_length (s : string) :
  String.length (toLowerCase (replaceNonAlnum s)) = String.length s.
Proof. induction s as [| c r IH]; simpl; [reflexivity | now rewrite IH]. Qed.

(** Whatever the images and whatever the network answers, the export ends,
    and no two upload requests of a batch carry the same file name, the
    failed ones included: the names requested are exactly the names
    reserved, each once.  Every request goes to the repository and folder of
    the form, under a name made for an image of the batch: its safe title,
    a dot and the extension, or with a counter from 1 on in between.  A safe
    title has the length of the title and consists of lower-case letters,
    digits and underscores only. *)
Theorem every_upload_of_a_batch_has_its_own_name
  (convert : nat -> string -> completion (option string))
  (upload : nat -> string -> option string -> completion unit)
  (images : list ImageItem) (st : State) :
  (exists out,
      handleExport convert upload images st = Some out
      /\ forall r,
           run out = Some r ->
           NoDup (uploadNames (trace r))
           /\ usedNames r = uploadNames (trace r)
           /\ Forall (fun fileName =>
                        exists img, In img images /\ nameFor img fileName)
                     (uploadNames (trace r))
           /\ (forall owner repo path,
                 In (owner, repo, path) (uploadTargets (trace r)) ->
                 split "/" (repoStr st) = [owner; repo]
                 /\ path = folderPath st))
  /\ Forall (fun img =>
               allChars isSafe (safeTitleOf img) = true
               /\ String.length (safeTitleOf img) = String.length (title img))
            images.
Proof.
  split.
  - destruct (handleExport_result convert upload images st)
      as [[_ E] | [[_ [_ E]] | [_ [owner [repo [r [_ [Es [H E]]]]]]]]];
      rewrite E; eexists; (split; [reflexivity |]); intros r' Hr;
      try discriminate.
    injection Hr as <-. destruct H as [H1 H2 H3 H4 H5 H6 H7].
    split; [now rewrite <- H1 |]. split; [assumption |].
    split; [assumption |].
    intros o p f Hin. rewrite Forall_forall in H6.
    specialize (H6 _ Hin). injection H6 as -> -> ->. now split.
  - apply Forall_forall. intros img _. unfold safeTitleOf.
    split; [apply safeTitle_safe | apply safeTitle_length].
Qed.

Lemma every_upload_of_a_batch_has_its_own_name_witness :
  option_map (fun out => option_map (fun r => uploadNames (trace r)) (run out))
             (handleExport converts answers album form)
  = Some (Some ["my_cat.jpeg"; "my_cat_1.jpeg"; "my_cat.png"; "my_cat_2.jpeg"])
  /\ NoDup ["my_cat.jpeg"; "my_cat_1.jpeg"; "my_cat.png"; "my_cat_2.jpeg"].
Proof.
  destruct (every_upload_of_a_batch_has_its_own_name converts answers album form)
    as [[out [E H]] _].
  vm_compute in E. injection E as <-.
  destruct (H _ eq_refl) as [Hn _].
  split; [reflexivity | exact Hn].
Defined.

(** When a batch was run, every image was either uploaded or had its error
    written to the console, the counter of failures counts the errors that
    mention neither [sha] nor [422], and the errors that do are in neither
    counter.  The form then shows success and no error, is no longer
    uploading, and its log is the line of totals followed by at most six
    earlier lines. *)
Theorem finished_batch_accounts_for_every_image
  (convert : nat -> string -> completion (option string))
  (upload : nat -> string -> option string -> completion unit)
  (images : list ImageItem) (st : State) (out : Outcome) (r : Run) :
  handleExport convert upload images st = Some out ->
  run out = Some r ->
  successCount r + List.length (consoleErrors (trace r)) = List.length images
  /\ failCount r
     = List.length (filter (fun e => negb (isSkip e)) (consoleErrors (trace r)))
  /\ successCount r + failCount r
     + List.length (filter isSkip (consoleErrors (trace r)))
     = List.length images
  /\ success (state out) = true
  /\ error (state out) = None
  /\ isUploading (state out) = false
  /\ logs (state out) = doneLine r :: logLines r
  /\ List.length (logs (state out)) <= 7.
Proof.
  intros E Hr.
  destruct (handleExport_result convert upload images st)
    as [[_ E1] | [[_ [_ E1]] | [_ [owner [repo [r' [_ [_ [H E1]]]]]]]]];
    rewrite E1 in E; injection E as <-; try discriminate.
  injection Hr as <-. destruct H as [H1 H2 H3 H4 H5 H6 H7].
  pose proof (CleanupMore.filter_split_length isSkip (consoleErrors (trace r')))
    as Hs.
  split; [assumption |]. split; [assumption |].
  split; [lia |].
  repeat split; simpl; lia.
Qed.

Lemma finished_batch_accounts_for_every_image_witness :
  exists out r,
    handleExport converts answers album form = Some out
    /\ run out = Some r
    /\ successCount r = 2 /\ failCount r = 1
    /\ List.length (consoleErrors (trace r)) = 2
    /\ List.length (filter isSkip (consoleErrors (trace r))) = 1
    /\ hd "" (logs (state out)) = "DONE! Uploaded: 2, Failed/Skipped: 1"
    /\ List.length (logs (state out)) = 7.
Proof.
  destruct (handleExport converts answers album form) as [out |] eqn:E;
    [| vm_compute in E; discriminate].
  destruct (run out) as [r |] eqn:Er;
    [| exfalso; vm_compute in E; injection E as <-; discriminate].
  pose proof (finished_batch_accounts_for_every_image converts answers album
                form out r E Er) as H.
  destruct H as [_ [_ [_ [_ [_ [_ [H _]]]]]]].
  exists out, r. split; [reflexivity |]. split; [exact Er |].
  rewrite H. clear H.
  vm_compute in E. injection E as <-.
  vm_compute in Er. injection Er as <-.
  vm_compute. repeat split.
Defined.

Lemma trim_nonempty (s : string) : trim s <> "" -> s <> "".
Proof. intros H ->. now apply H. Qed.

Lemma repoParts_some (st : State) (owner repo : string) :
  repoParts st = Some (owner, repo) <->
  ImportSpec.isPart owner /\ ImportSpec.isPart repo
  /\ repoStr st = (owner ++ "/" ++ repo)%string.
Proof.
  unfold repoParts, ImportSpec.isPart. split.
  - destruct (split "/" (repoStr st)) as [| o [| p [| x l]]] eqn:Es;
      try discriminate.
    pose proof (split_clean "/" (repoStr st)) as Hc.
    pose proof (join_split "/" (repoStr st)) as Hj. rewrite Es in Hc, Hj.
    destruct o as [| c o]; [discriminate |].
    destruct p as [| d p]; [discriminate |].
    cbn [truthy negb orb]. intros H. injection H as <- <-.
    pose proof (Forall_inv Hc) as H1.
    pose proof (Forall_inv (Forall_inv_tail Hc)) as H2.
    repeat split; try discriminate; try assumption.
    symmetry. exact Hj.
  - intros [[Ho Hso] [[Hp Hsp] E]]. rewrite E.
    change (owner ++ "/" ++ repo)%string with (owner ++ String "/" repo)%string.
    rewrite split_app_sep by assumption. rewrite split_no_sep by assumption.
    destruct owner; [congruence |]. destruct repo; [congruence |]. reflexivity.
Qed.

(** The export runs a batch exactly when the token is not blank and the
    repository text is two non-empty parts around its only slash; otherwise
    it shows an error on a cleared form and leaves the uploading flag
    alone.  Every repository text the cleanup accepts the export accepts
    too, but the export takes the two parts as typed, where the cleanup
    trims them. *)
Theorem export_needs_a_token_and_a_two_part_repository
  (convert : nat -> string -> completion (option string))
  (upload : nat -> string -> option string -> completion unit)
  (images : list ImageItem) (st : State) :
  exists out,
    handleExport convert upload images st = Some out
    /\ (run out = None <-> trim (token st) = "" \/ repoParts st = None)
    /\ (run out = None ->
        error (state out) <> None /\ success (state out) = false
        /\ logs (state out) = [] /\ isUploading (state out) = isUploading st)
    /\ (repoParts st = None <->
        forall owner repo,
          ImportSpec.isPart owner -> ImportSpec.isPart repo ->
          repoStr st <> (owner ++ "/" ++ repo)%string)
    /\ (forall owner repo,
          Cleanup.parseRepo (repoStr st) = Some (owner, repo) ->
          exists o p,
            repoParts st = Some (o, p) /\ owner = trim o /\ repo = trim p).
Proof.
  assert (Hparts : repoParts st = None <->
                   forall owner repo,
                     ImportSpec.isPart owner -> ImportSpec.isPart repo ->
                     repoStr st <> (owner ++ "/" ++ repo)%string).
  { split.
    - intros Hn owner repo Ho Hp E.
      assert (H : repoParts st = Some (owner, repo))
        by (apply repoParts_some; auto).
      congruence.
    - intros H. destruct (repoParts st) as [[o p] |] eqn:E; [| reflexivity].
      apply repoParts_some in E. destruct E as [Ho [Hp E]].
      now destruct (H o p Ho Hp). }
  assert (Hclean : forall owner repo,
             Cleanup.parseRepo (repoStr st) = Some (owner, repo) ->
             exists o p,
               repoParts st = Some (o, p) /\ owner = trim o /\ repo = trim p).
  { intros owner repo. unfold Cleanup.parseRepo, repoParts.
    destruct (split "/" (repoStr st)) as [| o [| p [| x l]]]; try discriminate.
    destruct (trim o) as [| c o'] eqn:Eo; [discriminate |].
    destruct (trim p) as [| d p'] eqn:Ep; [discriminate |].
    cbn [truthy negb orb]. intros H. injection H as <- <-.
    exists o, p.
    destruct o; [discriminate |]. destruct p; [discriminate |].
    repeat split; auto. }
  destruct (handleExport_result convert upload images st)
    as [[Et E] | [[Et [Ep E]] | [Et [owner [repo [r [Ep [_ [_ E]]]]]]]]];
    rewrite E; eexists; (split; [reflexivity |]);
    (split; [| split; [| split; [exact Hparts | exact Hclean]]]); simpl.
  - split; auto.
  - intros _. repeat split. discriminate.
  - split; auto.
  - intros _. repeat split. discriminate.
  - split; [discriminate |]. intros [H | H]; congruence.
  - discriminate.
Qed.

Lemma export_needs_a_token_and_a_two_part_repository_witness :
  trim "  " = ""
  /\ option_map run
       (handleExport converts answers album
          {| token := "  "; repoStr := "jaymacmac/pics";
             folderPath := "lumina-exports"; isUploading := false;
             logs := ["old"]; error := None; success := true |})
     = Some None
  /\ Cleanup.parseRepo " jaymacmac / pics" = Some ("jaymacmac", "pics")
  /\ repoParts {| token := "t"; repoStr := " jaymacmac / pics";
                  folderPath := ""; isUploading := false; logs := [];
                  error := None; success := false |}
     = Some (" jaymacmac ", " pics")
  /\ repoParts {| token := "t"; repoStr := "a/b/c";
                  folderPath := ""; isUploading := false; logs := [];
                  error := None; success := false |}
     = None.
Proof.
  destruct (export_needs_a_token_and_a_two_part_repository converts answers album
              {| token := "  "; repoStr := "jaymacmac/pics";
                 folderPath := "lumina-exports"; isUploading := false;
                 logs := ["old"]; error := None; success := true |})
    as [out [E [[_ H] _]]].
  destruct (export_needs_a_token_and_a_two_part_repository converts answers album
              {| token := "t"; repoStr := " jaymacmac / pics";
                 folderPath := ""; isUploading := false; logs := [];
                 error := None; success := false |})
    as [out2 [_ [_ [_ [_ H2]]]]].
  destruct (H2 "jaymacmac" "pics" eq_refl) as [o [p [Ep _]]].
  split; [reflexivity |].
  split; [rewrite E; simpl; f_equal; apply H; left; reflexivity |].
  repeat split.
Defined.

End ExportFacts.

(* ===================================================================== *)
(** ** Adding images by address                                           *)
(* ===================================================================== *)

Module AddUrlFacts.
Import Js JsText GitHub GitHubService ImportSpec AddUrlModal TextFacts.

Lemma handleSubmit_blank (images : list string) (st : State) :
  trim (url st) = "" ->
  handleSubmit images st
  = {| state := st; added := []; closed := false; timerSet := false |}.
Proof. intros H. unfold handleSubmit. now rewrite H. Qed.

Lemma handleSubmit_plain (images : list string) (st : State) :
  trim (url st) <> "" -> isGithub st = false ->
  handleSubmit images st
  = {| state := setIsLoading false
                  (setUrl "" (setStatusMessage None (setIsLoading true st)));
       added := [[trim (url st)]]; closed := true; timerSet := false |}.
Proof.
  intros H Hg. unfold handleSubmit. rewrite Hg.
  destruct (trim (url st)); [congruence | reflexivity].
Qed.

Lemma handleSubmit_github (images : list string) (st : State) :
  trim (url st) <> "" -> isGithub st = true ->
  handleSubmit images st
  = if (List.length images =? 0)%nat then
      {| state := setIsLoading false
                    (setStatusMessage
                       (Some "No images found in this location.")
                       (setStatusMessage
                          (Some "Scanning GitHub repository for images...")
                          (setStatusMessage None (setIsLoading true st))));
         added := []; closed := false; timerSet := false |}
    else
      {| state := setStatusMessage
                    (Some ("Found and added " ++ showNat (List.length images)
                           ++ " images!")%string)
                    (setStatusMessage
                       (Some "Scanning GitHub repository for images...")
                       (setStatusMessage None (setIsLoading true st)));
         added := [images]; closed := false; timerSet := true |}.
Proof.
  intros H Hg. unfold handleSubmit. rewrite Hg.
  destruct (trim (url st)); [congruence | reflexivity].
Qed.

(** Submitting the form never hands an empty list to the gallery, and hands
    over at most one list.  A blank address changes nothing.  An address
    that does not mention github.com is added as typed but trimmed, and the
    modal closes at once with the field emptied.  A GitHub address adds
    what the import returned, all of it and in its order; with nothing
    returned the modal stays open, no longer loading, and says so; with
    something returned it stays open and loading until the timer fires,
    which empties the field and closes it.  In particular a blob address
    whose import fails is added in its raw-content form. *)
Theorem submit_adds_a_nonempty_list_or_nothing
  (st : State) (pathname : completion string)
  (fetch : string -> completion ContentsResponse) :
  isGithub st = isGitHubUrl (url st) ->
  let images := getImagesFromGitHub (url st) pathname fetch in
  let out := handleSubmit images st in
  (forall l, In l (added out) -> l <> [])
  /\ List.length (added out) <= 1
  /\ (trim (url st) = "" ->
      out = {| state := st; added := []; closed := false; timerSet := false |})
  /\ (trim (url st) <> "" -> isGitHubUrl (url st) = false ->
      added out = [[trim (url st)]] /\ closed out = true
      /\ timerSet out = false
      /\ url (state out) = "" /\ isLoading (state out) = false)
  /\ (trim (url st) <> "" -> isGitHubUrl (url st) = true ->
      closed out = false
      /\ (images = [] ->
          added out = [] /\ timerSet out = false
          /\ isLoading (state out) = false
          /\ statusMessage (state out)
             = Some "No images found in this location."
          /\ afterDelay out = out)
      /\ (images <> [] ->
          added out = [images] /\ timerSet out = true
          /\ isLoading (state out) = true
          /\ added (afterDelay out) = [images]
          /\ closed (afterDelay out) = true
          /\ url (state (afterDelay out)) = ""
          /\ isLoading (state (afterDelay out)) = false)
      /\ (importFails pathname fetch -> includes (url st) "/blob/" = true ->
          added out = [[rawUrl (url st)]])).
Proof.
  intros Hg images out.
  destruct (string_dec (trim (url st)) "") as [Hb | Hb].
  { unfold out. rewrite (handleSubmit_blank images st Hb). simpl.
    repeat split; try contradiction; try lia. }
  destruct (isGitHubUrl (url st)) eqn:Hu.
  - assert (E := handleSubmit_github images st Hb Hg). fold out in E.
    destruct images as [| x l] eqn:Hi.
    + simpl in E. rewrite E. simpl.
      split; [intros l [] |]. split; [lia |]. split; [contradiction |].
      split; [discriminate |]. intros _ _.
      split; [reflexivity |]. split; [intros _; repeat split |].
      split; [congruence |].
      intros Hf Hblob. unfold images in Hi.
      rewrite (ImportFacts.getImagesFromGitHub_fallback _ _ _ Hf) in Hi.
      unfold blobFallback in Hi. rewrite Hblob in Hi. discriminate.
    + simpl in E. rewrite E. simpl.
      split; [intros l0 [<- | []]; discriminate |]. split; [lia |].
      split; [contradiction |]. split; [discriminate |]. intros _ _.
      split; [reflexivity |]. split; [discriminate |].
      split; [intros _; repeat split |].
      intros Hf Hblob. unfold images in Hi.
      rewrite (ImportFacts.getImagesFromGitHub_fallback _ _ _ Hf) in Hi.
      unfold blobFallback in Hi. rewrite Hblob in Hi. now rewrite <- Hi.
  - assert (E := handleSubmit_plain images st Hb Hg). fold out in E.
    rewrite E. simpl.
    split.
    { intros l [<- | []]. discriminate. }
    split; [lia |]. split; [contradiction |].
    split; [intros _ _; repeat split |]. discriminate.
Qed.

Lemma submit_adds_a_nonempty_list_or_nothing_witness :
  isGithub (typed "https://github.com/jaymacmac/pics/blob/main/a.png") = true
  /\ added (handleSubmit
              (getImagesFromGitHub
                 "https://github.com/jaymacmac/pics/blob/main/a.png"
                 (Normal "/jaymacmac/pics/blob/main/a.png")
                 (fun _ => Throw (newError "Failed to fetch")))
              (typed "https://github.com/jaymacmac/pics/blob/main/a.png"))
     = [["https://raw.githubusercontent.com/jaymacmac/pics/main/a.png"]]
  /\ isGithub (typed " https://example.org/cat.png ") = false
  /\ added (handleSubmit [] (typed " https://example.org/cat.png "))
     = [["https://example.org/cat.png"]].
Proof.
  pose proof (submit_adds_a_nonempty_list_or_nothing
                (typed "https://github.com/jaymacmac/pics/blob/main/a.png")
                (Normal "/jaymacmac/pics/blob/main/a.png")
                (fun _ => Throw (newError "Failed to fetch")) eq_refl) as H.
  cbv zeta in H. destruct H as [_ [_ [_ [_ H]]]].
  assert (Hb : trim (url (typed "https://github.com/jaymacmac/pics/blob/main/a.png"))
               <> "") by discriminate.
  destruct (H Hb eq_refl) as [_ [_ [_ H4]]].
  assert (Hf : importFails (Normal "/jaymacmac/pics/blob/main/a.png")
                 (fun _ => Throw (newError "Failed to fetch"))).
  { simpl. split; [lia | exact I]. }
  specialize (H4 Hf eq_refl).
  split; [reflexivity |]. split; [exact H4 |]. split; reflexivity.
Defined.

End AddUrlFacts.
